(** * Heilion sidecars: the wake-word broadcast loop and the request/reply handler

    A shallow embedding of [wake-word-sidecar/wake_service.py] (the client
    registry, the fan-out, the detector step and the capture-and-detect loop)
    and of [HubertLlamaService.handle_client] from
    [hubert-llama-sidecar/hubert_llama_service.py].

    Modelling conventions.
    - Python floats (wall-clock seconds, confidences) are rationals [Q]; the
      constants 3.0, 0.5, 0.01 and 0.1 are the rationals 3, 1/2, 1/100, 1/10.
    - A websocket is an opaque handle ([conn]); the registry [self.clients] is
      a finite set of handles, iterated in the order of [elements].
    - Everything the environment decides (what [stream.read] returns, what
      [time.time()] says, whether a [send] goes through, what other tasks do
      while the loop is suspended) is an explicit input.
    - A fan-out iterates the live set [self.clients] and is suspended in
      every send: what the other tasks have done to the registry by the time
      a send resumes is an input of the fan-out ([interference]), and the
      [for] raises [RuntimeError] when it finds the size of the set changed.
      What the other tasks do outside a fan-out is placed at the sleep that
      ends an iteration of the loop.
    - [World] puts the tasks side by side: the lifecycle tasks and any
      number of fan-out calls under way, each of which advances by one send
      at a time while the others and the sockets change the registry. *)

From Stdlib Require Import QArith Lqa.
From Stdlib Require Import String Ascii.
From stdpp Require Import gmap strings list.

#[local] Set Warnings "-clear-no-such-hyp".

Open Scope Q_scope.
Open Scope string_scope.
Open Scope list_scope.

(** ** Python-level outcomes *)

(** The exception classes the two services can meet.  All of them derive from
    [Exception]. *)
Inductive exn : Type :=
  | ConnectionClosed   (* websockets.exceptions.ConnectionClosed *)
  | TypeError
  | ValueError
  | IndexError
  | KeyError
  | AttributeError
  | OSError
  | JSONDecodeError
  | RuntimeError.

(** A call either returns a value or raises. *)
Inductive outcome (A : Type) : Type :=
  | Return (a : A)
  | Raise (e : exn).
Arguments Return {A} a.
Arguments Raise {A} e.

Definition conn := positive.
Definition bytes := list Byte.byte.

(** What one [await client.send(...)] does. *)
Inductive send_result : Type :=
  | Sent
  | Raised (e : exn).

(** The link layer seen from one fan-out call: the fate of the send to each
    connection. *)
Definition wire := conn -> send_result.

Definition delivered (w : wire) (c : conn) : bool :=
  match w c with Sent => true | Raised _ => false end.

(** ** Connection registry and fan-out *)

Module Registry.

(** Observable steps of one fan-out call. *)
Inductive io : Type :=
  | Send (c : conn) (r : send_result)        (* await client.send(...) *)
  | Discard (gone : gset conn).              (* self.clients -= disconnected *)

Record fanout : Type := MkFanout {
  trace : list io;               (* what happened, in order *)
  clients_after : gset conn;     (* self.clients when the call ends *)
  raised : option exn            (* the exception that left the call, if any *)
}.

(** What the other tasks of the event loop (lifecycle tasks, the other
    fan-outs) have done to [self.clients] by the time a send resumes:
    [now] is the registry as they left it, and [ahead] is the order in
    which the set iterator, if it goes on, comes to the entries of the hash
    table that lie ahead of its position. *)
Record disturbance : Type := MkDisturbance {
  now : gset conn;
  ahead : list conn
}.

(** One entry per send of the call, in order: [None] when nothing touched
    the registry during that send.  Sends beyond the end of the list are
    undisturbed. *)
Definition interference : Type := list (option disturbance).

(** What the iterator still yields after a disturbance: entries of the
    set, each one once. *)
Definition yields (d : disturbance) : list conn :=
  remove_dups (filter (fun c => c ∈ now d) (ahead d)).

(** The [for client in self.clients] loop with its [try]/[except], from
    the point where no other task interferes any more: [handled e] says
    whether the [except] clause lists [e].  Returns the sends made and
    either the set [disconnected] or the exception that escaped. *)
Fixpoint send_each (handled : exn -> bool) (w : wire) (cs : list conn)
    (disconnected : gset conn) : list io * outcome (gset conn) :=
  match cs with
  | [] => ([], Return disconnected)
  | client :: rest =>
      match w client with
      | Sent =>
          let '(tr, r) := send_each handled w rest disconnected in
          (Send client Sent :: tr, r)
      | Raised e =>
          if handled e then
            let '(tr, r) :=
              send_each handled w rest ({[client]} ∪ disconnected) in
            (Send client (Raised e) :: tr, r)
          else ([Send client (Raised e)], Raise e)
      end
  end.

(** The same loop while other tasks run during its sends.  [used] is the
    size of the set when the iteration began and [live] is the set as it
    is now.  After each send the [for] asks the iterator for the next
    client, and the iterator raises [RuntimeError] ("Set changed size
    during iteration") when the set no longer has [used] elements; this
    happens outside the [try].  Returns the sends made, the set
    [disconnected] or the exception that escaped, and the live set. *)
Fixpoint send_each_among (handled : exn -> bool) (w : wire) (used : nat)
    (live : gset conn) (cs : list conn) (disconnected : gset conn)
    (jam : interference)
    : list io * outcome (gset conn) * gset conn :=
  match jam with
  | [] =>
      let '(tr, r) := send_each handled w cs disconnected in (tr, r, live)
  | d :: later =>
      match cs with
      | [] => ([], Return disconnected, live)
      | client :: rest =>
          let live' := match d with Some x => now x | None => live end in
          let rest' := match d with Some x => yields x | None => rest end in
          match w client with
          | Sent =>
              if decide (size live' = used) then
                let '(tr, r, l) :=
                  send_each_among handled w used live' rest' disconnected
                                  later in
                (Send client Sent :: tr, r, l)
              else ([Send client Sent], Raise RuntimeError, live')
          | Raised e =>
              if handled e then
                if decide (size live' = used) then
                  let '(tr, r, l) :=
                    send_each_among handled w used live' rest'
                                    ({[client]} ∪ disconnected) later in
                  (Send client (Raised e) :: tr, r, l)
                else ([Send client (Raised e)], Raise RuntimeError, live')
              else ([Send client (Raised e)], Raise e, live')
          end
      end
  end.

(** The body shared by [broadcast] and [broadcast_audio]. *)
Definition fan_out (handled : exn -> bool) (clients : gset conn) (w : wire)
    (jam : interference) : fanout :=
  if decide (clients = ∅) then          (* if self.clients: *)
    MkFanout [] clients None
  else
    match send_each_among handled w (size clients) clients
                          (elements clients) ∅ jam with
    | (tr, Return disconnected, live) =>
        MkFanout (tr ++ [Discard disconnected])
                 (live ∖ disconnected) None
    | (tr, Raise e, live) => MkFanout tr live (Some e)
    end.

(** [except websockets.exceptions.ConnectionClosed:] *)
Definition broadcast_handles (e : exn) : bool :=
  match e with ConnectionClosed => true | _ => false end.

(** [except (websockets.exceptions.ConnectionClosed, TypeError):] *)
Definition broadcast_audio_handles (e : exn) : bool :=
  match e with ConnectionClosed | TypeError => true | _ => false end.

(** [WakeWordService.broadcast]; the payload [json.dumps(message)] is the
    same for every client and does not influence the control flow. *)
Definition broadcast (clients : gset conn) (w : wire) (jam : interference)
    : fanout :=
  fan_out broadcast_handles clients w jam.

(** [WakeWordService.broadcast_audio]. *)
Definition broadcast_audio (clients : gset conn) (w : wire)
    (jam : interference) : fanout :=
  fan_out broadcast_audio_handles clients w jam.

(** The connections a fan-out tried to reach, in order. *)
Definition attempted (tr : list io) : list conn :=
  omap (fun x => match x with Send c _ => Some c | Discard _ => None end) tr.

(** The connections that received the message. *)
Definition reached (tr : list io) : list conn :=
  omap (fun x => match x with Send c Sent => Some c | _ => None end) tr.

(** The connections whose send failed under [w]. *)
Definition failed (clients : gset conn) (w : wire) : gset conn :=
  filter (fun c => delivered w c = false) clients.

(** Every failure among [cs] is of a class the [except] clause lists. *)
Definition contained (handled : exn -> bool) (w : wire) (cs : list conn)
    : Prop :=
  Forall (fun c => forall e, w c = Raised e -> handled e = true) cs.

Definition failing (w : wire) (cs : list conn) : gset conn :=
  list_to_set (filter (fun c => delivered w c = false) cs).

(** What a fan-out over [clients] under [w] looks like when no send failure
    stops it: every registered connection is tried exactly once, a
    connection whose own send goes through receives the message whatever
    happens to the others, and the failed ones leave the registry together,
    after the last send. *)
Definition tolerant (clients : gset conn) (w : wire) (r : fanout) : Prop :=
  raised r = None ∧
  attempted (trace r) = elements clients ∧
  (∀ a b, a ∈ clients → b ∈ clients → a ≠ b →
          delivered w a = false → w b = Sent → b ∈ reached (trace r)) ∧
  (∀ c, c ∈ reached (trace r) ↔ c ∈ clients ∧ w c = Sent) ∧
  trace r = map (fun c => Send c (w c)) (elements clients)
              ++ (if decide (clients = ∅) then []
                  else [Discard (failed clients w)]) ∧
  clients_after r = clients ∖ failed clients w.

(** No other task touches the registry during the call. *)
Definition quiet (jam : interference) : Prop :=
  Forall (fun d => d = None) jam.

(** What a fan-out over [clients] under [w] looks like when a send raises
    an exception that the [except] clause does not list: the call ends at
    the first such send with that exception, the connections before it
    were tried, those after it are not, and nothing is removed. *)
Definition cut_short (handled : exn -> bool) (clients : gset conn)
    (w : wire) (r : fanout) : Prop :=
  ∃ tried c rest e,
    elements clients = tried ++ c :: rest ∧
    contained handled w tried ∧
    w c = Raised e ∧ handled e = false ∧
    raised r = Some e ∧
    trace r = map (fun c => Send c (w c)) tried ++ [Send c (Raised e)] ∧
    clients_after r = clients.

(** *** One call, send by send *)

(** A fan-out call that is under way.  It is suspended in
    [await client.send(...)]. *)
Record call : Type := MkCall {
  handles : exn -> bool;       (* what its [except] clause lists *)
  used : nat;                  (* the size its set iterator recorded *)
  client : conn;               (* the connection whose send it awaits *)
  rest : list conn;            (* what the iterator has still to give *)
  disconnected : gset conn;
  sent : list io               (* its sends that have ended, in order *)
}.

Inductive progress : Type :=
  | Goes (k : call)            (* suspended in the next send *)
  | Ends (r : fanout).         (* the call is over *)

(** From the start of the call to its first send: [if self.clients:],
    [disconnected = set()], and the first client of the [for]. *)
Definition enter (handled : exn -> bool) (clients : gset conn)
    : option call :=
  match elements clients with
  | [] => None
  | c :: cs => Some (MkCall handled (size clients) c cs ∅ [])
  end.

(** Where the iterator goes next.  It only gives entries of the set as it
    is now; [ahead] overrides the order when other tasks have rebuilt the
    hash table. *)
Definition upcoming (live : gset conn) (rest : list conn)
    (ahead : option (list conn)) : list conn :=
  match ahead with
  | None => filter (fun c => c ∈ live) rest
  | Some l => yields (MkDisturbance live l)
  end.

(** The awaited send ends as [w] says, and the call runs on to its next
    send or to its end; [live] is [self.clients] at that moment.  Returns
    what the call did in this step. *)
Definition advance (live : gset conn) (k : call) (w : wire)
    (ahead : option (list conn)) : list io * progress :=
  let c := client k in
  let did := sent k ++ [Send c (w c)] in
  let next (disconnected : gset conn) :=
    if decide (size live = used k) then
      match upcoming live (rest k) ahead with
      | [] =>
          ([Send c (w c); Discard disconnected],
           Ends (MkFanout (did ++ [Discard disconnected])
                          (live ∖ disconnected) None))
      | c' :: cs =>
          ([Send c (w c)],
           Goes (MkCall (handles k) (used k) c' cs disconnected did))
      end
    else ([Send c (w c)], Ends (MkFanout did live (Some RuntimeError))) in
  match w c with
  | Sent => next (disconnected k)
  | Raised e =>
      if handles k e then next ({[c]} ∪ disconnected k)
      else ([Send c (w c)], Ends (MkFanout did live (Some e)))
  end.

(** [register_client] up to its [await websocket.wait_closed()]. *)
Definition register_client_enter (clients : gset conn) (websocket : conn)
    : gset conn :=
  {[websocket]} ∪ clients.

(** The [finally] clause of [register_client]: [set.remove] raises
    [KeyError] when the element is absent (a failed send has already
    dropped it). *)
Definition register_client_exit (clients : gset conn) (websocket : conn)
    : outcome (gset conn) :=
  if decide (websocket ∈ clients) then Return (clients ∖ {[websocket]})
  else Raise KeyError.

End Registry.

(** ** The detector step *)

Module Detector.

Definition PERSONAS : list string :=
  [ "Aries"; "Taurus"; "Gemini"; "Cancer"; "Leo"; "Virgo";
    "Libra"; "Scorpio"; "Sagittarius"; "Capricorn"; "Aquarius"; "Pisces" ].

(** [WAKE_PHRASES = [f"Hey {persona}" for persona in PERSONAS]] *)
Definition WAKE_PHRASES : list string :=
  map (fun persona => ("Hey " ++ persona)%string) PERSONAS.

(** [str.lower] on ASCII text. *)
Definition lower_ascii (c : ascii) : ascii :=
  let n := nat_of_ascii c in
  if (65 <=? n)%nat && (n <=? 90)%nat then ascii_of_nat (n + 32) else c.

Fixpoint lower (s : string) : string :=
  match s with
  | EmptyString => EmptyString
  | String c s' => String (lower_ascii c) (lower s')
  end.

(** [str.replace(old, new)] for one-character [old] and [new]. *)
Fixpoint replace (old new : ascii) (s : string) : string :=
  match s with
  | EmptyString => EmptyString
  | String c s' =>
      String (if Ascii.eqb c old then new else c) (replace old new s')
  end.

(** [phrase.lower().replace(' ', '_')] *)
Definition output_key (phrase : string) : string :=
  replace " "%char "_"%char (lower phrase).

(** The classifier's answer for one frame: a dict from output name to
    score. *)
Abbreviation prediction := (gmap string Q).

(** [prediction.get(key, 0)] *)
Definition get (p : prediction) (key : string) : Q :=
  default 0 (p !! key).

Definition threshold : Q := 1 # 2.

(** [score > 0.5] *)
Definition above_threshold (score : Q) : bool :=
  if Qlt_le_dec threshold score then true else false.

(** The openWakeWord model: only its inference entry point matters. *)
Record Model : Type := MkModel {
  predict : list Q -> outcome prediction
}.

(** One little-endian signed 16-bit sample. *)
Definition int16 (lo hi : Byte.byte) : Z :=
  let u := (Z.of_N (Byte.to_N lo) + 256 * Z.of_N (Byte.to_N hi))%Z in
  if (u <? 32768)%Z then u else (u - 65536)%Z.

(** [np.frombuffer(audio_data, dtype=np.int16)]: raises [ValueError] when
    the buffer is not a whole number of samples. *)
Fixpoint frombuffer (audio_data : bytes) : outcome (list Z) :=
  match audio_data with
  | [] => Return []
  | [_] => Raise ValueError
  | lo :: hi :: rest =>
      match frombuffer rest with
      | Return samples => Return (int16 lo hi :: samples)
      | Raise e => Raise e
      end
  end.

(** [.astype(np.float32) / 32768.0] *)
Definition normalise (samples : list Z) : list Q :=
  map (fun s => inject_Z s / 32768) samples.

Inductive log_line : Type :=
  | DetectionError (e : exn)        (* "Wake word detection error: {e}" *)
  | AudioLoopError (e : exn)        (* "Audio loop error: {e}" *)
  | WakeWordDetected (persona : string).

(** [for i, phrase in enumerate(WAKE_PHRASES): ...] from index [i] on.
    [PERSONAS[i]] raises [IndexError] out of range. *)
Fixpoint scan (p : prediction) (i : nat) (phrases : list string)
    : outcome (option string) :=
  match phrases with
  | [] => Return None
  | phrase :: rest =>
      if above_threshold (get p (output_key phrase)) then
        match PERSONAS !! i with
        | Some persona => Return (Some persona)
        | None => Raise IndexError
        end
      else scan p (S i) rest
  end.

(** The body of the [try] block of [detect_wake_word]. *)
Definition classify (m : Model) (audio_data : bytes)
    : outcome (option string) :=
  match frombuffer audio_data with
  | Raise e => Raise e
  | Return samples =>
      match predict m (normalise samples) with
      | Raise e => Raise e
      | Return p => scan p 0 WAKE_PHRASES
      end
  end.

(** [WakeWordService.detect_wake_word]: the persona (or [None]) and what
    was printed. *)
Definition detect_wake_word (model : option Model) (oww_available : bool)
    (audio_data : bytes) : option string * list log_line :=
  match model with
  | Some m =>
      if oww_available then
        match classify m audio_data with
        | Return persona => (persona, [])
        | Raise e => (None, [DetectionError e])
        end
      else (None, [])
  | None => (None, [])
  end.

(** The mapping the detector reports for a frame, when it reports one. *)
Definition reported (model : option Model) (oww_available : bool)
    (audio_data : bytes) : option prediction :=
  match model with
  | Some m =>
      if oww_available then
        match frombuffer audio_data with
        | Return samples =>
            match predict m (normalise samples) with
            | Return p => Some p
            | Raise _ => None
            end
        | Raise _ => None
        end
      else None
  | None => None
  end.

(** The personas with the label each one has in the detector's mapping,
    written out one by one (the label of Leo is hey_leo), to be compared
    with what [output_key] computes from the wake phrases. *)
Definition LABELS : list (string * string) :=
  [ ("Aries", "hey_aries"); ("Taurus", "hey_taurus");
    ("Gemini", "hey_gemini"); ("Cancer", "hey_cancer");
    ("Leo", "hey_leo"); ("Virgo", "hey_virgo");
    ("Libra", "hey_libra"); ("Scorpio", "hey_scorpio");
    ("Sagittarius", "hey_sagittarius"); ("Capricorn", "hey_capricorn");
    ("Aquarius", "hey_aquarius"); ("Pisces", "hey_pisces") ].

(** A label is matched by a mapping when its output scores above the
    threshold. *)
Definition matches (p : prediction) (persona : string) : Prop :=
  threshold < get p (output_key ("Hey " ++ persona)%string).

End Detector.

(** ** The service object and the capture-and-detect loop *)

Module Wake.
Import Registry Detector.

(** The fields of [WakeWordService] the loop reads or writes.  [stream] is
    whether [self.stream] holds a stream object. *)
Record service : Type := MkService {
  clients : gset conn;
  model : option Model;
  oww_available : bool;
  stream : bool;
  running : bool
}.

Definition with_clients (s : service) (cs : gset conn) : service :=
  MkService cs (model s) (oww_available s) (stream s) (running s).

Definition with_running (s : service) (b : bool) : service :=
  MkService (clients s) (model s) (oww_available s) (stream s) b.

(** [WakeWordService.__init__]: [imported] is the module-level
    [OWW_AVAILABLE], [loaded] the result of [Model(wakeword_models=...)]. *)
Definition init (imported : bool) (loaded : outcome Model) : service :=
  if imported then
    match loaded with
    | Return m => MkService ∅ (Some m) true false false
    | Raise _ => MkService ∅ None false false false
    end
  else MkService ∅ None false false false.

(** [start_audio_listening]: [opened] is the result of opening the capture
    device. *)
Definition start_audio_listening (s : service) (opened : outcome unit)
    : service :=
  if oww_available s then
    match opened with
    | Return _ =>
        MkService (clients s) (model s) (oww_available s) true true
    | Raise _ => with_running s false
    end
  else s.

(** [stop]: the stream object is closed but stays in [self.stream]. *)
Definition stop (s : service) : service := with_running s false.

(** What the other tasks of the event loop do to the service while the
    capture loop is suspended. *)
Inductive interleaved : Type :=
  | Joins (c : conn)              (* register_client, up to its await *)
  | Leaves (c : conn)             (* register_client, its finally clause *)
  | Forwards (w : wire) (j : interference)
                                  (* a detached broadcast_audio task runs *)
  | Stops.                        (* stop() *)

Definition interleave (s : service) (ev : interleaved) : service :=
  match ev with
  | Joins c => with_clients s (register_client_enter (clients s) c)
  | Leaves c =>
      match register_client_exit (clients s) c with
      | Return cs => with_clients s cs
      | Raise _ => s             (* the KeyError ends that task only *)
      end
  | Forwards w j =>
      with_clients s (clients_after (broadcast_audio (clients s) w j))
  | Stops => stop s
  end.

(** What the environment supplies to one iteration. *)
Record tick : Type := MkTick {
  read : outcome bytes;           (* self.stream.read(CHUNK, ...) *)
  clock : Q;                      (* time.time() *)
  link : wire;                    (* fate of the sends of a trigger broadcast *)
  jam : interference;             (* other tasks, during those sends *)
  meanwhile : list interleaved    (* other tasks, during the final sleep *)
}.

(** What the loop does that can be observed. *)
Inductive effect : Type :=
  | SpawnForward (audio_data : bytes)   (* asyncio.create_task(broadcast_audio) *)
  | Trigger (at_time : Q) (persona : string) (sends : list io)
                                        (* await self.broadcast({triggered, persona}) *)
  | Print (l : log_line)
  | Sleep (seconds : Q).

Definition cooldown : Q := 3.

(** [current_time - last_trigger_time > cooldown] *)
Definition cooled_down (current_time last_trigger_time : Q) : bool :=
  if Qlt_le_dec cooldown (current_time - last_trigger_time) then true
  else false.

(** Truth value of a string: empty is false. *)
Definition truthy (s : string) : bool :=
  match s with EmptyString => false | String _ _ => true end.

(** The [except Exception as e] clause of the loop. *)
Definition on_error (e : exn) : list effect :=
  [Print (AudioLoopError e); Sleep (1 # 10)].

(** One pass through the body of [while self.running], up to and including
    the sleep that ends it.  Returns the service, [last_trigger_time] and
    the effects. *)
Definition loop_body (s : service) (last_trigger_time : Q) (t : tick)
    : service * Q * list effect :=
  if stream s then
    match read t with
    | Raise e => (s, last_trigger_time, on_error e)
    | Return audio_data =>
        let forward :=
          if decide (clients s = ∅) then [] else [SpawnForward audio_data] in
        let '(persona, printed) :=
          detect_wake_word (model s) (oww_available s) audio_data in
        let detect := forward ++ map Print printed in
        match persona with
        | Some p =>
            if truthy p then
              let current_time := clock t in
              if cooled_down current_time last_trigger_time then
                let b := broadcast (clients s) (link t) (jam t) in
                let s' := with_clients s (clients_after b) in
                match raised b with
                | None =>
                    (s', current_time,
                     detect ++ [Trigger current_time p (trace b);
                                Print (WakeWordDetected p); Sleep (1 # 100)])
                | Some e =>
                    (s', current_time,
                     detect ++ Trigger current_time p (trace b) :: on_error e)
                end
              else (s, last_trigger_time, detect ++ [Sleep (1 # 100)])
            else (s, last_trigger_time, detect ++ [Sleep (1 # 100)])
        | None => (s, last_trigger_time, detect ++ [Sleep (1 # 100)])
        end
    end
  else (s, last_trigger_time, [Sleep (1 # 100)]).

(** One iteration followed by what the other tasks did during its sleep. *)
Definition iteration (s : service) (last_trigger_time : Q) (t : tick)
    : service * Q * list effect :=
  let '(s', last', eff) := loop_body s last_trigger_time t in
  (foldl interleave s' (meanwhile t), last', eff).

(** [while self.running: ...] over the iterations the environment allows:
    the list is the prefix of the run that is observed. *)
Fixpoint while_running (s : service) (last_trigger_time : Q)
    (ticks : list tick) : service * Q * list effect :=
  match ticks with
  | [] => (s, last_trigger_time, [])
  | t :: rest =>
      if running s then
        let '(s', last', eff) := iteration s last_trigger_time t in
        let '(s'', last'', eff') := while_running s' last' rest in
        (s'', last'', eff ++ eff')
      else (s, last_trigger_time, [])
  end.

(** [WakeWordService.audio_loop] *)
Definition audio_loop (s : service) (ticks : list tick)
    : service * Q * list effect :=
  if running s then while_running s 0 ticks else (s, 0, []).

(** The trigger broadcasts of a run, oldest first. *)
Definition triggers (eff : list effect) : list (Q * string) :=
  omap (fun e => match e with
                 | Trigger t p _ => Some (t, p)
                 | _ => None
                 end) eff.

Definition effects (r : service * Q * list effect) : list effect := snd r.
Definition last_trigger (r : service * Q * list effect) : Q := snd (fst r).
Definition final (r : service * Q * list effect) : service := fst (fst r).

(** The persona of a positive detection on the frame of this tick: the
    frame is read, the detection step returns a persona and the loop's
    [if persona:] takes it. *)
Definition detected (s : service) (t : tick) : option string :=
  if stream s then
    match read t with
    | Return audio_data =>
        match fst (detect_wake_word (model s) (oww_available s) audio_data) with
        | Some p => if truthy p then Some p else None
        | None => None
        end
    | Raise _ => None
    end
  else None.

(** The exception met while reading or classifying the frame of this
    tick, if any. *)
Definition frame_error (s : service) (t : tick) : option exn :=
  if stream s then
    match read t with
    | Raise e => Some e
    | Return audio_data =>
        match model s with
        | Some m =>
            if oww_available s then
              match classify m audio_data with
              | Raise e => Some e
              | Return _ => None
              end
            else None
        | None => None
        end
    end
  else None.

(** The parts of the service the detector depends on. *)
Definition same_detector (s s' : service) : Prop :=
  model s = model s' ∧ oww_available s = oww_available s' ∧
  stream s = stream s'.

(** Successive times, each more than one cooldown after the one before,
    starting after [since]. *)
Fixpoint spaced (since : Q) (times : list Q) : Prop :=
  match times with
  | [] => True
  | t :: rest => cooldown < t - since ∧ spaced t rest
  end.

Definition times (eff : list effect) : list Q := map fst (triggers eff).

End Wake.

(** ** Sockets closing under the registry *)

Module World.
Import Registry.

(** The transport owns the sockets: [open] is the set of connections that
    are still open, [registry] is [self.clients], and [calls] are the
    fan-out calls under way, each suspended in a send. *)
Record world : Type := MkWorld {
  open : gset conn;
  registry : gset conn;
  calls : list call
}.

Inductive event : Type :=
  | Accept (c : conn)       (* a client connects; register_client starts *)
  | Close (c : conn)        (* the socket of c closes *)
  | Observe (c : conn)      (* wait_closed() returns in c's lifecycle task *)
  | Broadcast               (* the loop calls broadcast(...) *)
  | ForwardAudio            (* a broadcast_audio task starts to run *)
  | Resume (i : nat) (w : wire) (ahead : option (list conn)).
                            (* the send awaited by the i-th call ends *)

Definition begin (handled : exn -> bool) (w : world) : world :=
  match enter handled (registry w) with
  | None => w
  | Some k => MkWorld (open w) (registry w) (calls w ++ [k])
  end.

(** The call that an event brings to its end. *)
Definition ends (w : world) (ev : event) : option fanout :=
  match ev with
  | Resume i wr ahead =>
      match calls w !! i with
      | Some k =>
          match advance (registry w) k wr ahead with
          | (_, Ends r) => Some r
          | (_, Goes _) => None
          end
      | None => None
      end
  | _ => None
  end.

(** One event: the world after it and the sends and removals made. *)
Definition step (w : world) (ev : event) : world * list io :=
  match ev with
  | Accept c =>
      (MkWorld ({[c]} ∪ open w) (register_client_enter (registry w) c)
               (calls w), [])
  | Close c => (MkWorld (open w ∖ {[c]}) (registry w) (calls w), [])
  | Observe c =>
      match register_client_exit (registry w) c with
      | Return cs => (MkWorld (open w) cs (calls w), [])
      | Raise _ => (w, [])
      end
  | Broadcast => (begin broadcast_handles w, [])
  | ForwardAudio => (begin broadcast_audio_handles w, [])
  | Resume i wr ahead =>
      match calls w !! i with
      | Some k =>
          match advance (registry w) k wr ahead with
          | (did, Goes k') =>
              (MkWorld (open w) (registry w) (<[i := k']> (calls w)), did)
          | (did, Ends r) =>
              (MkWorld (open w) (clients_after r) (delete i (calls w)), did)
          end
      | None => (w, [])
      end
  end.

(** A run: the final world and everything done on the way. *)
Fixpoint run (w : world) (evs : list event) : world * list io :=
  match evs with
  | [] => (w, [])
  | ev :: rest =>
      let '(w', tr) := step w ev in
      let '(w'', tr') := run w' rest in
      (w'', tr ++ tr')
  end.

Definition start : world := MkWorld ∅ ∅ [].

(** No call is in the middle of a send to [c]. *)
Definition idle (c : conn) (w : world) : Prop :=
  Forall (fun k => client k ≠ c) (calls w).

(** The call has put every connection whose send failed into its set
    [disconnected]. *)
Definition marked (k : call) : Prop :=
  ∀ c e, Send c (Raised e) ∈ sent k → c ∈ disconnected k.

End World.

(** ** The request/reply handler of the speech-understanding service *)

Module Hubert.

(** A value produced by [json.loads]. *)
#[local] Set Warnings "-register-all".
Inductive json : Type :=
  | JNull
  | JBool (b : bool)
  | JNumber (q : Q)
  | JString (s : string)
  | JArray (items : list json)
  | JObject (fields : list (string * json)).

Fixpoint assoc (key : string) (fields : list (string * json))
    : option json :=
  match fields with
  | [] => None
  | (k, v) :: rest => if String.eqb k key then Some v else assoc key rest
  end.

(** [data.get(key)]: only a dict has [get]. *)
Definition dict_get (data : json) (key : string) : outcome (option json) :=
  match data with
  | JObject fields => Return (assoc key fields)
  | _ => Raise AttributeError
  end.

(** [x == 'literal'] for the value of [data.get(...)]. *)
Definition is_str (x : option json) (literal : string) : bool :=
  match x with
  | Some (JString s) => String.eqb s literal
  | _ => false
  end.

(** Truth value of what [data.get(...)] returned. *)
Definition truth (x : option json) : bool :=
  match x with
  | None | Some JNull => false
  | Some (JBool b) => b
  | Some (JNumber q) => negb (Qeq_bool q 0)
  | Some (JString s) =>
      match s with EmptyString => false | String _ _ => true end
  | Some (JArray items) => match items with [] => false | _ => true end
  | Some (JObject fields) => match fields with [] => false | _ => true end
  end.

(** The text of the ['error'] field of an error reply. *)
Inductive detail : Type :=
  | Message (text : string)
  | AudioFileNotFound (audio_path : option json)
  | UnknownMessageType (msg_type : option json)
  | ExceptionText (e : exn).

Inductive reply : Type :=
  | Pong
  | Error (d : detail)
  | Result (fields : json)
  | ModelsLoaded (success : bool).

(** One inbound message with what the environment answers while it is
    handled. *)
Record inbound : Type := MkInbound {
  text : string;                 (* the message *)
  link : send_result;            (* fate of a send on this connection *)
  path_exists : outcome bool;    (* os.path.exists(audio_path) *)
  understood : outcome json;     (* transcribe_and_understand(...) *)
  loaded : bool                  (* load_models() *)
}.

Definition attempt : Type := reply * send_result.

(** How the handler's [async for] ended. *)
Inductive ending : Type :=
  | Exhausted                    (* the peer closed; no more messages *)
  | PeerGone                     (* ConnectionClosed, swallowed by the handler *)
  | Escaped (e : exn).           (* another exception left the handler *)

Section Handler.
(** [json.loads]: raises [JSONDecodeError] on text that is not JSON. *)
Variable json_loads : string -> outcome json.

(** [await websocket.send(json.dumps(r))] *)
Definition send (m : inbound) (r : reply) : list attempt * outcome unit :=
  ([(r, link m)],
   match link m with Sent => Return tt | Raised e => Raise e end).

(** The [try] body after [json.loads]. *)
Definition dispatch (m : inbound) (data : json)
    : list attempt * outcome unit :=
  match dict_get data "type" with
  | Raise e => ([], Raise e)
  | Return msg_type =>
      if is_str msg_type "ping" then send m Pong
      else if is_str msg_type "transcribe" then
        match dict_get data "audio_path" with
        | Raise e => ([], Raise e)
        | Return audio_path =>
            if negb (truth audio_path) then
              send m (Error (AudioFileNotFound audio_path))
            else
              match path_exists m with
              | Raise e => ([], Raise e)
              | Return false =>
                  send m (Error (AudioFileNotFound audio_path))
              | Return true =>
                  match understood m with
                  | Raise e => ([], Raise e)
                  | Return result => send m (Result result)
                  end
              end
        end
      else if is_str msg_type "load_models" then
        send m (ModelsLoaded (loaded m))
      else send m (Error (UnknownMessageType msg_type))
  end.

(** The whole [try] block. *)
Definition attempt_message (m : inbound) : list attempt * outcome unit :=
  match json_loads (text m) with
  | Raise e => ([], Raise e)
  | Return data => dispatch m data
  end.

(** The body of [async for message in websocket] with its two [except]
    clauses. *)
Definition on_message (m : inbound) : list attempt * outcome unit :=
  match attempt_message m with
  | (made, Return _) => (made, Return tt)
  | (made, Raise JSONDecodeError) =>
      let '(more, r) := send m (Error (Message "Invalid JSON")) in
      (made ++ more, r)
  | (made, Raise e) =>
      let '(more, r) := send m (Error (ExceptionText e)) in
      (made ++ more, r)
  end.

(** [async for message in websocket: ...] inside the outer [try]. *)
Fixpoint serve (ms : list inbound) : list attempt * ending :=
  match ms with
  | [] => ([], Exhausted)
  | m :: rest =>
      match on_message m with
      | (made, Return _) =>
          let '(more, e) := serve rest in (made ++ more, e)
      | (made, Raise ConnectionClosed) => (made, PeerGone)
      | (made, Raise e) => (made, Escaped e)
      end
  end.

(** [HubertLlamaService.handle_client]: the replies attempted, how the
    loop ended and [self.clients] afterwards. *)
Definition handle_client (clients : gset conn) (websocket : conn)
    (ms : list inbound) : list attempt * ending * gset conn :=
  let registered := {[websocket]} ∪ clients in
  let '(sent, e) := serve ms in
  (sent, e, registered ∖ {[websocket]}).

End Handler.

End Hubert.

(** ** Starting and stopping the wake-word service *)

Module WakeMain.
Import Registry Detector Wake.

(** [main]: build the service, then, when the library is available, open
    the capture device and start [audio_loop] as a task.  [early] is what
    the other tasks do before that task gets to run. *)
Definition main (imported : bool) (loaded : outcome Model)
    (opened : outcome unit) (early : list interleaved) (ticks : list tick)
    : service * Q * list effect :=
  let service := init imported loaded in
  if oww_available service then
    audio_loop (foldl interleave (start_audio_listening service opened) early)
               ticks
  else (foldl interleave service early, 0, []).

(** The service objects the program can get to. *)
Inductive reachable : service -> Prop :=
  | reach_init imported loaded : reachable (init imported loaded)
  | reach_start s opened :
      reachable s -> reachable (start_audio_listening s opened)
  | reach_interleave s ev : reachable s -> reachable (interleave s ev)
  | reach_body s last t :
      reachable s -> reachable (final (loop_body s last t)).

(** The sleeps of a run, in order. *)
Definition sleeps (eff : list effect) : list Q :=
  omap (fun e => match e with Sleep d => Some d | _ => None end) eff.

(** The frames handed to forwarding tasks, in order. *)
Definition forwarded (eff : list effect) : list bytes :=
  omap (fun e => match e with SpawnForward a => Some a | _ => None end) eff.

End WakeMain.

(** ** The speech-understanding pipeline *)

From Stdlib Require Import DecimalString.

Module Speech.

Definition SAMPLE_RATE : Z := 16000.
Definition CHUNK_DURATION : Q := 30.

(** [int(x)] for a float: truncation towards zero. *)
Definition int (x : Q) : Z := Z.quot (Qnum x) (Z.pos (Qden x)).

(** [target_length = int(SAMPLE_RATE * CHUNK_DURATION)] *)
Definition target_length : nat :=
  Z.to_nat (int (inject_Z SAMPLE_RATE * CHUNK_DURATION)).

(** "Pad or trim to 30 seconds": [audio[:target_length]] when the audio is
    longer, [np.pad(audio, (0, padding), mode='constant')] otherwise. *)
Definition pad_or_trim (audio : list Q) : list Q :=
  if (target_length <? length audio)%nat then take target_length audio
  else
    let padding := (target_length - length audio)%nat in
    audio ++ replicate padding 0.

(** [str(n)] for a length. *)
Definition str (n : nat) : string := NilEmpty.string_of_uint (Nat.to_uint n).

(** [create_speech_prompt]: [features] is [len(speech_tokens)]. *)
Definition create_speech_prompt (features : nat) (context : string) : string :=
  ("<|begin_of_text|><|start_header_id|>system<|end_header_id|>

You are an AI tutor helping a student. The student's speech has been encoded using HuBERT speech encoder. 
Process the speech information and respond naturally as a tutor.

" ++ context ++ "

<|eot_id|><|start_header_id|>user<|end_header_id|>

[Speech encoded with HuBERT - " ++ str features ++ " features extracted]
Please transcribe and understand the student's speech, then respond as a helpful tutor.

<|eot_id|><|start_header_id|>assistant<|end_header_id|>

")%string.

(** Code points that [str.strip()] removes, among those below 256. *)
Definition is_space (c : ascii) : bool :=
  let n := nat_of_ascii c in
  ((9 <=? n) && (n <=? 13) || (28 <=? n) && (n <=? 32)
   || (n =? 133) || (n =? 160))%nat.

Definition newline : ascii := ascii_of_nat 10.

Fixpoint lstrip (s : string) : string :=
  match s with
  | EmptyString => EmptyString
  | String c s' => if is_space c then lstrip s' else s
  end.

Fixpoint rstrip (s : string) : string :=
  match s with
  | EmptyString => EmptyString
  | String c s' =>
      match rstrip s' with
      | EmptyString => if is_space c then EmptyString else String c EmptyString
      | kept => String c kept
      end
  end.

(** [s.strip()] *)
Definition strip (s : string) : string := rstrip (lstrip s).

(** ['\n' in s] *)
Fixpoint has_newline (s : string) : bool :=
  match s with
  | EmptyString => false
  | String c s' => Ascii.eqb c newline || has_newline s'
  end.

(** [s.split('\n')[0]] *)
Fixpoint first_line (s : string) : string :=
  match s with
  | EmptyString => EmptyString
  | String c s' =>
      if Ascii.eqb c newline then EmptyString else String c (first_line s')
  end.

(** [response_text.split('\n')[0] if '\n' in response_text else
    response_text] *)
Definition transcript_of (response_text : string) : string :=
  if has_newline response_text then first_line response_text
  else response_text.

Section Models.
(** Tensors and arrays are opaque; [pool] is [torch.mean(_, dim=1)],
    [count] is [len(_)] and [shape] is [_.shape]. *)
Variable tensor : Type.
Variable pool : tensor -> tensor.
Variable count : tensor -> nat.
Variable shape : tensor -> list nat.

Record Tokenizer : Type := MkTokenizer {
  tokenize : string -> outcome tensor;       (* tokenizer(prompt, ...) *)
  decode : tensor -> tensor -> outcome string
                   (* tokenizer.decode(outputs[0][inputs[...].shape[1]:]) *)
}.

Record state : Type := MkState {
  huber_processor : option (list Q -> outcome tensor);
  huber_model : option (tensor -> outcome tensor);
  llama_tokenizer : option Tokenizer;
  llama_model : option (tensor -> outcome tensor);
  models_loaded : bool
}.

(** [HubertLlamaService.__init__] *)
Definition init : state := MkState None None None None false.

(** What the model hub and the device answer during [load_models]. *)
Record hub : Type := MkHub {
  processor_from_pretrained : outcome (list Q -> outcome tensor);
  encoder_from_pretrained : outcome (tensor -> outcome tensor);
  encoder_placed : outcome unit;             (* .to(device); .eval() *)
  quantization : outcome unit;               (* BitsAndBytesConfig(...) *)
  tokenizer_from_pretrained : outcome Tokenizer;
  llama_from_pretrained : outcome (tensor -> outcome tensor);
  llama_placed : outcome unit                (* .to(device); .eval() *)
}.

(** [load_models]: the attributes are assigned one by one inside the
    [try]; an exception leaves those already assigned in place. *)
Definition load_models (st : state) (h : hub) : state * bool :=
  if models_loaded st then (st, true)
  else
    match processor_from_pretrained h with
    | Raise _ => (st, false)
    | Return processor =>
        let st1 := MkState (Some processor) (huber_model st)
                     (llama_tokenizer st) (llama_model st) false in
        match encoder_from_pretrained h with
        | Raise _ => (st1, false)
        | Return encoder =>
            let st2 := MkState (Some processor) (Some encoder)
                         (llama_tokenizer st) (llama_model st) false in
            match encoder_placed h with
            | Raise _ => (st2, false)
            | Return _ =>
                match quantization h with
                | Raise _ => (st2, false)
                | Return _ =>
                    match tokenizer_from_pretrained h with
                    | Raise _ => (st2, false)
                    | Return tokenizer =>
                        let st3 := MkState (Some processor) (Some encoder)
                                     (Some tokenizer) (llama_model st)
                                     false in
                        match llama_from_pretrained h with
                        | Raise _ => (st3, false)
                        | Return llama =>
                            let st4 := MkState (Some processor)
                                         (Some encoder) (Some tokenizer)
                                         (Some llama) false in
                            match llama_placed h with
                            | Raise _ => (st4, false)
                            | Return _ =>
                                (MkState (Some processor) (Some encoder)
                                   (Some tokenizer) (Some llama) true,
                                 true)
                            end
                        end
                    end
                end
            end
        end
    end.

(** Calling an attribute that is still [None] raises [TypeError]. *)
Definition call {A B : Type} (f : option (A -> outcome B)) (x : A)
    : outcome B :=
  match f with
  | Some g => g x
  | None => Raise TypeError
  end.

(** [encode_audio_hubert]: [loaded_audio] is what [librosa.load] gives.
    Its [except] clause prints and raises again.  Returns
    [(speech_tokens, speech_features)]. *)
Definition encode_audio_hubert (st : state) (loaded_audio : outcome (list Q))
    : outcome (tensor * tensor) :=
  match loaded_audio with
  | Raise e => Raise e
  | Return audio =>
      match call (huber_processor st) (pad_or_trim audio) with
      | Raise e => Raise e
      | Return inputs =>
          match call (huber_model st) inputs with
          | Raise e => Raise e
          | Return speech_features =>
              Return (pool speech_features, speech_features)
          end
      end
  end.

(** The dict that [transcribe_and_understand] returns. *)
Inductive understanding : Type :=
  | Understood (transcript response : string)
               (speech_features_shape : list nat)     (* 'success': True *)
  | Failed (e : exn).                                  (* 'success': False *)

(** The [try] block of [transcribe_and_understand]. *)
Definition understand (st : state) (loaded_audio : outcome (list Q))
    (context : string) : outcome understanding :=
  match encode_audio_hubert st loaded_audio with
  | Raise e => Raise e
  | Return (speech_tokens, speech_features) =>
      let prompt := create_speech_prompt (count speech_tokens) context in
      match llama_tokenizer st with
      | None => Raise TypeError
      | Some tokenizer =>
          match tokenize tokenizer prompt with
          | Raise e => Raise e
          | Return inputs =>
              match llama_model st with
              | None => Raise AttributeError
              | Some llama =>
                  match llama inputs with
                  | Raise e => Raise e
                  | Return outputs =>
                      match decode tokenizer inputs outputs with
                      | Raise e => Raise e
                      | Return response_text =>
                          Return
                            (Understood
                               (strip (transcript_of response_text))
                               (strip response_text)
                               (shape speech_features))
                      end
                  end
              end
          end
      end
  end.

(** [transcribe_and_understand]: loads the models first when they are
    not loaded (ignoring what [load_models] returns).  Returns the
    service state and the result dict. *)
Definition transcribe_and_understand (st : state) (h : hub)
    (loaded_audio : outcome (list Q)) (context : string)
    : state * understanding :=
  let st' := if models_loaded st then st else fst (load_models st h) in
  match understand st' loaded_audio context with
  | Return result => (st', result)
  | Raise e => (st', Failed e)
  end.

End Models.

End Speech.

(** ** The text-to-speech endpoint *)

Module Soprano.

(** A numpy array by its number of dimensions. *)
Inductive ndarray : Type :=
  | Dim1 (samples : list Q)
  | Dim2 (rows : list (list Q))
  | DimOther.

(** What a dict entry can hold as far as [torch.from_numpy] is concerned. *)
Inductive value : Type :=
  | Array (a : ndarray)
  | Object.                          (* anything that is not an ndarray *)

(** [torch.from_numpy]: [TypeError] on what is not an ndarray. *)
Definition from_numpy (v : value) : outcome ndarray :=
  match v with
  | Array a => Return a
  | Object => Raise TypeError
  end.

(** The dict the pipeline returns: a key may be missing. *)
Record result : Type := MkResult {
  audio : option value;              (* result["audio"] *)
  sampling_rate : option Z           (* result.get("sampling_rate", 22050) *)
}.

(** The global [pipe]: [None] until the model is loaded. *)
Definition pipeline : Type := string -> outcome result.

Inductive detail : Type :=
  | NotLoaded                        (* "Soprano TTS model not loaded. ..." *)
  | GenerationFailed (e : exn).      (* f"TTS generation failed: {str(e)}" *)

Inductive response : Type :=
  | Wav (content : bytes) (media_type : string)
  | HTTPException (status_code : Z) (d : detail).

Definition status (r : response) : Z :=
  match r with
  | Wav _ _ => 200
  | HTTPException status_code _ => status_code
  end.

(** [if audio_tensor.dim() == 1: audio_tensor = audio_tensor.unsqueeze(0)] *)
Definition with_channel (a : ndarray) : ndarray :=
  match a with
  | Dim1 samples => Dim2 [samples]
  | other => other
  end.

(** The [try] block of [text_to_speech]; [save] is [torchaudio.save] into
    a buffer followed by reading the buffer back. *)
Definition generate (pipe : pipeline) (save : ndarray -> Z -> outcome bytes)
    (input : string) : outcome bytes :=
  match pipe input with
  | Raise e => Raise e
  | Return r =>
      match audio r with
      | None => Raise KeyError
      | Some audio_array =>
          let rate := default 22050%Z (sampling_rate r) in
          match from_numpy audio_array with
          | Raise e => Raise e
          | Return audio_tensor => save (with_channel audio_tensor) rate
          end
      end
  end.

(** [text_to_speech] *)
Definition text_to_speech (pipe : option pipeline)
    (save : ndarray -> Z -> outcome bytes) (input : string) : response :=
  match pipe with
  | None => HTTPException 503 NotLoaded
  | Some p =>
      match generate p save input with
      | Return content => Wav content "audio/wav"
      | Raise e => HTTPException 500 (GenerationFailed e)
      end
  end.

(** [load_model]: [built] is what [pipeline("text-to-speech", ...)] gives
    (an [ImportError] of [transformers] included).  Returns the global
    [pipe] and the boolean. *)
Definition load_model (pipe : option pipeline) (built : outcome pipeline)
    : option pipeline * bool :=
  match built with
  | Return p => (Some p, true)
  | Raise _ => (pipe, false)
  end.

(** The startup half of [lifespan]: the server starts whether or not the
    model loaded.  [pipe] is [None] in a fresh process. *)
Definition lifespan (built : outcome pipeline) : option pipeline :=
  fst (load_model None built).

(** [health]: the value of ["model_loaded"]. *)
Definition health (pipe : option pipeline) : bool :=
  match pipe with Some _ => true | None => false end.

(** [root]: the value of ["status"]. *)
Definition root (pipe : option pipeline) : string :=
  match pipe with Some _ => "running" | None => "model_not_loaded" end.

End Soprano.

(** ** Sample data *)

Module Samples.
Import Registry Detector Wake.

(** Three subscribers; the second one has gone away. *)
Definition three : gset conn := {[1%positive; 2%positive; 3%positive]}.

Definition second_gone : wire :=
  fun c => if Pos.eqb c 2 then Raised ConnectionClosed else Sent.

(** The second send fails with something the fan-out does not handle. *)
Definition second_breaks : wire :=
  fun c => if Pos.eqb c 2 then Raised RuntimeError else Sent.

Definition all_well : wire := fun _ => Sent.

(** While the first send is suspended the third client leaves and a fourth
    one registers; the iterator then goes on to the second and the
    fourth. *)
Definition swap : interference :=
  [Some (MkDisturbance {[1%positive; 2%positive; 4%positive]}
                       [2%positive; 4%positive])].

(** A fourth client registers while the first send is suspended. *)
Definition newcomer : interference :=
  [Some (MkDisturbance {[1%positive; 2%positive; 3%positive; 4%positive]}
                       [2%positive; 1%positive; 4%positive])].

(** Frames of one sample each (and one torn frame of a single byte). *)
Definition silence : bytes := [Byte.x00; Byte.x00].
Definition leo_frame : bytes := [Byte.x01; Byte.x00].
Definition virgo_frame : bytes := [Byte.x02; Byte.x00].
Definition both_frame : bytes := [Byte.x03; Byte.x00].
Definition bad_frame : bytes := [Byte.x04; Byte.x00].
Definition torn_frame : bytes := [Byte.x01].

Definition leo_and_virgo : prediction :=
  <["hey_leo" := 9 # 10]> {["hey_virgo" := 19 # 20]}.

(** A stand-in classifier that answers by the first sample. *)
Definition heard (samples : list Q) : outcome prediction :=
  match samples with
  | s :: _ =>
      if Qeq_bool s (1 # 32768) then Return {["hey_leo" := 9 # 10]}
      else if Qeq_bool s (2 # 32768) then Return {["hey_virgo" := 9 # 10]}
      else if Qeq_bool s (3 # 32768) then Return leo_and_virgo
      else if Qeq_bool s (4 # 32768) then Raise RuntimeError
      else Return {["hey_leo" := 1 # 5]}
  | [] => Return ∅
  end.

Definition toy_model : Model := MkModel heard.

Definition listening : service :=
  MkService three (Some toy_model) true true true.

Definition hears (frame : bytes) (now : Q) : tick :=
  MkTick (Return frame) now all_well [] [].

Definition overrun (now : Q) : tick :=
  MkTick (Raise OSError) now all_well [] [].

(** Leo, half a second of nothing, a failed read, then Virgo four seconds
    after Leo. *)
Definition leo_first : tick := hears leo_frame 1700000000.
Definition lull : list tick :=
  [hears silence (3400000001 # 2); overrun 1700000001].
Definition virgo_later : tick := hears virgo_frame 1700000004.
Definition leo_again : tick := hears leo_frame 1700000001.

(** The scenario of the specification: Leo at 0 s and 1 s, Virgo at 4 s. *)
Definition scenario : list tick := [leo_first; leo_again; virgo_later].

Definition nothing_heard : list tick :=
  [hears silence 1700000000; overrun 1700000001; hears bad_frame 1700000002].

(** A stand-in for [json.loads] that knows three texts. *)
Definition toy_loads (s : string) : outcome Hubert.json :=
  if String.eqb s "null" then Return Hubert.JNull
  else if String.eqb s "{}" then Return (Hubert.JObject [])
  else if String.eqb s "[]" then Return (Hubert.JArray [])
  else Raise JSONDecodeError.

Definition garbled : Hubert.inbound :=
  Hubert.MkInbound "{not json" Sent (Return false) (Return Hubert.JNull) false.

Definition empty_object : Hubert.inbound :=
  Hubert.MkInbound "{}" Sent (Return false) (Return Hubert.JNull) false.

End Samples.

(** ** More sample data *)

Module MoreSamples.
Import Registry Detector Wake.

(** Leo is heard, and [stop()] is called during the sleep that follows. *)
Definition last_call : tick :=
  MkTick (Return Samples.leo_frame) 1700000000 Samples.all_well [] [Stops].

(** Leo is heard while the second subscriber's send breaks. *)
Definition leo_breaks : tick :=
  MkTick (Return Samples.leo_frame) 1700000000 Samples.second_breaks [] [].

(** A service whose model loaded and whose capture device opened. *)
Definition started : service :=
  start_audio_listening (init true (Return Samples.toy_model)) (Return tt).

(** A stand-in for [json.loads] that knows a few requests by name. *)
Definition desk_loads (s : string) : outcome Hubert.json :=
  if String.eqb s "ping" then
    Return (Hubert.JObject [("type", Hubert.JString "ping")])
  else if String.eqb s "transcribe" then
    Return (Hubert.JObject [("type", Hubert.JString "transcribe");
                            ("audio_path", Hubert.JString "/tmp/lesson.wav")])
  else if String.eqb s "transcribe nothing" then
    Return (Hubert.JObject [("type", Hubert.JString "transcribe")])
  else if String.eqb s "untyped" then
    Return (Hubert.JObject [("audio_path", Hubert.JString "/tmp/lesson.wav")])
  else if String.eqb s "list" then Return (Hubert.JArray [Hubert.JNull])
  else Raise JSONDecodeError.

Definition said : Hubert.json :=
  Hubert.JObject [("success", Hubert.JBool true);
                  ("transcript", Hubert.JString "hello")].

Definition request (text : string) (link : send_result) : Hubert.inbound :=
  Hubert.MkInbound text link (Return true) (Return said) true.

(** Stand-ins for the models: tensors are lists of numbers. *)
Definition tensor : Type := list Q.

Definition answer : string :=
  (" Hello there " ++ String Speech.newline "How can I help? ")%string.

Definition toy_tokenizer : Speech.Tokenizer tensor :=
  Speech.MkTokenizer tensor
    (fun prompt => Return [inject_Z (Z.of_nat (String.length prompt))])
    (fun _ _ => Return answer).

Definition good_hub : Speech.hub tensor :=
  Speech.MkHub tensor (Return (fun audio => Return (take 3 audio)))
    (Return (fun inputs => Return inputs)) (Return tt) (Return tt)
    (Return toy_tokenizer) (Return (fun inputs => Return inputs)) (Return tt).

(** The language model cannot be fetched. *)
Definition bad_hub : Speech.hub tensor :=
  Speech.MkHub tensor (Return (fun audio => Return (take 3 audio)))
    (Return (fun inputs => Return inputs)) (Return tt) (Return tt)
    (Return toy_tokenizer) (Raise OSError) (Return tt).

(** Nothing can be fetched. *)
Definition no_hub : Speech.hub tensor :=
  Speech.MkHub tensor (Raise OSError) (Raise OSError) (Return tt) (Return tt)
    (Raise OSError) (Raise OSError) (Return tt).

Definition pool (features : tensor) : tensor := take 1 features.
Definition count (tokens : tensor) : nat := length tokens.
Definition shape (features : tensor) : list nat := [length features].

(** A pipeline that returns one-dimensional audio and names no rate, and an
    encoder that takes one channel at 22050 Hz only. *)
Definition mono_pipeline : Soprano.pipeline :=
  fun _ => Return (Soprano.MkResult (Some (Soprano.Array (Soprano.Dim1 [1 # 2]))) None).

Definition strict_save (a : Soprano.ndarray) (rate : Z) : outcome bytes :=
  match a with
  | Soprano.Dim2 [_] =>
      if (rate =? 22050)%Z then Return [Byte.x52] else Raise ValueError
  | _ => Raise ValueError
  end.

End MoreSamples.
(** * Properties *)

(** ** Fan-out *)

Section FanOutFacts.
Import Registry.

Variable handled : exn -> bool.
Variable w : wire.

Lemma send_each_contained cs disconnected :
  contained handled w cs ->
  send_each handled w cs disconnected =
    (map (fun c => Send c (w c)) cs, Return (failing w cs ∪ disconnected)).
Proof.
  unfold failing.
  revert disconnected.
  induction cs as [|c cs IH]; intros d Hc; simpl.
  - f_equal. f_equal. set_solver.
  - inversion Hc as [|? ? Hhead Htail]; subst.
    unfold delivered at 1.
    destruct (w c) as [|e] eqn:Hw.
    + rewrite (IH d Htail). rewrite filter_cons_False by (rewrite Hw; discriminate).
      reflexivity.
    + rewrite (Hhead e eq_refl), (IH _ Htail).
      rewrite filter_cons_True by (rewrite Hw; reflexivity).
      f_equal. f_equal. set_solver.
Qed.

Lemma failing_elements (clients : gset conn) :
  failing w (elements clients) = failed clients w.
Proof.
  unfold failing, failed. apply set_eq. intros c.
  rewrite elem_of_list_to_set, list_elem_of_filter, elem_of_filter, elem_of_elements.
  reflexivity.
Qed.

(** The loop over the clients, without any assumption on the failures:
    either it gets through, and [disconnected] has grown by the clients
    whose send failed, or it stops at the first failure that the [except]
    clause does not list. *)
Lemma send_each_cases (cs : list conn) :
  ∀ disconnected,
    match send_each handled w cs disconnected with
    | (tr, Return d) =>
        tr = map (fun c => Send c (w c)) cs ∧
        d = failing w cs ∪ disconnected ∧
        contained handled w cs
    | (tr, Raise e) =>
        handled e = false ∧
        ∃ tried c rest,
          cs = tried ++ c :: rest ∧ w c = Raised e ∧
          contained handled w tried ∧
          tr = map (fun c => Send c (w c)) tried ++ [Send c (Raised e)]
    end.
Proof.
  induction cs as [|c cs IH]; intros d; simpl.
  - split_and!; [done | unfold failing; set_solver | constructor].
  - destruct (w c) as [|e] eqn:Hw.
    + specialize (IH d). destruct (send_each handled w cs d) as [tr [d'|e']].
      * destruct IH as (-> & -> & Hc). split_and!; [done| |].
        -- unfold failing, delivered. rewrite filter_cons_False by (rewrite Hw; discriminate).
           done.
        -- constructor; [|done]. intros e He. congruence.
      * destruct IH as (Hh & tried & c' & rest & -> & Hc' & Hcont & ->).
        split; [done|]. exists (c :: tried), c', rest. split_and!; try done.
        -- constructor; [|done]. intros e He. congruence.
        -- simpl. by rewrite Hw.
    + destruct (handled e) eqn:Hh.
      * specialize (IH ({[c]} ∪ d)).
        destruct (send_each handled w cs ({[c]} ∪ d)) as [tr [d'|e']].
        -- destruct IH as (-> & -> & Hc). split_and!.
           ++ done.
           ++ unfold failing, delivered.
              rewrite filter_cons_True by (rewrite Hw; reflexivity).
              set_solver.
           ++ constructor; [|done]. intros e' He'. congruence.
        -- destruct IH as (Hh' & tried & c' & rest & -> & Hc' & Hcont & ->).
           split; [done|]. exists (c :: tried), c', rest. split_and!; try done.
           ++ constructor; [|done]. intros e'' He''. congruence.
           ++ simpl. by rewrite Hw.
      * split; [done|]. exists [], c, cs. split_and!; try done. constructor.
Qed.

(** While nothing touches the registry the iterator finds the size it
    expects and the loop is the undisturbed one. *)
Lemma send_each_among_quiet (jam : interference) :
  quiet jam →
  ∀ used live cs disconnected,
    size live = used →
    send_each_among handled w used live cs disconnected jam =
    send_each_among handled w used live cs disconnected [].
Proof.
  induction 1 as [|d later Hd _ IH]; intros used live cs disc Hsize; [done|].
  subst d. destruct cs as [|c rest]; [done|].
  simpl. destruct (w c) as [|e]; [|destruct (handled e); [|done]];
    rewrite decide_True by done; rewrite (IH used live rest _ Hsize); simpl.
  - destruct (send_each handled w rest disc) as [tr r]. reflexivity.
  - destruct (send_each handled w rest ({[c]} ∪ disc)) as [tr r]. reflexivity.
Qed.

Lemma fan_out_quiet (clients : gset conn) (jam : interference) :
  quiet jam → fan_out handled clients w jam = fan_out handled clients w [].
Proof.
  intros Hq. unfold fan_out. destruct (decide (clients = ∅)); [done|].
  by rewrite (send_each_among_quiet jam Hq).
Qed.

Lemma fan_out_contained (clients : gset conn) :
  contained handled w (elements clients) ->
  fan_out handled clients w [] =
    if decide (clients = ∅) then MkFanout [] clients None
    else MkFanout
           (map (fun c => Send c (w c)) (elements clients)
              ++ [Discard (failed clients w)])
           (clients ∖ failed clients w) None.
Proof.
  intros Hc. unfold fan_out. destruct (decide (clients = ∅)); [reflexivity|].
  simpl. rewrite (send_each_contained _ ∅ Hc), failing_elements.
  replace (failed clients w ∪ ∅) with (failed clients w) by set_solver.
  reflexivity.
Qed.

Lemma failed_empty : failed ∅ w = ∅.
Proof. unfold failed. set_solver. Qed.

Lemma fan_out_after (clients : gset conn) :
  clients_after (fan_out handled clients w []) = clients
  ∨ (raised (fan_out handled clients w []) = None ∧
     contained handled w (elements clients) ∧
     clients_after (fan_out handled clients w []) = clients ∖ failed clients w).
Proof.
  unfold fan_out. destruct (decide (clients = ∅)); [by left|]. simpl.
  pose proof (send_each_cases (elements clients) ∅) as H.
  destruct (send_each handled w (elements clients) ∅) as [tr [d|e]]; [|by left].
  destruct H as (_ & -> & Hc). right. simpl. split_and!; try done.
  rewrite failing_elements. f_equal. set_solver.
Qed.

Lemma fan_out_raised_at (clients : gset conn) (e : exn) :
  raised (fan_out handled clients w []) = Some e →
  handled e = false ∧
  clients_after (fan_out handled clients w []) = clients ∧
  ∃ tried c rest,
    elements clients = tried ++ c :: rest ∧ w c = Raised e ∧
    contained handled w tried ∧
    trace (fan_out handled clients w []) =
      map (fun c => Send c (w c)) tried ++ [Send c (Raised e)].
Proof.
  unfold fan_out. destruct (decide (clients = ∅)); [discriminate|]. simpl.
  pose proof (send_each_cases (elements clients) ∅) as H.
  destruct (send_each handled w (elements clients) ∅) as [tr [d|e']];
    [discriminate|].
  simpl. intros [= ->]. destruct H as (Hh & tried & c & rest & Hel & Hw & Hc & ->).
  split_and!; try done. by exists tried, c, rest.
Qed.

Lemma fan_out_raised (clients : gset conn) (e : exn) :
  raised (fan_out handled clients w []) = Some e →
  handled e = false ∧
  clients_after (fan_out handled clients w []) = clients ∧
  ∃ tried c rest,
    elements clients = tried ++ c :: rest ∧ w c = Raised e ∧
    trace (fan_out handled clients w []) =
      map (fun c => Send c (w c)) tried ++ [Send c (Raised e)].
Proof.
  intros Hr. destruct (fan_out_raised_at clients e Hr)
    as (Hh & Hafter & tried & c & rest & Hel & Hw & _ & Htr).
  split_and!; try done. by exists tried, c, rest.
Qed.

Lemma fan_out_completed (clients : gset conn) :
  raised (fan_out handled clients w []) = None →
  contained handled w (elements clients).
Proof.
  unfold fan_out. destruct (decide (clients = ∅)) as [->|_].
  - intros _. rewrite elements_empty. constructor.
  - simpl. pose proof (send_each_cases (elements clients) ∅) as H.
    destruct (send_each handled w (elements clients) ∅) as [tr [d|e]];
      [by destruct H as (_ & _ & ?) | discriminate].
Qed.

End FanOutFacts.

Section Isolation.
Import Registry.

Lemma attempted_sends (w : wire) (cs : list conn) :
  attempted (map (fun c => Send c (w c)) cs) = cs.
Proof. induction cs as [|c cs IH]; simpl; [reflexivity|]. unfold attempted in *. simpl. by rewrite IH. Qed.

Lemma attempted_app (xs ys : list io) :
  attempted (xs ++ ys) = attempted xs ++ attempted ys.
Proof. unfold attempted. apply omap_app. Qed.

Lemma reached_app (xs ys : list io) :
  reached (xs ++ ys) = reached xs ++ reached ys.
Proof. unfold reached. apply omap_app. Qed.

Lemma reached_sends (w : wire) (cs : list conn) (c : conn) :
  c ∈ reached (map (fun c => Send c (w c)) cs) ↔ c ∈ cs ∧ w c = Sent.
Proof.
  unfold reached. rewrite list_elem_of_omap. split.
  - intros (x & Hx & Hc). apply list_elem_of_fmap in Hx as (c' & -> & Hin).
    destruct (w c') eqn:Hw; [|discriminate]. by simplify_eq.
  - intros [Hin Hw]. exists (Send c (w c)). split.
    + apply list_elem_of_fmap. eauto.
    + by rewrite Hw.
Qed.

Lemma fan_out_tolerant handled (clients : gset conn) (w : wire) :
  contained handled w (elements clients) ->
  tolerant clients w (fan_out handled clients w []).
Proof.
  intros Hc. rewrite (fan_out_contained handled w clients Hc).
  assert (Hreach : ∀ tail c, reached tail = [] →
            c ∈ reached (map (fun c => Send c (w c)) (elements clients) ++ tail)
            ↔ c ∈ clients ∧ w c = Sent).
  { intros tail c Ht. rewrite reached_app, Ht, app_nil_r, reached_sends.
    by rewrite elem_of_elements. }
  unfold tolerant.
  destruct (decide (clients = ∅)) as [->|Hne]; simpl.
  - rewrite elements_empty, failed_empty. split_and!; try done; set_solver.
  - split_and!; try done.
    + by rewrite attempted_app, attempted_sends, app_nil_r.
    + intros a b _ Hb _ _ Hw. by apply (Hreach [Discard _]).
    + intros c. by apply (Hreach [Discard _]).
Qed.

(** A send that raises what the [except] clause does not list cuts the
    call short. *)
Lemma fan_out_cut_short handled (clients : gset conn) (w : wire) (c : conn) (e : exn) :
  c ∈ clients → w c = Raised e → handled e = false →
  cut_short handled clients w (fan_out handled clients w []).
Proof.
  intros Hin Hw Hh.
  destruct (raised (fan_out handled clients w [])) as [e'|] eqn:Hr.
  - destruct (fan_out_raised_at handled w clients e' Hr)
      as (Hh' & Hafter & tried & c' & rest & Hel & Hw' & Hc & Htr).
    exists tried, c', rest, e'. by split_and!.
  - exfalso. pose proof (fan_out_completed handled w clients Hr) as Hc.
    unfold contained in Hc. rewrite Forall_forall in Hc.
    specialize (Hc c (proj2 (elem_of_elements _ _) Hin) e Hw). congruence.
Qed.

End Isolation.

(** C2, as the code has it.  Take a [broadcast] or [broadcast_audio] call
    during which no other task touches the registry.  If every send that
    fails raises an exception the [except] clause lists ([ConnectionClosed];
    in [broadcast_audio] also [TypeError]), a send is attempted to every
    registered connection, exactly once; a failed send to one connection [a]
    does not keep another connection [b] from receiving the message in the
    same call; and the failed connections are removed from the registry
    together, in one step that follows the last send.  If some send raises
    an exception that is not listed, the call ends at the first such send
    with that exception: the connections before it were tried, those after
    it are not, and nothing is removed. *)
Theorem broadcast_isolates_handled_failures
    (clients : gset conn) (w : wire) (jam : Registry.interference) :
  Registry.quiet jam →
  ((∀ c e, c ∈ clients → w c = Raised e → e = ConnectionClosed) →
   Registry.tolerant clients w (Registry.broadcast clients w jam)) ∧
  ((∃ c e, c ∈ clients ∧ w c = Raised e ∧ e ≠ ConnectionClosed) →
   Registry.cut_short Registry.broadcast_handles clients w
     (Registry.broadcast clients w jam)) ∧
  ((∀ c e, c ∈ clients → w c = Raised e → e = ConnectionClosed ∨ e = TypeError) →
   Registry.tolerant clients w (Registry.broadcast_audio clients w jam)) ∧
  ((∃ c e, c ∈ clients ∧ w c = Raised e ∧ e ≠ ConnectionClosed ∧ e ≠ TypeError) →
   Registry.cut_short Registry.broadcast_audio_handles clients w
     (Registry.broadcast_audio clients w jam)).
Proof.
  intros Hq. unfold Registry.broadcast, Registry.broadcast_audio.
  rewrite !(fan_out_quiet _ w clients jam Hq). split_and!.
  - intros H. apply fan_out_tolerant, Forall_forall.
    intros c Hin e He. apply elem_of_elements in Hin. by rewrite (H c e Hin He).
  - intros (c & e & Hin & Hw & Hne). apply (fan_out_cut_short _ _ _ c e); try done.
    by destruct e.
  - intros H. apply fan_out_tolerant, Forall_forall.
    intros c Hin e He. apply elem_of_elements in Hin.
    by destruct (H c e Hin He) as [-> | ->].
  - intros (c & e & Hin & Hw & Hne & Hne'). apply (fan_out_cut_short _ _ _ c e); try done.
    by destruct e.
Qed.

Lemma broadcast_isolates_handled_failures_witness :
  Registry.tolerant Samples.three Samples.second_gone
    (Registry.broadcast Samples.three Samples.second_gone [None; None]) ∧
  Registry.cut_short Registry.broadcast_handles Samples.three Samples.second_breaks
    (Registry.broadcast Samples.three Samples.second_breaks [None; None]) ∧
  Registry.tolerant Samples.three Samples.second_gone
    (Registry.broadcast_audio Samples.three Samples.second_gone [None; None]) ∧
  Registry.cut_short Registry.broadcast_audio_handles Samples.three
    Samples.second_breaks
    (Registry.broadcast_audio Samples.three Samples.second_breaks [None; None]).
Proof.
  assert (Hq : Registry.quiet [None; None]) by (repeat constructor).
  assert (Hin : 2%positive ∈ Samples.three)
    by (apply (bool_decide_unpack _); vm_compute; exact I).
  destruct (broadcast_isolates_handled_failures Samples.three Samples.second_gone
              [None; None] Hq) as (Htext & _ & Haudio & _).
  destruct (broadcast_isolates_handled_failures Samples.three Samples.second_breaks
              [None; None] Hq) as (_ & Hcut & _ & Hcut').
  split_and!.
  - apply Htext. intros c e _. unfold Samples.second_gone.
    destruct (Pos.eqb c 2); intros [=]; subst; auto.
  - apply Hcut. exists 2%positive, RuntimeError. by split_and!.
  - apply Haudio. intros c e _. unfold Samples.second_gone.
    destruct (Pos.eqb c 2); intros [=]; subst; auto.
  - apply Hcut'. exists 2%positive, RuntimeError. by split_and!.
Defined.

(** C2 as stated fails in two ways.  A send that raises something
    other than [ConnectionClosed] ends [broadcast] at once: the first
    subscriber is never tried.  And when a fourth client registers while the
    first send is suspended, the [for] raises [RuntimeError]: the other two
    subscribers are never tried. *)
Lemma broadcast_can_leave_connections_untried :
  (Registry.broadcast Samples.three Samples.second_breaks [] =
     Registry.MkFanout
       [Registry.Send 3%positive Sent;
        Registry.Send 2%positive (Raised RuntimeError)]
       Samples.three (Some RuntimeError) ∧
   ¬ Registry.tolerant Samples.three Samples.second_breaks
       (Registry.broadcast Samples.three Samples.second_breaks [])) ∧
  (Registry.broadcast Samples.three Samples.all_well Samples.newcomer =
     Registry.MkFanout [Registry.Send 3%positive Sent]
       {[1%positive; 2%positive; 3%positive; 4%positive]} (Some RuntimeError) ∧
   ¬ Registry.tolerant Samples.three Samples.all_well
       (Registry.broadcast Samples.three Samples.all_well Samples.newcomer)).
Proof.
  split; (split; [vm_compute; reflexivity|]); intros [Hr _]; revert Hr;
    vm_compute; discriminate.
Qed.

Example broadcast_second_gone :
  Registry.broadcast Samples.three Samples.second_gone [] =
    Registry.MkFanout
      [Registry.Send 3%positive Sent;
       Registry.Send 2%positive (Raised ConnectionClosed);
       Registry.Send 1%positive Sent; Registry.Discard {[2%positive]}]
      {[1%positive; 3%positive]} None.
Proof. vm_compute. reflexivity. Qed.

(** An exception that [broadcast] does not list leaves the call at once: the
    connections still to come (here the first) are not tried and nothing is
    removed. *)
Example broadcast_second_breaks :
  Registry.broadcast Samples.three Samples.second_breaks [] =
    Registry.MkFanout
      [Registry.Send 3%positive Sent;
       Registry.Send 2%positive (Raised RuntimeError)]
      Samples.three (Some RuntimeError).
Proof. vm_compute. reflexivity. Qed.

(** ** The detector step *)

Section DetectorFacts.
Import Detector.

Lemma above_threshold_true (score : Q) :
  above_threshold score = true ↔ threshold < score.
Proof.
  unfold above_threshold. destruct (Qlt_le_dec threshold score) as [Hlt|Hle].
  - tauto.
  - split; [discriminate|]. intros Hlt. exfalso. exact (Qlt_not_le _ _ Hlt Hle).
Qed.

Lemma above_threshold_false (score : Q) :
  above_threshold score = false ↔ ¬ threshold < score.
Proof.
  rewrite <- above_threshold_true. destruct (above_threshold score); split; congruence.
Qed.

Lemma wake_phrase_lookup (k : nat) :
  WAKE_PHRASES !! k = (fun persona => ("Hey " ++ persona)%string) <$> PERSONAS !! k.
Proof. unfold WAKE_PHRASES. apply list_lookup_fmap. Qed.

(** What the scan over the phrases returns, phrase by phrase. *)
Lemma scan_spec (p : prediction) (phrases : list string) :
  ∀ i,
    match scan p i phrases with
    | Return None =>
        ∀ k phrase, phrases !! k = Some phrase →
                    above_threshold (get p (output_key phrase)) = false
    | Return (Some persona) =>
        ∃ k phrase,
          phrases !! k = Some phrase ∧
          above_threshold (get p (output_key phrase)) = true ∧
          PERSONAS !! (i + k)%nat = Some persona ∧
          ∀ j earlier, (j < k)%nat → phrases !! j = Some earlier →
                       above_threshold (get p (output_key earlier)) = false
    | Raise _ =>
        ∃ k, is_Some (phrases !! k) ∧ PERSONAS !! (i + k)%nat = None
    end.
Proof.
  induction phrases as [|phrase rest IH]; intros i; simpl.
  - intros k ph Hk. by rewrite lookup_nil in Hk.
  - destruct (above_threshold (get p (output_key phrase))) eqn:Habove.
    + destruct (PERSONAS !! i) as [persona|] eqn:Hi.
      * exists 0%nat, phrase. rewrite Nat.add_0_r. split_and!; try done.
        intros j earlier Hj. lia.
      * exists 0%nat. rewrite Nat.add_0_r. split; [by eexists | done].
    + specialize (IH (S i)). destruct (scan p (S i) rest) as [[persona|]|e].
      * destruct IH as (k & ph & Hk & Hab & Hp & Hearlier).
        exists (S k), ph. split_and!; try done.
        -- by replace (i + S k)%nat with (S i + k)%nat by lia.
        -- intros [|j] earlier Hj Hl; simpl in Hl; [by simplify_eq|].
           apply (Hearlier j); [lia | done].
      * intros [|k] ph Hk; simpl in Hk; [by simplify_eq | by apply (IH k)].
      * destruct IH as (k & Hk & Hp). exists (S k). split; [done|].
        by replace (i + S k)%nat with (S i + k)%nat by lia.
Qed.

(** Over the twelve wake phrases the scan returns normally, and it returns
    the first persona (in the order of [PERSONAS]) whose output scores
    above the threshold. *)
Lemma scan_wake_phrases (p : prediction) :
  (scan p 0 WAKE_PHRASES = Return None ∧
     ∀ persona, persona ∈ PERSONAS → ¬ matches p persona)
  ∨ (∃ k persona,
       scan p 0 WAKE_PHRASES = Return (Some persona) ∧
       PERSONAS !! k = Some persona ∧ matches p persona ∧
       ∀ j earlier, (j < k)%nat → PERSONAS !! j = Some earlier →
                    ¬ matches p earlier).
Proof.
  pose proof (scan_spec p WAKE_PHRASES 0) as H.
  destruct (scan p 0 WAKE_PHRASES) as [[persona|]|e].
  - right. destruct H as (k & phrase & Hk & Hab & Hp & Hearlier).
    simpl in Hp. rewrite wake_phrase_lookup, Hp in Hk. simpl in Hk.
    injection Hk as <-. exists k, persona. split_and!; try done.
    + by apply above_threshold_true.
    + intros j earlier Hj Hl. apply above_threshold_false.
      apply (Hearlier j); [done|]. by rewrite wake_phrase_lookup, Hl.
  - left. split; [done|]. intros persona Hin.
    apply list_elem_of_lookup in Hin as [k Hk].
    apply above_threshold_false, (H k). by rewrite wake_phrase_lookup, Hk.
  - exfalso. destruct H as (k & [phrase Hk] & Hp). simpl in Hp.
    rewrite wake_phrase_lookup, Hp in Hk. discriminate.
Qed.

(** When the detector reports a mapping, the detection step is the scan of
    that mapping. *)
Lemma detect_reported model oww audio_data (p : prediction) :
  reported model oww audio_data = Some p →
  ∃ m, model = Some m ∧ oww = true ∧ classify m audio_data = scan p 0 WAKE_PHRASES.
Proof.
  unfold reported. destruct model as [m|]; [|discriminate].
  destruct oww; [|discriminate].
  destruct (frombuffer audio_data) as [samples|] eqn:Hbuf; [|discriminate].
  destruct (predict m (normalise samples)) eqn:Hp; [|discriminate].
  intros [= ->]. exists m. unfold classify. by rewrite Hbuf, Hp.
Qed.

Lemma detect_some model oww audio_data persona :
  fst (detect_wake_word model oww audio_data) = Some persona →
  ∃ p, reported model oww audio_data = Some p ∧
       scan p 0 WAKE_PHRASES = Return (Some persona).
Proof.
  unfold detect_wake_word, reported, classify.
  destruct model as [m|]; [|discriminate].
  destruct oww; [|discriminate].
  destruct (frombuffer audio_data) as [samples|]; [|discriminate].
  destruct (predict m (normalise samples)) as [p|]; [|discriminate].
  destruct (scan p 0 WAKE_PHRASES) as [r|] eqn:Hs; simpl; [|discriminate].
  intros ->. by exists p.
Qed.

Lemma detect_first_match model oww audio_data (p : prediction) :
  reported model oww audio_data = Some p →
  (∃ persona, persona ∈ PERSONAS ∧ matches p persona) →
  ∃ k persona,
    fst (detect_wake_word model oww audio_data) = Some persona ∧
    PERSONAS !! k = Some persona ∧
    matches p persona ∧
    ∀ j earlier, (j < k)%nat → PERSONAS !! j = Some earlier →
                 ¬ matches p earlier.
Proof.
  intros Hrep (q & Hq & Hmatch).
  destruct (detect_reported _ _ _ _ Hrep) as (m & -> & -> & Hcl).
  destruct (scan_wake_phrases p)
    as [[_ Hnone] | (k & persona & Hs & Hk & Hm & Hfirst)].
  - exfalso. by apply (Hnone q).
  - exists k, persona. split_and!; try done.
    unfold detect_wake_word. by rewrite Hcl, Hs.
Qed.

End DetectorFacts.

(** C4.  When the mapping the detector reports for a frame matches one or
    several labels, the detection step returns one label: the matching
    persona that comes first in the order of [PERSONAS] (Aries to Pisces). *)
Theorem detect_selects_first_in_persona_order
    model oww audio_data (p : Detector.prediction) :
  Detector.reported model oww audio_data = Some p →
  (∃ persona, persona ∈ Detector.PERSONAS ∧ Detector.matches p persona) →
  ∃ k persona,
    fst (Detector.detect_wake_word model oww audio_data) = Some persona ∧
    Detector.PERSONAS !! k = Some persona ∧
    Detector.matches p persona ∧
    ∀ j earlier, (j < k)%nat → Detector.PERSONAS !! j = Some earlier →
                 ¬ Detector.matches p earlier.
Proof. apply detect_first_match. Qed.

Lemma wake_phrase_labels :
  map (λ persona, (persona, Detector.output_key ("Hey " ++ persona)%string))
      Detector.PERSONAS = Detector.LABELS.
Proof. vm_compute. reflexivity. Qed.

Lemma get_above (p : Detector.prediction) (key : string) :
  Detector.threshold < Detector.get p key
  ↔ ∃ score, p !! key = Some score ∧ Detector.threshold < score.
Proof.
  unfold Detector.get. destruct (p !! key) as [score|]; simpl.
  - split; [eauto|]. by intros (? & [= <-] & ?).
  - split; [|by intros (? & [=] & _)]. unfold Detector.threshold. intros H.
    exfalso. revert H. apply Qle_not_lt. discriminate.
Qed.

(** C5.  The detection step returns a persona for a frame exactly when the
    detector reports a mapping for that frame which assigns some label a
    confidence strictly above 0.5.  The labels are those of the twelve
    personas, hey_aries, hey_taurus, ..., hey_pisces (the wake phrase in
    lower case, with an underscore for the space); the right-hand side reads
    the mapping itself, not the code's lookup. *)
Theorem detect_positive_iff_above_threshold model oww audio_data :
  (∃ persona, fst (Detector.detect_wake_word model oww audio_data) = Some persona)
  ↔ (∃ p persona label score,
       Detector.reported model oww audio_data = Some p ∧
       (persona, label) ∈ Detector.LABELS ∧
       p !! label = Some score ∧
       (1 # 2) < score).
Proof.
  rewrite <- wake_phrase_labels. split.
  - intros [persona Hd]. destruct (detect_some _ _ _ _ Hd) as (p & Hrep & Hs).
    destruct (scan_wake_phrases p) as [[Hn _] | (k & q & Hs' & Hk & Hm & _)].
    + congruence.
    + apply get_above in Hm as (score & Hscore & Habove).
      exists p, q, (Detector.output_key ("Hey " ++ q)%string), score.
      split_and!; try done. apply list_elem_of_fmap. exists q. split; [done|].
      apply list_elem_of_lookup. eauto.
  - intros (p & persona & label & score & Hrep & Hin & Hscore & Habove).
    apply list_elem_of_fmap in Hin as (q & [= -> ->] & Hq).
    destruct (detect_first_match model oww audio_data p Hrep)
      as (k & found & Hd & _); [|eauto].
    exists q. split; [done|]. apply get_above. eauto.
Qed.

(** On a frame for which the toy classifier scores hey_virgo at 0.9 the
    detection step returns a persona; on one for which it scores hey_leo at
    0.2 and nothing else, it returns none. *)
Lemma detect_positive_iff_above_threshold_witness :
  (∃ persona,
     fst (Detector.detect_wake_word (Some Samples.toy_model) true
            Samples.virgo_frame) = Some persona) ∧
  ¬ (∃ persona,
       fst (Detector.detect_wake_word (Some Samples.toy_model) true
              Samples.silence) = Some persona).
Proof.
  split.
  - apply (proj2 (detect_positive_iff_above_threshold
                    (Some Samples.toy_model) true Samples.virgo_frame)).
    exists {["hey_virgo" := 9 # 10]}, "Virgo", "hey_virgo", (9 # 10).
    split_and!.
    + vm_compute. reflexivity.
    + apply list_elem_of_In. vm_compute. tauto.
    + vm_compute. reflexivity.
    + vm_compute. reflexivity.
  - intros Hsome.
    apply (proj1 (detect_positive_iff_above_threshold
                    (Some Samples.toy_model) true Samples.silence)) in Hsome
      as (p & persona & label & score & Hrep & _ & Hscore & Habove).
    assert (Hp : Detector.reported (Some Samples.toy_model) true Samples.silence
                 = Some {["hey_leo" := 1 # 5]}) by (vm_compute; reflexivity).
    rewrite Hp in Hrep. injection Hrep as <-.
    apply lookup_singleton_Some in Hscore as [_ <-].
    revert Habove. vm_compute. discriminate.
Defined.

(** ** The capture-and-detect loop *)

Section LoopFacts.
Import Registry Detector Wake.

Lemma triggers_app (xs ys : list effect) :
  triggers (xs ++ ys) = triggers xs ++ triggers ys.
Proof. unfold triggers. apply omap_app. Qed.

Lemma triggers_prints (ls : list log_line) : triggers (map Print ls) = [].
Proof. induction ls as [|l ls IH]; [reflexivity | exact IH]. Qed.

Lemma triggers_detect (s : service) (audio_data : bytes) (ls : list log_line) :
  triggers ((if decide (clients s = ∅) then [] else [SpawnForward audio_data])
              ++ map Print ls) = [].
Proof.
  rewrite triggers_app, triggers_prints. by destruct (decide (clients s = ∅)).
Qed.

Lemma cooled_down_true (now last : Q) :
  cooled_down now last = true ↔ cooldown < now - last.
Proof.
  unfold cooled_down. destruct (Qlt_le_dec cooldown (now - last)) as [Hlt|Hle].
  - tauto.
  - split; [discriminate|]. intros Hlt. exfalso. exact (Qlt_not_le _ _ Hlt Hle).
Qed.

Lemma cooled_down_false (now last : Q) :
  cooled_down now last = false ↔ now - last <= cooldown.
Proof.
  unfold cooled_down. destruct (Qlt_le_dec cooldown (now - last)) as [Hlt|Hle].
  - split; [discriminate|]. intros Hle. exfalso. exact (Qlt_not_le _ _ Hlt Hle).
  - tauto.
Qed.

(** *** One pass through the body *)

Lemma same_detector_refl s : same_detector s s.
Proof. by unfold same_detector. Qed.

Lemma same_detector_trans s1 s2 s3 :
  same_detector s1 s2 → same_detector s2 s3 → same_detector s1 s3.
Proof. unfold same_detector. intros (-> & -> & ->) (-> & -> & ->). done. Qed.

Lemma detected_same s s' t :
  same_detector s s' → detected s' t = detected s t.
Proof. unfold same_detector, detected. by intros (-> & -> & ->). Qed.

(** The body changes nothing but the registry. *)
Lemma loop_body_service s last t :
  same_detector s (final (loop_body s last t)) ∧
  running (final (loop_body s last t)) = running s.
Proof.
  unfold loop_body, final, same_detector.
  destruct (stream s) eqn:Hs; [|by simpl].
  destruct (read t) as [audio_data|e]; [|by simpl].
  destruct (detect_wake_word _ _ _) as [[p|] printed]; [|by simpl].
  destruct (truthy p); [|by simpl].
  destruct (cooled_down _ _); [|by simpl].
  by destruct (raised _).
Qed.

(** Without a positive detection the body broadcasts no trigger and leaves
    the timestamp alone. *)
Lemma loop_body_quiet s last t :
  detected s t = None →
  triggers (effects (loop_body s last t)) = [] ∧
  last_trigger (loop_body s last t) = last.
Proof.
  unfold detected, loop_body, effects, last_trigger.
  destruct (stream s); [|done]. destruct (read t) as [audio_data|e]; [|done].
  destruct (detect_wake_word _ _ _) as [[p|] printed]; simpl.
  - destruct (truthy p); [discriminate|]. intros _. simpl.
    rewrite triggers_app, triggers_detect. done.
  - intros _. rewrite triggers_app, triggers_detect. done.
Qed.

(** With a positive detection the body broadcasts exactly when the
    cooldown has passed, and only then moves the timestamp. *)
Lemma loop_body_detected s last t p :
  detected s t = Some p →
  if cooled_down (clock t) last then
    triggers (effects (loop_body s last t)) = [(clock t, p)] ∧
    last_trigger (loop_body s last t) = clock t
  else
    triggers (effects (loop_body s last t)) = [] ∧
    last_trigger (loop_body s last t) = last.
Proof.
  unfold detected, loop_body, effects, last_trigger.
  destruct (stream s); [|discriminate].
  destruct (read t) as [audio_data|e]; [|discriminate].
  destruct (detect_wake_word _ _ _) as [[q|] printed]; simpl; [|discriminate].
  destruct (truthy q); [|discriminate]. intros [= ->].
  destruct (cooled_down (clock t) last); simpl.
  - destruct (raised _); simpl; rewrite triggers_app, triggers_detect; done.
  - rewrite triggers_app, triggers_detect. done.
Qed.

(** *** Other tasks *)

Lemma interleave_same s ev : same_detector s (interleave s ev).
Proof.
  destruct ev as [c|c|w j|]; simpl; try done.
  by destruct (register_client_exit _ _).
Qed.

Lemma interleaved_same evs : ∀ s, same_detector s (foldl interleave s evs).
Proof.
  induction evs as [|ev evs IH]; intros s; simpl; [apply same_detector_refl|].
  eapply same_detector_trans; [apply interleave_same | apply IH].
Qed.

Lemma interleaved_running evs :
  ∀ s, Stops ∉ evs → running (foldl interleave s evs) = running s.
Proof.
  induction evs as [|ev evs IH]; intros s Hno; simpl; [done|].
  rewrite IH by set_solver.
  destruct ev as [c|c|w j|]; simpl; try done.
  - by destruct (register_client_exit _ _).
  - set_solver.
Qed.

(** *** One iteration *)

Lemma iteration_eq s last t :
  iteration s last t =
    (foldl interleave (final (loop_body s last t)) (meanwhile t),
     last_trigger (loop_body s last t), effects (loop_body s last t)).
Proof. unfold iteration. by destruct (loop_body s last t) as [[s' last'] eff]. Qed.

Lemma iteration_same s last t : same_detector s (final (iteration s last t)).
Proof.
  rewrite iteration_eq. unfold final at 1. simpl.
  eapply same_detector_trans; [apply loop_body_service | apply interleaved_same].
Qed.

(** *** The whole loop *)

Lemma while_running_cons s last t rest :
  running s = true →
  while_running s last (t :: rest) =
    let r := iteration s last t in
    let r' := while_running (final r) (last_trigger r) rest in
    (final r', last_trigger r', effects r ++ effects r').
Proof.
  intros Hrun. simpl. rewrite Hrun.
  destruct (iteration s last t) as [[s' last'] eff]. simpl.
  unfold final, last_trigger, effects. simpl.
  by destruct (while_running s' last' rest) as [[s'' last''] eff'].
Qed.

Lemma while_running_cons_effects s last t rest :
  running s = true →
  effects (while_running s last (t :: rest)) =
    effects (iteration s last t)
      ++ effects (while_running (final (iteration s last t))
                    (last_trigger (iteration s last t)) rest).
Proof. intros Hrun. by rewrite while_running_cons. Qed.

Lemma while_running_cons_last s last t rest :
  running s = true →
  last_trigger (while_running s last (t :: rest)) =
    last_trigger (while_running (final (iteration s last t))
                    (last_trigger (iteration s last t)) rest).
Proof. intros Hrun. by rewrite while_running_cons. Qed.

Lemma while_running_cons_final s last t rest :
  running s = true →
  final (while_running s last (t :: rest)) =
    final (while_running (final (iteration s last t))
             (last_trigger (iteration s last t)) rest).
Proof. intros Hrun. by rewrite while_running_cons. Qed.

Lemma while_running_stopped s last ticks :
  running s = false → while_running s last ticks = (s, last, []).
Proof. intros Hrun. destruct ticks; simpl; [done | by rewrite Hrun]. Qed.

Lemma while_running_app s last xs ys :
  while_running s last (xs ++ ys) =
    let r := while_running s last xs in
    let r' := while_running (final r) (last_trigger r) ys in
    (final r', last_trigger r', effects r ++ effects r').
Proof.
  revert s last. induction xs as [|t xs IH]; intros s last.
  - unfold final, last_trigger, effects. simpl.
    by destruct (while_running s last ys) as [[s' last'] eff].
  - destruct (running s) eqn:Hrun.
    + rewrite <- app_comm_cons, !while_running_cons by done. cbv zeta.
      rewrite IH. cbv zeta. unfold final, last_trigger, effects. simpl.
      by rewrite app_assoc.
    + rewrite !while_running_stopped by done. simpl.
      unfold final, last_trigger. simpl.
      by rewrite while_running_stopped by done.
Qed.

Lemma while_running_app_effects s last xs ys :
  effects (while_running s last (xs ++ ys)) =
    effects (while_running s last xs)
      ++ effects (while_running (final (while_running s last xs))
                    (last_trigger (while_running s last xs)) ys).
Proof. by rewrite while_running_app. Qed.

Lemma while_running_app_last s last xs ys :
  last_trigger (while_running s last (xs ++ ys)) =
    last_trigger (while_running (final (while_running s last xs))
                    (last_trigger (while_running s last xs)) ys).
Proof. by rewrite while_running_app. Qed.

Lemma while_running_app_final s last xs ys :
  final (while_running s last (xs ++ ys)) =
    final (while_running (final (while_running s last xs))
             (last_trigger (while_running s last xs)) ys).
Proof. by rewrite while_running_app. Qed.

Lemma audio_loop_while s ticks : audio_loop s ticks = while_running s 0 ticks.
Proof.
  unfold audio_loop. destruct (running s) eqn:Hrun; [done|].
  by rewrite while_running_stopped.
Qed.

Lemma while_running_same s last ticks :
  same_detector s (final (while_running s last ticks)).
Proof.
  revert s last. induction ticks as [|t rest IH]; intros s last.
  - apply same_detector_refl.
  - destruct (running s) eqn:Hrun.
    + rewrite while_running_cons by done. cbv zeta. unfold final at 1. simpl.
      eapply same_detector_trans; [apply iteration_same | apply IH].
    + rewrite while_running_stopped by done. apply same_detector_refl.
Qed.

(** Once stopped the loop stays stopped: if it is running at the end it was
    running all along. *)
Lemma while_running_alive s last ticks :
  running (final (while_running s last ticks)) = true → running s = true.
Proof.
  destruct (running s) eqn:Hrun; [done|].
  rewrite while_running_stopped by done. unfold final. simpl. congruence.
Qed.

Lemma while_running_alive_prefix s last xs ys :
  running (final (while_running s last (xs ++ ys))) = true →
  running (final (while_running s last xs)) = true.
Proof.
  rewrite while_running_app. cbv zeta. unfold final at 1. simpl.
  apply while_running_alive.
Qed.

End LoopFacts.

Section CooldownFacts.
Import Registry Detector Wake.

Lemma iteration_effects s last t :
  effects (iteration s last t) = effects (loop_body s last t).
Proof. by rewrite iteration_eq. Qed.

Lemma iteration_last_trigger s last t :
  last_trigger (iteration s last t) = last_trigger (loop_body s last t).
Proof. by rewrite iteration_eq. Qed.

Lemma while_running_one s last t :
  running s = true →
  effects (while_running s last [t]) = effects (loop_body s last t) ∧
  last_trigger (while_running s last [t]) = last_trigger (loop_body s last t).
Proof.
  intros Hrun. rewrite while_running_cons by done. cbv zeta.
  unfold effects at 1, last_trigger at 1. simpl.
  unfold effects at 2. simpl.
  by rewrite app_nil_r, iteration_effects, iteration_last_trigger.
Qed.

(** A stretch of iterations without a positive detection broadcasts no
    trigger and keeps the timestamp. *)
Lemma while_running_quiet s ticks :
  Forall (fun t => detected s t = None) ticks →
  ∀ s' last, same_detector s s' →
    triggers (effects (while_running s' last ticks)) = [] ∧
    last_trigger (while_running s' last ticks) = last.
Proof.
  induction 1 as [|t rest Ht _ IH]; intros s' last Hsame; [done|].
  destruct (running s') eqn:Hrun.
  - rewrite while_running_cons by done. cbv zeta.
    unfold effects at 1, last_trigger at 1. simpl.
    assert (Hq : detected s' t = None) by by rewrite (detected_same s s').
    destruct (loop_body_quiet s' last t Hq) as [Htr Hlast].
    assert (Hs : same_detector s (final (iteration s' last t))).
    { eapply same_detector_trans; [exact Hsame | apply iteration_same]. }
    destruct (IH _ (last_trigger (iteration s' last t)) Hs) as [Htr' Hlast'].
    rewrite triggers_app, iteration_effects, Htr, Htr', Hlast'.
    by rewrite iteration_last_trigger.
  - by rewrite while_running_stopped.
Qed.

(** A positive detection met while the loop runs is broadcast exactly when
    the cooldown has passed since the last accepted trigger. *)
Lemma while_running_detection s last t p :
  running s = true → detected s t = Some p →
  if cooled_down (clock t) last then
    triggers (effects (while_running s last [t])) = [(clock t, p)] ∧
    last_trigger (while_running s last [t]) = clock t
  else
    triggers (effects (while_running s last [t])) = [] ∧
    last_trigger (while_running s last [t]) = last.
Proof.
  intros Hrun Hd. destruct (while_running_one s last t Hrun) as [-> ->].
  by apply loop_body_detected.
Qed.

(** *** Spacing of the triggers *)

Lemma last_cons_any (x : Q) (xs : list Q) (d d' : Q) :
  List.last (x :: xs) d = List.last (x :: xs) d'.
Proof.
  revert x. induction xs as [|y xs IH]; intros x; [done|].
  change (List.last (y :: xs) d = List.last (y :: xs) d'). apply IH.
Qed.

Lemma last_cons_default (x : Q) (xs : list Q) (d : Q) :
  List.last (x :: xs) d = List.last xs x.
Proof.
  destruct xs as [|y xs]; [done|].
  change (List.last (y :: xs) d = List.last (y :: xs) x). apply last_cons_any.
Qed.

Lemma spaced_app since xs ys :
  spaced since xs → spaced (List.last xs since) ys → spaced since (xs ++ ys).
Proof.
  revert since. induction xs as [|x xs IH]; intros since; [done|].
  rewrite last_cons_default. simpl.
  intros [Hx Hxs] Hys. split; [done|]. by apply IH.
Qed.

Lemma last_app_default (xs ys : list Q) (since : Q) :
  List.last (xs ++ ys) since = List.last ys (List.last xs since).
Proof.
  revert since. induction xs as [|x xs IH]; intros since; [done|].
  rewrite <- app_comm_cons, !last_cons_default. apply IH.
Qed.

Lemma loop_body_spaced s last t :
  spaced last (times (effects (loop_body s last t))) ∧
  last_trigger (loop_body s last t) =
    List.last (times (effects (loop_body s last t))) last.
Proof.
  unfold times. destruct (detected s t) as [p|] eqn:Hd.
  - pose proof (loop_body_detected s last t p Hd) as H.
    destruct (cooled_down (clock t) last) eqn:Hc; destruct H as [-> ->]; simpl;
      [|done].
    split; [|done]. split; [|done]. by apply cooled_down_true.
  - by destruct (loop_body_quiet s last t Hd) as [-> ->].
Qed.

Lemma while_running_spaced ticks :
  ∀ s last,
    spaced last (times (effects (while_running s last ticks))) ∧
    last_trigger (while_running s last ticks) =
      List.last (times (effects (while_running s last ticks))) last.
Proof.
  induction ticks as [|t rest IH]; intros s last; [done|].
  destruct (running s) eqn:Hrun.
  - rewrite (while_running_cons_effects s last t rest Hrun).
    rewrite (while_running_cons_last s last t rest Hrun).
    destruct (loop_body_spaced s last t) as [Hsp Hlast].
    destruct (IH (final (iteration s last t))
                 (last_trigger (iteration s last t))) as [Hsp' Hlast'].
    unfold times in *.
    rewrite triggers_app, map_app, iteration_effects, last_app_default.
    rewrite iteration_last_trigger, Hlast in Hsp', Hlast'.
    rewrite iteration_last_trigger, Hlast.
    split; [by apply spaced_app | done].
  - by rewrite while_running_stopped.
Qed.

Lemma spaced_after since ts :
  spaced since ts → ∀ t, t ∈ ts → cooldown < t - since.
Proof.
  revert since. induction ts as [|u ts IH]; intros since; simpl.
  - intros _ t Ht. by apply not_elem_of_nil in Ht.
  - intros [Hu Hts] t Ht. apply elem_of_cons in Ht as [-> | Ht]; [done|].
    specialize (IH u Hts t Ht). unfold cooldown in *. lra.
Qed.

Lemma spaced_pairwise since ts :
  spaced since ts →
  ∀ i j ti tj, (i < j)%nat → ts !! i = Some ti → ts !! j = Some tj →
               cooldown < tj - ti.
Proof.
  revert since. induction ts as [|u ts IH]; intros since; simpl.
  - intros _ i j ti tj _ Hi. by rewrite lookup_nil in Hi.
  - intros [Hu Hts] i j ti tj Hij Hi Hj.
    destruct j as [|j]; [lia|]. simpl in Hj.
    destruct i as [|i]; simpl in Hi.
    + injection Hi as ->. apply (spaced_after ti ts Hts).
      apply list_elem_of_lookup. eauto.
    + apply (IH u Hts i j); [lia | done | done].
Qed.

End CooldownFacts.

Section TwoDetections.
Import Registry Detector Wake.

(** A detection that is accepted, a quiet stretch, a second detection: the
    second is broadcast exactly when it comes more than one cooldown after
    the first. *)
Lemma two_detections_from s s0 last0 d1 quiet d2 p1 p2 :
  same_detector s s0 →
  running (final (while_running s0 last0 ([d1] ++ quiet))) = true →
  detected s d1 = Some p1 → detected s d2 = Some p2 →
  Forall (fun t => detected s t = None) quiet →
  cooldown < clock d1 - last0 →
  let run := while_running s0 last0 ([d1] ++ quiet ++ [d2]) in
  if cooled_down (clock d2) (clock d1) then
    triggers (effects run) = [(clock d1, p1); (clock d2, p2)] ∧
    last_trigger run = clock d2
  else
    triggers (effects run) = [(clock d1, p1)] ∧ last_trigger run = clock d1.
Proof.
  intros Hsame Halive Hd1 Hd2 Hquiet Hfirst run. subst run.
  (* the first detection *)
  assert (Hrun0 : running s0 = true) by (eapply while_running_alive, while_running_alive_prefix, Halive).
  pose proof (while_running_detection s0 last0 d1 p1 Hrun0) as H1.
  rewrite (detected_same s s0 d1 Hsame) in H1. specialize (H1 Hd1).
  apply cooled_down_true in Hfirst. rewrite Hfirst in H1.
  destruct H1 as [Htr1 Hlast1].
  set (r1 := while_running s0 last0 [d1]) in *.
  assert (Hsame1 : same_detector s (final r1)).
  { eapply same_detector_trans; [exact Hsame | apply while_running_same]. }
  (* the quiet stretch *)
  rewrite while_running_app_final in Halive. fold r1 in Halive.
  destruct (while_running_quiet s quiet Hquiet (final r1) (last_trigger r1) Hsame1)
    as [Htr2 Hlast2].
  set (r2 := while_running (final r1) (last_trigger r1) quiet) in *.
  assert (Hsame2 : same_detector s (final r2)).
  { eapply same_detector_trans; [exact Hsame1 | apply while_running_same]. }
  (* the second detection *)
  pose proof (while_running_detection (final r2) (last_trigger r2) d2 p2 Halive)
    as H2.
  rewrite (detected_same s (final r2) d2 Hsame2) in H2. specialize (H2 Hd2).
  assert (Hlast : last_trigger r2 = clock d1) by congruence.
  rewrite !while_running_app_effects, !while_running_app_last, !triggers_app.
  fold r1. fold r2. rewrite Htr1, Htr2.
  replace (cooled_down (clock d2) (clock d1))
    with (cooled_down (clock d2) (last_trigger r2)) by (by rewrite Hlast).
  destruct (cooled_down (clock d2) (last_trigger r2));
    destruct H2 as [-> ->]; done.
Qed.

End TwoDetections.

(** C1.  Take a run of the loop in which a positive detection [d1] is
    accepted (more than 3.0 seconds after the last accepted trigger, so that
    it becomes the last accepted trigger), then no positive detection, then a
    positive detection [d2], the loop still running when [d2] arrives.  If
    [d2] comes less than 3.0 seconds after [d1], only [d1] is broadcast and
    the last-trigger timestamp stays at [d1]; if it comes more than 3.0
    seconds after, both are broadcast and the timestamp moves to [d2]. *)
Theorem cooldown_between_two_detections
    (s : Wake.service) (before quiet : list Wake.tick) (d1 d2 : Wake.tick)
    (p1 p2 : string) :
  Wake.running (Wake.final (Wake.audio_loop s (before ++ d1 :: quiet))) = true →
  Wake.detected s d1 = Some p1 →
  Wake.detected s d2 = Some p2 →
  Forall (fun t => Wake.detected s t = None) quiet →
  3 < Wake.clock d1 - Wake.last_trigger (Wake.audio_loop s before) →
  let earlier := Wake.triggers (Wake.effects (Wake.audio_loop s before)) in
  let run := Wake.audio_loop s (before ++ d1 :: quiet ++ [d2]) in
  (Wake.clock d2 - Wake.clock d1 < 3 →
     Wake.triggers (Wake.effects run) = earlier ++ [(Wake.clock d1, p1)] ∧
     Wake.last_trigger run = Wake.clock d1) ∧
  (3 < Wake.clock d2 - Wake.clock d1 →
     Wake.triggers (Wake.effects run) =
       earlier ++ [(Wake.clock d1, p1); (Wake.clock d2, p2)] ∧
     Wake.last_trigger run = Wake.clock d2).
Proof.
  intros Halive Hd1 Hd2 Hquiet Hfirst earlier run. subst earlier run.
  rewrite !audio_loop_while in *.
  change (d1 :: quiet ++ [d2]) with ([d1] ++ quiet ++ [d2]).
  change (d1 :: quiet) with ([d1] ++ quiet) in Halive.
  rewrite while_running_app_final in Halive.
  rewrite while_running_app_effects, while_running_app_last, triggers_app.
  pose proof (two_detections_from s _ _ d1 quiet d2 p1 p2
                (while_running_same s 0 before) Halive Hd1 Hd2 Hquiet Hfirst) as H.
  cbv zeta in H.
  destruct (Wake.cooled_down (Wake.clock d2) (Wake.clock d1)) eqn:Hc;
    destruct H as [-> ->].
  - apply cooled_down_true in Hc. unfold Wake.cooldown in Hc. split; [|done].
    intros Hlt. exfalso. lra.
  - apply cooled_down_false in Hc. unfold Wake.cooldown in Hc. split; [done|].
    intros Hlt. exfalso. lra.
Qed.

(** C6.  If no iteration of a run meets a positive detection, the run
    broadcasts no trigger. *)
Theorem no_detection_no_trigger (s : Wake.service) (ticks : list Wake.tick) :
  Forall (fun t => Wake.detected s t = None) ticks →
  Wake.triggers (Wake.effects (Wake.audio_loop s ticks)) = [].
Proof.
  intros Hquiet. rewrite audio_loop_while.
  apply (while_running_quiet s ticks Hquiet s 0), same_detector_refl.
Qed.

(** C3.  In every run of the loop, any two trigger broadcasts are more than
    one cooldown (3.0 seconds) apart, whatever their labels: a trigger for
    one label keeps a trigger for any other label out of its window. *)
Theorem triggers_are_a_cooldown_apart
    (s : Wake.service) (ticks : list Wake.tick)
    (i j : nat) (ti tj : Q) (label_i label_j : string) :
  (i < j)%nat →
  Wake.triggers (Wake.effects (Wake.audio_loop s ticks)) !! i = Some (ti, label_i) →
  Wake.triggers (Wake.effects (Wake.audio_loop s ticks)) !! j = Some (tj, label_j) →
  3 < tj - ti.
Proof.
  intros Hij Hi Hj. rewrite audio_loop_while in Hi, Hj.
  destruct (while_running_spaced ticks s 0) as [Hsp _].
  apply (spaced_pairwise 0 _ Hsp i j ti tj Hij); unfold Wake.times;
    rewrite list_lookup_fmap; [by rewrite Hi | by rewrite Hj].
Qed.

Section ErrorFacts.
Import Registry Detector Wake.

Lemma detect_wake_word_raise m audio_data e :
  classify m audio_data = Raise e →
  detect_wake_word (Some m) true audio_data = (None, [DetectionError e]).
Proof. intros H. unfold detect_wake_word. by rewrite H. Qed.

Lemma no_model_no_detection s t :
  model s = None ∨ oww_available s = false → detected s t = None.
Proof.
  unfold detected, detect_wake_word. intros [-> | ->];
    destruct (stream s); try done; destruct (read t); try done.
  by destruct (model s).
Qed.

(** The body of an iteration whose frame cannot be read or classified. *)
Lemma loop_body_frame_error s last t e :
  frame_error s t = Some e →
  loop_body s last t =
    (s, last,
     match read t with
     | Raise _ => [Print (AudioLoopError e); Sleep (1 # 10)]
     | Return audio_data =>
         (if decide (clients s = ∅) then [] else [SpawnForward audio_data])
           ++ [Print (DetectionError e); Sleep (1 # 100)]
     end).
Proof.
  unfold frame_error, loop_body.
  destruct (stream s); [|discriminate].
  destruct (read t) as [audio_data|e']; [|by intros [= ->]].
  destruct (model s) as [m|]; [|discriminate].
  destruct (oww_available s); [|discriminate].
  destruct (classify m audio_data) as [|e'] eqn:Hc; [discriminate|].
  intros [= ->]. rewrite (detect_wake_word_raise m audio_data e Hc). simpl.
  by rewrite <- app_assoc.
Qed.

End ErrorFacts.

(** C9.  When reading the frame raises, or classifying it does, the
    iteration prints the error and sleeps (0.1 s after a read error, 0.01 s
    after a classification error); it changes neither the running flag nor
    the timestamp, and the loop goes on with the following iterations. *)
Theorem frame_error_does_not_end_the_loop
    (s : Wake.service) (last : Q) (t : Wake.tick) (rest : list Wake.tick)
    (e : exn) :
  Wake.running s = true →
  Wake.frame_error s t = Some e →
  let logged :=
    match Wake.read t with
    | Raise _ =>
        [Wake.Print (Detector.AudioLoopError e); Wake.Sleep (1 # 10)]
    | Return audio_data =>
        (if decide (Wake.clients s = ∅) then []
         else [Wake.SpawnForward audio_data])
          ++ [Wake.Print (Detector.DetectionError e); Wake.Sleep (1 # 100)]
    end in
  let resumed := foldl Wake.interleave s (Wake.meanwhile t) in
  Wake.loop_body s last t = (s, last, logged) ∧
  (Wake.Stops ∉ Wake.meanwhile t → Wake.running resumed = true) ∧
  Wake.while_running s last (t :: rest) =
    (Wake.final (Wake.while_running resumed last rest),
     Wake.last_trigger (Wake.while_running resumed last rest),
     logged ++ Wake.effects (Wake.while_running resumed last rest)).
Proof.
  intros Hrun Herr logged resumed. subst logged resumed.
  pose proof (loop_body_frame_error s last t e Herr) as Hbody.
  split_and!.
  - exact Hbody.
  - intros Hno. by rewrite interleaved_running.
  - rewrite while_running_cons by done. cbv zeta.
    rewrite iteration_eq, Hbody. reflexivity.
Qed.

(** C10.  The detection step never raises: without a model, or with the
    library marked unavailable, it returns [None]; when decoding the frame,
    running the model or picking the persona raises, it prints the error and
    returns [None].  A service whose model failed to load has no model, and a
    service without a model never broadcasts a trigger. *)
Theorem detection_is_total_and_silent_without_model :
  (∀ oww audio_data,
     Detector.detect_wake_word None oww audio_data = (None, [])) ∧
  (∀ model audio_data,
     Detector.detect_wake_word model false audio_data = (None, [])) ∧
  (∀ m audio_data e,
     Detector.classify m audio_data = Raise e →
     Detector.detect_wake_word (Some m) true audio_data =
       (None, [Detector.DetectionError e])) ∧
  (∀ imported loaded,
     imported = false ∨ (∃ e, loaded = Raise e) →
     Wake.model (Wake.init imported loaded) = None ∧
     Wake.oww_available (Wake.init imported loaded) = false) ∧
  (∀ s ticks,
     Wake.model s = None ∨ Wake.oww_available s = false →
     Wake.triggers (Wake.effects (Wake.audio_loop s ticks)) = []).
Proof.
  split_and!.
  - done.
  - by intros [m|] audio_data.
  - apply detect_wake_word_raise.
  - intros imported loaded [-> | [e ->]]; [done | by destruct imported].
  - intros s ticks Hno. rewrite audio_loop_while.
    apply (while_running_quiet s ticks); [|apply same_detector_refl].
    apply Forall_forall. intros t _. by apply no_model_no_detection.
Qed.

(** ** Sockets closing under the registry *)

Section CallFacts.
Import Registry.

Lemma advance_cases (live : gset conn) (k : call) (w : wire)
      (ahead : option (list conn)) :
  let c := client k in
  let did := sent k ++ [Send c (w c)] in
  let disconnected' :=
    if delivered w c then disconnected k else {[c]} ∪ disconnected k in
  (∃ e, w c = Raised e ∧ handles k e = false ∧
        advance live k w ahead =
          ([Send c (w c)], Ends (MkFanout did live (Some e))))
  ∨ ((∀ e, w c = Raised e → handles k e = true) ∧
     ((size live ≠ used k ∧
       advance live k w ahead =
         ([Send c (w c)], Ends (MkFanout did live (Some RuntimeError))))
      ∨ (size live = used k ∧ upcoming live (rest k) ahead = [] ∧
         advance live k w ahead =
           ([Send c (w c); Discard disconnected'],
            Ends (MkFanout (did ++ [Discard disconnected'])
                           (live ∖ disconnected') None)))
      ∨ (size live = used k ∧
         ∃ c' cs, upcoming live (rest k) ahead = c' :: cs ∧
           advance live k w ahead =
             ([Send c (w c)],
              Goes (MkCall (handles k) (used k) c' cs disconnected' did))))).
Proof.
  intros c did disconnected'. subst c did disconnected'.
  unfold advance, delivered.
  destruct (w (client k)) as [|e] eqn:Hw.
  - right. split; [discriminate|].
    destruct (decide (size live = used k)); [|by left].
    right. destruct (upcoming live (rest k) ahead) as [|c' cs] eqn:Hup.
    + by left.
    + right. split; [done|]. by exists c', cs.
  - destruct (handles k e) eqn:Hh.
    + right. split; [by intros e' [= <-]|].
      destruct (decide (size live = used k)); [|by left].
      right. destruct (upcoming live (rest k) ahead) as [|c' cs] eqn:Hup.
      * by left.
      * right. split; [done|]. by exists c', cs.
    + left. by exists e.
Qed.

Lemma upcoming_live (live : gset conn) (cs : list conn)
      (ahead : option (list conn)) (c : conn) :
  c ∈ upcoming live cs ahead → c ∈ live.
Proof.
  unfold upcoming, yields. destruct ahead as [l|]; simpl.
  - rewrite elem_of_remove_dups, list_elem_of_filter. tauto.
  - rewrite list_elem_of_filter. tauto.
Qed.

Lemma advance_attempted live k w ahead :
  attempted (fst (advance live k w ahead)) = [client k].
Proof.
  destruct (advance_cases live k w ahead)
    as [(e & _ & _ & ->)|[_ [[_ ->]|[(_ & _ & ->)|(_ & c' & cs & _ & ->)]]]];
    reflexivity.
Qed.

Lemma advance_goes live k w ahead did k' :
  advance live k w ahead = (did, Goes k') →
  client k' ∈ live ∧ (World.marked k → World.marked k').
Proof.
  destruct (advance_cases live k w ahead)
    as [(e & _ & _ & ->)|[Hh [[_ ->]|[(_ & _ & ->)|(_ & c' & cs & Hup & ->)]]]];
    try discriminate.
  intros [= _ <-]. simpl. split.
  - apply (upcoming_live live (rest k) ahead). rewrite Hup. left.
  - unfold World.marked. simpl. intros Hm c e.
    rewrite elem_of_app, list_elem_of_singleton.
    intros [Hin|[= -> Hw]].
    + specialize (Hm c e Hin). destruct (delivered w (client k)); set_solver.
    + unfold delivered. rewrite <- Hw. set_solver.
Qed.

Lemma advance_ends live k w ahead did r :
  advance live k w ahead = (did, Ends r) →
  clients_after r ⊆ live ∧
  (raised r ≠ None → clients_after r = live) ∧
  (World.marked k → raised r = None →
   ∀ c e, Send c (Raised e) ∈ trace r → c ∉ clients_after r).
Proof.
  destruct (advance_cases live k w ahead)
    as [(e & _ & _ & ->)|[Hh [[_ ->]|[(_ & _ & ->)|(_ & c' & cs & Hup & ->)]]]];
    try discriminate; intros [= _ <-]; simpl; split_and!;
    try done; try (intros; discriminate).
  - set_solver.
  - unfold World.marked. intros Hm _ c e.
    rewrite !elem_of_app, !list_elem_of_singleton.
    intros [[Hin|[= -> Hw]]|[=]].
    + specialize (Hm c e Hin). destruct (delivered w (client k)); set_solver.
    + unfold delivered. rewrite <- Hw. set_solver.
Qed.

End CallFacts.

Section WorldFacts.
Import Registry World.

Lemma step_observe w c : c ∉ registry (fst (step w (Observe c))).
Proof.
  simpl. unfold register_client_exit.
  destruct (decide (c ∈ registry w)); simpl; set_solver.
Qed.

Lemma begin_calls handled w :
  registry (begin handled w) = registry w ∧
  open (begin handled w) = open w ∧
  (calls (begin handled w) = calls w
   ∨ ∃ c cs, elements (registry w) = c :: cs ∧
       calls (begin handled w) =
         calls w ++ [MkCall handled (size (registry w)) c cs ∅ []]).
Proof.
  unfold begin, enter. destruct (elements (registry w)) as [|c cs] eqn:Hel; simpl.
  - by split_and!; [| |left].
  - split_and!; [done|done|]. right. by exists c, cs.
Qed.

Lemma step_marked w ev :
  Forall marked (calls w) → Forall marked (calls (fst (step w ev))).
Proof.
  intros Hm. destruct ev as [c|c|c| | |i wr ahead]; simpl; try done.
  - by destruct (register_client_exit (registry w) c).
  - destruct (begin_calls broadcast_handles w) as (_ & _ & [->|(c & cs & _ & ->)]);
      [done|]. apply Forall_app. split; [done|]. constructor; [|done].
    intros c' e. simpl. by intros ?%elem_of_nil.
  - destruct (begin_calls broadcast_audio_handles w)
      as (_ & _ & [->|(c & cs & _ & ->)]);
      [done|]. apply Forall_app. split; [done|]. constructor; [|done].
    intros c' e. simpl. by intros ?%elem_of_nil.
  - destruct (calls w !! i) as [k|] eqn:Hk; [|done].
    destruct (advance (registry w) k wr ahead) as [did [k'|r]] eqn:Hadv; simpl.
    + apply Forall_insert; [done|].
      apply (advance_goes _ _ _ _ _ _ Hadv).
      by apply (Forall_lookup_1 _ _ _ _ Hm Hk).
    + by apply Forall_delete.
Qed.

Lemma run_cons w ev evs :
  run w (ev :: evs) =
    (fst (run (fst (step w ev)) evs),
     snd (step w ev) ++ snd (run (fst (step w ev)) evs)).
Proof.
  simpl. destruct (step w ev) as [w' tr]. simpl.
  by destruct (run w' evs).
Qed.

Lemma run_marked evs :
  ∀ w, Forall marked (calls w) → Forall marked (calls (fst (run w evs))).
Proof.
  induction evs as [|ev evs IH]; intros w Hm; [done|].
  rewrite run_cons. simpl. by apply IH, step_marked.
Qed.

Lemma step_ends w ev r :
  Forall marked (calls w) → ends w ev = Some r →
  registry (fst (step w ev)) = clients_after r ∧
  (raised r ≠ None → clients_after r = registry w) ∧
  (raised r = None →
   ∀ c e, Send c (Raised e) ∈ trace r → c ∉ clients_after r).
Proof.
  intros Hm. destruct ev as [c|c|c| | |i wr ahead]; try discriminate. simpl.
  destruct (calls w !! i) as [k|] eqn:Hk; [|discriminate].
  destruct (advance (registry w) k wr ahead) as [did [k'|r']] eqn:Hadv;
    [discriminate|].
  intros [= ->]. simpl.
  destruct (advance_ends _ _ _ _ _ _ Hadv) as (_ & Hraised & Hdrop).
  split_and!; [done|done|].
  apply Hdrop. by apply (Forall_lookup_1 _ _ _ _ Hm Hk).
Qed.

Lemma step_absent w ev c :
  c ∉ registry w → idle c w → ev ≠ Accept c →
  (c ∉ registry (fst (step w ev))) ∧ idle c (fst (step w ev)) ∧
  (c ∉ attempted (snd (step w ev))).
Proof.
  unfold idle. intros Hc Hidle Hev.
  assert (Hnil : c ∉ attempted []) by (by intros ?%elem_of_nil).
  assert (Hbegin : ∀ handled,
             (c ∉ registry (begin handled w)) ∧
             Forall (λ k, client k ≠ c) (calls (begin handled w))).
  { intros handled.
    destruct (begin_calls handled w) as (-> & _ & [->|(c' & cs & Hel & ->)]);
      [done|]. split; [done|]. apply Forall_app. split; [done|].
    constructor; [|done]. simpl. intros ->. apply Hc, elem_of_elements.
    rewrite Hel. left. }
  destruct ev as [c'|c'|c'| | |i wr ahead]; simpl.
  - split_and!; [|done|done]. unfold register_client_enter.
    assert (c ≠ c') by congruence. set_solver.
  - by split_and!.
  - unfold register_client_exit.
    destruct (decide (c' ∈ registry w)); simpl; split_and!; try done.
    set_solver.
  - destruct (Hbegin broadcast_handles). by split_and!.
  - destruct (Hbegin broadcast_audio_handles). by split_and!.
  - destruct (calls w !! i) as [k|] eqn:Hk; [|by split_and!].
    pose proof (Forall_lookup_1 _ _ _ _ Hidle Hk) as Hkc. simpl in Hkc.
    pose proof (advance_attempted (registry w) k wr ahead) as Hatt.
    destruct (advance (registry w) k wr ahead) as [did [k'|r]] eqn:Hadv;
      simpl in *.
    + split_and!; [done| |].
      * apply Forall_insert; [done|].
        destruct (advance_goes _ _ _ _ _ _ Hadv) as [Hin _].
        intros <-. done.
      * rewrite Hatt. by intros ->%list_elem_of_singleton.
    + split_and!.
      * destruct (advance_ends _ _ _ _ _ _ Hadv) as (Hsub & _). set_solver.
      * by apply Forall_delete.
      * rewrite Hatt. by intros ->%list_elem_of_singleton.
Qed.

Lemma run_absent evs :
  ∀ w c, c ∉ registry w → idle c w → Accept c ∉ evs →
         (c ∉ registry (fst (run w evs))) ∧ idle c (fst (run w evs)) ∧
         (c ∉ attempted (snd (run w evs))).
Proof.
  induction evs as [|ev evs IH]; intros w c Hc Hidle Hno.
  - simpl. split_and!; [done|done|]. by intros ?%elem_of_nil.
  - rewrite run_cons. simpl.
    destruct (step_absent w ev c Hc Hidle) as (Hc' & Hidle' & Hatt').
    { intros ->. apply Hno. left. }
    destruct (IH (fst (step w ev)) c Hc' Hidle') as (Hc'' & Hidle'' & Hatt'').
    { intros Hin. apply Hno. by right. }
    split_and!; [done|done|]. rewrite attempted_app, elem_of_app. tauto.
Qed.

(** A fan-out that runs from its start to its end with nothing in between
    is the call of [Registry] without interference. *)
Lemma run_resume_none w i wr ahead n :
  calls w !! i = None →
  run w (replicate n (Resume i wr ahead)) = (w, []).
Proof.
  intros Hi. induction n as [|n IH]; [done|].
  simpl replicate. rewrite run_cons. simpl. rewrite Hi. simpl.
  by rewrite IH.
Qed.

Lemma filter_live (reg : gset conn) (cs : list conn) :
  Forall (λ c, c ∈ reg) cs → filter (λ c, c ∈ reg) cs = cs.
Proof.
  induction 1 as [|c cs Hc _ IH]; [done|].
  by rewrite filter_cons_True, IH.
Qed.

Lemma send_each_cons handled wr c cs d :
  send_each handled wr (c :: cs) d =
    match wr c with
    | Sent =>
        let '(tr, r) := send_each handled wr cs d in (Send c Sent :: tr, r)
    | Raised e =>
        if handled e then
          let '(tr, r) := send_each handled wr cs ({[c]} ∪ d) in
          (Send c (Raised e) :: tr, r)
        else ([Send c (Raised e)], Raise e)
    end.
Proof. reflexivity. Qed.

Lemma run_alone handled wr o (reg : gset conn) pre :
  ∀ cs c d did n,
    Forall (λ c, c ∈ reg) cs → (length cs < n)%nat →
    run (MkWorld o reg (pre ++ [MkCall handled (size reg) c cs d did]))
        (replicate n (Resume (length pre) wr None)) =
    match send_each handled wr (c :: cs) d with
    | (tr, Return d') => (MkWorld o (reg ∖ d') pre, tr ++ [Discard d'])
    | (tr, Raise e) => (MkWorld o reg pre, tr)
    end.
Proof.
  assert (Hdone : ∀ reg' m tr,
             (let '(w', tr') := run (MkWorld o reg' pre)
                                    (replicate m (Resume (length pre) wr None)) in
              (w', tr ++ tr')) = (MkWorld o reg' pre, tr)).
  { intros reg' m tr. rewrite run_resume_none.
    - by rewrite app_nil_r.
    - simpl. apply lookup_ge_None_2. lia. }
  induction cs as [|c' cs IH]; intros c d did n Hlive Hn;
    (destruct n as [|n]; [simpl in Hn; lia|]);
    simpl replicate; cbn [run step calls registry open];
    rewrite (list_lookup_middle pre [] _ (length pre) eq_refl);
    unfold advance; cbn [client sent handles used rest disconnected upcoming];
    rewrite ?decide_True by done.
  - cbn [filter list_filter]. rewrite send_each_cons. cbn [send_each].
    destruct (wr c) as [|e]; [|destruct (handled e)];
      rewrite ?decide_True by done; cbn [clients_after];
      rewrite (delete_middle pre []), app_nil_r; apply Hdone.
  - inversion Hlive as [|? ? Hc' Hcs]; subst.
    rewrite filter_cons_True by done. rewrite (filter_live _ _ Hcs).
    simpl in Hn. rewrite (send_each_cons handled wr c).
    destruct (wr c) as [|e]; [|destruct (handled e)];
      rewrite ?decide_True by done; cbn [clients_after].
    + rewrite (insert_app_r_alt pre _ (length pre)) by lia.
      rewrite Nat.sub_diag. cbn [insert list_insert].
      rewrite (IH c' d _ n Hcs) by lia.
      destruct (send_each handled wr (c' :: cs) d) as [tr [d'|e']]; reflexivity.
    + rewrite (insert_app_r_alt pre _ (length pre)) by lia.
      rewrite Nat.sub_diag. cbn [insert list_insert].
      rewrite (IH c' _ _ n Hcs) by lia.
      destruct (send_each handled wr (c' :: cs) ({[c]} ∪ d)) as [tr [d'|e']];
        reflexivity.
    + rewrite (delete_middle pre []), app_nil_r. apply Hdone.
Qed.

Lemma begin_alone handled (w : world) (wr : wire) (n : nat) :
  (size (registry w) ≤ n)%nat →
  run (begin handled w) (replicate n (Resume (length (calls w)) wr None)) =
    (MkWorld (open w) (clients_after (fan_out handled (registry w) wr []))
             (calls w),
     trace (fan_out handled (registry w) wr [])).
Proof.
  intros Hn. unfold begin, enter, fan_out.
  destruct (elements (registry w)) as [|c cs] eqn:Hel.
  - apply elements_empty_inv, leibniz_equiv in Hel.
    rewrite decide_True by done. simpl.
    rewrite run_resume_none by (apply lookup_ge_None_2; lia).
    by destruct w.
  - assert (Hne : registry w ≠ ∅).
    { intros Heq. rewrite Heq, elements_empty in Hel. discriminate. }
    rewrite decide_False by done.
    assert (Hsize : size (registry w) = S (length cs)).
    { unfold size, set_size. simpl. by rewrite Hel. }
    rewrite run_alone.
    + cbn [send_each_among].
      destruct (send_each handled wr (c :: cs) ∅) as [tr [d|e]]; reflexivity.
    + apply Forall_forall. intros x Hx. apply elem_of_elements.
      rewrite Hel. by right.
    + lia.
Qed.

End WorldFacts.

(** C7, as the code has it.  A connection leaves the registry when its
    lifecycle task observes the close, or, after a send to it has failed in
    a fan-out call, by the batch removal of that call, provided the call
    runs to its end: a call that an exception cuts short removes nothing.
    A fan-out call that no other task disturbs and whose failures are all of
    a class its [except] clause lists sends to every registered connection
    exactly once (no retry) and keeps exactly the connections whose send
    went through.  A connection that is out of the registry, with no send to
    it under way, stays out and no send to it is attempted, as long as it
    does not connect again. *)
Theorem closed_connections_leave_the_registry :
  (∀ w c, c ∉ World.registry (fst (World.step w (World.Observe c)))) ∧
  (∀ evs ev r,
     World.ends (fst (World.run World.start evs)) ev = Some r →
     World.registry (fst (World.step (fst (World.run World.start evs)) ev)) =
       Registry.clients_after r ∧
     (Registry.raised r = None →
      ∀ c e, Registry.Send c (Raised e) ∈ Registry.trace r →
             c ∉ Registry.clients_after r) ∧
     (Registry.raised r ≠ None →
      Registry.clients_after r =
        World.registry (fst (World.run World.start evs)))) ∧
  (∀ w wr n,
     (size (World.registry w) ≤ n)%nat →
     (∀ c e, c ∈ World.registry w → wr c = Raised e → e = ConnectionClosed) →
     Registry.attempted
       (snd (World.run w (World.Broadcast ::
               replicate n (World.Resume (length (World.calls w)) wr None)))) =
       elements (World.registry w) ∧
     (∀ c, c ∈ World.registry
                 (fst (World.run w (World.Broadcast ::
                    replicate n (World.Resume (length (World.calls w)) wr None))))
           ↔ c ∈ World.registry w ∧ wr c = Sent)) ∧
  (∀ w wr n,
     (size (World.registry w) ≤ n)%nat →
     (∀ c e, c ∈ World.registry w → wr c = Raised e →
             e = ConnectionClosed ∨ e = TypeError) →
     Registry.attempted
       (snd (World.run w (World.ForwardAudio ::
               replicate n (World.Resume (length (World.calls w)) wr None)))) =
       elements (World.registry w) ∧
     (∀ c, c ∈ World.registry
                 (fst (World.run w (World.ForwardAudio ::
                    replicate n (World.Resume (length (World.calls w)) wr None))))
           ↔ c ∈ World.registry w ∧ wr c = Sent)) ∧
  (∀ w evs c,
     c ∉ World.registry w → World.idle c w → World.Accept c ∉ evs →
     (c ∉ World.registry (fst (World.run w evs))) ∧
     (c ∉ Registry.attempted (snd (World.run w evs)))).
Proof.
  assert (Halone : ∀ handled w wr n,
             (size (World.registry w) ≤ n)%nat →
             Registry.contained handled wr (elements (World.registry w)) →
             Registry.attempted
               (snd (World.run (World.begin handled w)
                       (replicate n (World.Resume (length (World.calls w)) wr None))))
               = elements (World.registry w) ∧
             (∀ c, c ∈ World.registry
                         (fst (World.run (World.begin handled w)
                                 (replicate n (World.Resume (length (World.calls w))
                                                            wr None))))
                   ↔ c ∈ World.registry w ∧ wr c = Sent)).
  { intros handled w wr n Hn Hc. rewrite (begin_alone handled w wr n Hn).
    cbn [fst snd].
    destruct (fan_out_tolerant handled (World.registry w) wr Hc)
      as (_ & Hatt & _ & _ & _ & Hafter).
    split; [done|]. intros c. cbn [World.registry]. rewrite Hafter.
    unfold Registry.failed, delivered. rewrite elem_of_difference, elem_of_filter.
    destruct (wr c) as [|e]; split.
    + intros [Hin _]. by split.
    + intros [Hin _]. split; [done|]. by intros [[=] _].
    + intros [Hin Hno]. exfalso. by apply Hno.
    + by intros [_ [=]]. }
  split_and!.
  - apply step_observe.
  - intros evs ev r Hends.
    assert (Hm : Forall World.marked (World.calls (fst (World.run World.start evs))))
      by (apply run_marked; constructor).
    destruct (step_ends _ ev r Hm Hends) as (Hreg & Hcut & Hdrop). by split_and!.
  - intros w wr n Hn Hclosed. rewrite run_cons. cbn [World.step fst snd].
    apply Halone; [done|]. apply Forall_forall. intros c Hin e He.
    apply elem_of_elements in Hin. by rewrite (Hclosed c e Hin He).
  - intros w wr n Hn Hclosed. rewrite run_cons. cbn [World.step fst snd].
    apply Halone; [done|]. apply Forall_forall. intros c Hin e He.
    apply elem_of_elements in Hin. by destruct (Hclosed c e Hin He) as [-> | ->].
  - intros w evs c Hc Hidle Hno.
    destruct (run_absent evs w c Hc Hidle Hno) as (? & _ & ?). by split.
Qed.

(** C7 as stated fails.  Between the socket closing and the lifecycle
    task observing it the registry holds a closed connection, and a
    broadcast in between sends to it; the send fails and the connection is
    dropped at the end of the call.  When another client registers during
    that send the [for] raises [RuntimeError], and the closed connection,
    whose send has failed, is still registered after the call. *)
Lemma registry_can_hold_a_closed_connection :
  let w := fst (World.run World.start
                  [World.Accept 2%positive; World.Close 2%positive]) in
  ¬ (World.registry w ⊆ World.open w) ∧
  World.run w [World.Broadcast; World.Resume 0 Samples.second_gone None] =
    (World.MkWorld ∅ ∅ [],
     [Registry.Send 2%positive (Raised ConnectionClosed);
      Registry.Discard {[2%positive]}]) ∧
  World.run w [World.Broadcast; World.Accept 1%positive;
               World.Resume 0 Samples.second_gone None] =
    (World.MkWorld {[1%positive]} {[1%positive; 2%positive]} [],
     [Registry.Send 2%positive (Raised ConnectionClosed)]).
Proof.
  split_and!.
  - intros Hsub. specialize (Hsub 2%positive). vm_compute in Hsub.
    assert (H2 : (2%positive : conn) ∈ ({[2%positive]} : gset conn)) by set_solver.
    pose proof (not_elem_of_empty (C := gset conn) 2%positive) as Hempty.
    apply Hempty. apply Hsub. exact H2.
  - vm_compute. reflexivity.
  - vm_compute. reflexivity.
Qed.

(** ** The request/reply handler *)

Section HandlerFacts.
Import Hubert.
Variable json_loads : string -> outcome json.

Lemma on_message_malformed (m : inbound) :
  json_loads (text m) = Raise JSONDecodeError →
  on_message json_loads m = send m (Error (Message "Invalid JSON")).
Proof.
  intros Hbad. unfold on_message, attempt_message. rewrite Hbad.
  unfold send. reflexivity.
Qed.

Lemma serve_cons_replied (m : inbound) (rest : list inbound) made :
  on_message json_loads m = (made, Return tt) →
  serve json_loads (m :: rest) =
    (made ++ fst (serve json_loads rest), snd (serve json_loads rest)).
Proof.
  intros H. simpl. rewrite H. by destruct (serve json_loads rest).
Qed.

End HandlerFacts.

(** C8.  A message that [json.loads] rejects is answered with the error
    reply whose text is "Invalid JSON"; the handler does nothing else with
    it.  When that reply goes out, the handler carries on with the following
    messages exactly as it would have without the malformed one: it does not
    leave its receive loop, and the registry ends up the same. *)
Theorem malformed_message_gets_error_reply
    (json_loads : string -> outcome Hubert.json) (m : Hubert.inbound)
    (rest : list Hubert.inbound) (clients : gset conn) (websocket : conn) :
  json_loads (Hubert.text m) = Raise JSONDecodeError →
  let invalid := Hubert.Error (Hubert.Message "Invalid JSON") in
  fst (Hubert.on_message json_loads m) = [(invalid, Hubert.link m)] ∧
  (Hubert.link m = Sent →
     Hubert.serve json_loads (m :: rest) =
       ((invalid, Sent) :: fst (Hubert.serve json_loads rest),
        snd (Hubert.serve json_loads rest)) ∧
     Hubert.handle_client json_loads clients websocket (m :: rest) =
       ((invalid, Sent)
          :: fst (fst (Hubert.handle_client json_loads clients websocket rest)),
        snd (fst (Hubert.handle_client json_loads clients websocket rest)),
        snd (Hubert.handle_client json_loads clients websocket rest))).
Proof.
  intros Hbad invalid. subst invalid.
  pose proof (on_message_malformed json_loads m Hbad) as Hmsg.
  split; [by rewrite Hmsg|].
  intros Hlink.
  assert (Hserve : Hubert.serve json_loads (m :: rest) =
            ((Hubert.Error (Hubert.Message "Invalid JSON"), Sent)
               :: fst (Hubert.serve json_loads rest),
             snd (Hubert.serve json_loads rest))).
  { rewrite (serve_cons_replied json_loads m rest
               [(Hubert.Error (Hubert.Message "Invalid JSON"), Sent)]); [done|].
    rewrite Hmsg. unfold Hubert.send. by rewrite Hlink. }
  split; [exact Hserve|].
  unfold Hubert.handle_client. rewrite Hserve.
  by destruct (Hubert.serve json_loads rest).
Qed.

(** When a failed send has already dropped the connection, the [finally]
    clause of its lifecycle task finds it gone: [set.remove] raises
    [KeyError] and the registry stays as it is. *)
Example lifecycle_exit_after_failed_send :
  let w := fst (World.run World.start
                  [World.Accept 2%positive; World.Close 2%positive;
                   World.Broadcast;
                   World.Resume 0 Samples.second_gone None]) in
  Registry.register_client_exit (World.registry w) 2%positive = Raise KeyError ∧
  fst (World.step w (World.Observe 2%positive)) = w.
Proof. vm_compute. split; reflexivity. Qed.

(** ** The properties on sample runs *)

Lemma detect_selects_first_in_persona_order_witness :
  ∃ k persona,
    fst (Detector.detect_wake_word (Some Samples.toy_model) true Samples.both_frame)
      = Some persona ∧
    Detector.PERSONAS !! k = Some persona ∧
    Detector.matches Samples.leo_and_virgo persona ∧
    ∀ j earlier, (j < k)%nat → Detector.PERSONAS !! j = Some earlier →
                 ¬ Detector.matches Samples.leo_and_virgo earlier.
Proof.
  apply (detect_selects_first_in_persona_order
           (Some Samples.toy_model) true Samples.both_frame Samples.leo_and_virgo).
  - vm_compute. reflexivity.
  - exists "Virgo". split.
    + apply list_elem_of_In. vm_compute. tauto.
    + vm_compute. reflexivity.
Defined.

Example detect_both_gives_leo :
  Detector.detect_wake_word (Some Samples.toy_model) true Samples.both_frame
    = (Some "Leo", []).
Proof. vm_compute. reflexivity. Qed.

Example detect_torn_frame :
  Detector.detect_wake_word (Some Samples.toy_model) true Samples.torn_frame
    = (None, [Detector.DetectionError ValueError]).
Proof. vm_compute. reflexivity. Qed.

Example output_key_leo : Detector.output_key "Hey Leo" = "hey_leo".
Proof. reflexivity. Qed.

Lemma cooldown_between_two_detections_witness :
  Wake.triggers
    (Wake.effects
       (Wake.audio_loop Samples.listening
          ([] ++ Samples.leo_first :: Samples.lull ++ [Samples.virgo_later])))
    = [(1700000000, "Leo"); (1700000004, "Virgo")].
Proof.
  destruct (cooldown_between_two_detections Samples.listening []
              Samples.lull Samples.leo_first Samples.virgo_later "Leo" "Virgo")
    as [_ Hboth].
  - vm_compute. reflexivity.
  - vm_compute. reflexivity.
  - vm_compute. reflexivity.
  - repeat (constructor; [vm_compute; reflexivity|]). constructor.
  - vm_compute. reflexivity.
  - apply Hboth. vm_compute. reflexivity.
Defined.

(** The scenario of the specification: Leo at 0 s is broadcast, Leo at 1 s is
    not, Virgo at 4 s is. *)
Example scenario_triggers :
  Wake.triggers (Wake.effects (Wake.audio_loop Samples.listening Samples.scenario))
    = [(1700000000, "Leo"); (1700000004, "Virgo")].
Proof. vm_compute. reflexivity. Qed.

Lemma triggers_are_a_cooldown_apart_witness : 3 < 1700000004 - 1700000000.
Proof.
  apply (triggers_are_a_cooldown_apart Samples.listening Samples.scenario
           0 1 1700000000 1700000004 "Leo" "Virgo").
  - lia.
  - vm_compute. reflexivity.
  - vm_compute. reflexivity.
Defined.

Lemma no_detection_no_trigger_witness :
  Wake.triggers
    (Wake.effects (Wake.audio_loop Samples.listening Samples.nothing_heard)) = [].
Proof.
  apply (no_detection_no_trigger Samples.listening Samples.nothing_heard).
  repeat (constructor; [vm_compute; reflexivity|]). constructor.
Defined.

Lemma frame_error_does_not_end_the_loop_witness :
  Wake.effects
    (Wake.while_running Samples.listening 0
       (Samples.overrun 1700000000 :: [Samples.leo_first]))
    = [Wake.Print (Detector.AudioLoopError OSError); Wake.Sleep (1 # 10)]
        ++ Wake.effects
             (Wake.while_running Samples.listening 0 [Samples.leo_first]).
Proof.
  destruct (frame_error_does_not_end_the_loop Samples.listening 0
              (Samples.overrun 1700000000) [Samples.leo_first] OSError)
    as (_ & _ & Hgo).
  - reflexivity.
  - reflexivity.
  - rewrite Hgo. reflexivity.
Defined.

Example bad_frame_is_logged :
  Wake.effects
    (Wake.audio_loop Samples.listening
       [Samples.hears Samples.bad_frame 1700000000; Samples.leo_first])
    = [Wake.SpawnForward Samples.bad_frame;
       Wake.Print (Detector.DetectionError RuntimeError); Wake.Sleep (1 # 100);
       Wake.SpawnForward Samples.leo_frame;
       Wake.Trigger 1700000000 "Leo"
         [Registry.Send 3%positive Sent; Registry.Send 2%positive Sent;
          Registry.Send 1%positive Sent; Registry.Discard ∅];
       Wake.Print (Detector.WakeWordDetected "Leo"); Wake.Sleep (1 # 100)].
Proof. vm_compute. reflexivity. Qed.

Lemma detection_is_total_and_silent_without_model_witness :
  Detector.detect_wake_word (Some Samples.toy_model) true Samples.bad_frame
    = (None, [Detector.DetectionError RuntimeError]) ∧
  Wake.triggers
    (Wake.effects
       (Wake.audio_loop
          (Wake.start_audio_listening
             (Wake.with_clients (Wake.init true (Raise OSError)) Samples.three)
             (Return tt))
          Samples.scenario)) = [].
Proof.
  destruct detection_is_total_and_silent_without_model
    as (_ & _ & Hraise & _ & Hsilent).
  split.
  - apply Hraise. vm_compute. reflexivity.
  - apply Hsilent. left. reflexivity.
Defined.

Lemma closed_connections_leave_the_registry_witness :
  (2%positive ∉ World.registry
     (fst (World.run World.start
             [World.Accept 1%positive; World.Accept 2%positive;
              World.Close 2%positive; World.Broadcast;
              World.Resume 0 Samples.second_gone None;
              World.Resume 0 Samples.second_gone None]))) ∧
  Registry.attempted
    (snd (World.run
            (fst (World.run World.start
                    [World.Accept 1%positive; World.Accept 2%positive;
                     World.Close 2%positive]))
            (World.Broadcast ::
               replicate 2 (World.Resume 0 Samples.second_gone None)))) =
    [2%positive; 1%positive] ∧
  (let w := fst (World.run World.start
                   [World.Accept 1%positive; World.Accept 2%positive;
                    World.Close 1%positive; World.Observe 1%positive]) in
   let later := [World.Broadcast; World.Resume 0 Samples.all_well None;
                 World.Close 2%positive; World.ForwardAudio;
                 World.Resume 0 Samples.second_gone None] in
   (1%positive ∉ World.registry (fst (World.run w later))) ∧
   (1%positive ∉ Registry.attempted (snd (World.run w later)))).
Proof.
  destruct closed_connections_leave_the_registry
    as (_ & Hends & Halone & _ & Hout).
  split_and!.
  - destruct (Hends [World.Accept 1%positive; World.Accept 2%positive;
                     World.Close 2%positive; World.Broadcast;
                     World.Resume 0 Samples.second_gone None]
                    (World.Resume 0 Samples.second_gone None)
                    (Registry.MkFanout
                       [Registry.Send 2%positive (Raised ConnectionClosed);
                        Registry.Send 1%positive Sent;
                        Registry.Discard {[2%positive]}]
                       {[1%positive]} None))
      as (Hreg & Hdrop & _); [vm_compute; reflexivity|].
    specialize (Hdrop eq_refl 2%positive ConnectionClosed).
    intros Hin. apply Hdrop; [left|].
    rewrite <- Hreg. revert Hin. vm_compute. exact (fun H => H).
  - destruct (Halone
                (fst (World.run World.start
                        [World.Accept 1%positive; World.Accept 2%positive;
                         World.Close 2%positive]))
                Samples.second_gone 2%nat) as [Hatt _].
    + vm_compute. lia.
    + intros c e _. unfold Samples.second_gone.
      destruct (Pos.eqb c 2); intros [=]; subst; auto.
    + etransitivity; [exact Hatt|]. vm_compute. reflexivity.
  - cbv zeta. apply Hout.
    + apply (bool_decide_unpack _). vm_compute. exact I.
    + vm_compute. constructor.
    + intros H. repeat (apply elem_of_cons in H as [H|H]; [discriminate|]).
      by apply not_elem_of_nil in H.
Defined.

Lemma malformed_message_gets_error_reply_witness :
  Hubert.serve Samples.toy_loads [Samples.garbled; Samples.empty_object]
    = ([(Hubert.Error (Hubert.Message "Invalid JSON"), Sent);
        (Hubert.Error (Hubert.UnknownMessageType None), Sent)],
       Hubert.Exhausted).
Proof.
  destruct (malformed_message_gets_error_reply Samples.toy_loads Samples.garbled
              [Samples.empty_object] ∅ 1%positive) as [_ Hgo].
  - reflexivity.
  - destruct Hgo as [-> _]; reflexivity.
Defined.

(** * Further properties of the code *)

(** ** Fan-out, whatever the sends do *)

Section FanOutOutcomes.
Import Registry.

Lemma fan_out_keeps handled (clients : gset conn) (w : wire) :
  clients_after (fan_out handled clients w []) ⊆ clients ∧
  ∀ c, c ∈ clients → w c = Sent → c ∈ clients_after (fan_out handled clients w []).
Proof.
  destruct (fan_out_after handled w clients) as [-> | (_ & _ & ->)]; [done|].
  split; [set_solver|]. intros c Hin Hw. apply elem_of_difference. split; [done|].
  unfold failed, delivered. rewrite elem_of_filter, Hw. by intros [? _].
Qed.

Lemma fan_out_dropped handled (clients : gset conn) (w : wire) (c : conn) :
  raised (fan_out handled clients w []) = None →
  c ∈ clients → delivered w c = false →
  c ∉ clients_after (fan_out handled clients w []).
Proof.
  intros Hr Hin Hd.
  destruct (decide (clients = ∅)) as [->|Hne]; [set_solver|].
  revert Hr. unfold fan_out. destruct (decide (clients = ∅)); [done|]. simpl.
  pose proof (send_each_cases handled w (elements clients) ∅) as H.
  destruct (send_each handled w (elements clients) ∅) as [tr [d|e']];
    [|discriminate].
  intros _. destruct H as (_ & -> & _). simpl. rewrite failing_elements.
  unfold failed. rewrite elem_of_difference, elem_of_union, elem_of_filter.
  naive_solver.
Qed.

End FanOutOutcomes.

(** X1.  Whatever the sends do, [broadcast] and [broadcast_audio] never add a
    connection to the registry and never drop one whose own send went
    through (the registry being touched by no other task during the
    call). *)
Theorem fan_out_never_adds_nor_drops_the_reached (clients : gset conn) (w : wire) :
  (Registry.clients_after (Registry.broadcast clients w []) ⊆ clients ∧
   ∀ c, c ∈ clients → w c = Sent →
        c ∈ Registry.clients_after (Registry.broadcast clients w [])) ∧
  (Registry.clients_after (Registry.broadcast_audio clients w []) ⊆ clients ∧
   ∀ c, c ∈ clients → w c = Sent →
        c ∈ Registry.clients_after (Registry.broadcast_audio clients w [])).
Proof. split; apply fan_out_keeps. Qed.

(** X2.  When a send raises an exception that [broadcast] does not handle,
    the call ends there with that exception: the exception is not
    [ConnectionClosed], the connections that come later in the iteration are
    not tried, and the registry is left exactly as it was (connections whose
    send failed earlier in the same call included).  The call is one that no
    other task disturbs, so that an exception can only come from a send. *)
Theorem broadcast_stops_at_unhandled_exception
    (clients : gset conn) (w : wire) (e : exn) :
  Registry.raised (Registry.broadcast clients w []) = Some e →
  e ≠ ConnectionClosed ∧
  Registry.clients_after (Registry.broadcast clients w []) = clients ∧
  ∃ tried c rest,
    elements clients = tried ++ c :: rest ∧ w c = Raised e ∧
    Registry.trace (Registry.broadcast clients w []) =
      map (fun c => Registry.Send c (w c)) tried ++ [Registry.Send c (Raised e)].
Proof.
  intros Hr. destruct (fan_out_raised _ _ _ _ Hr) as (Hh & Hafter & Hex).
  split_and!; try done. intros ->. discriminate.
Qed.

Lemma broadcast_stops_at_unhandled_exception_witness :
  Registry.clients_after (Registry.broadcast Samples.three Samples.second_breaks [])
    = Samples.three.
Proof.
  destruct (broadcast_stops_at_unhandled_exception
              Samples.three Samples.second_breaks RuntimeError) as (_ & H & _).
  - vm_compute. reflexivity.
  - exact H.
Defined.

(** X3.  A connection that registers and whose lifecycle task then ends
    leaves the registry as it was before it came. *)
Theorem register_then_exit_restores_registry
    (clients : gset conn) (websocket : conn) :
  websocket ∉ clients →
  Registry.register_client_exit
    (Registry.register_client_enter clients websocket) websocket
    = Return clients.
Proof.
  intros Hfresh. unfold Registry.register_client_exit, Registry.register_client_enter.
  destruct (decide (websocket ∈ {[websocket]} ∪ clients)) as [_|Hno]; [|set_solver].
  f_equal. set_solver.
Qed.

Lemma register_then_exit_restores_registry_witness :
  Registry.register_client_exit
    (Registry.register_client_enter Samples.three 7%positive) 7%positive
    = Return Samples.three.
Proof.
  apply register_then_exit_restores_registry.
  apply (bool_decide_unpack _). vm_compute. exact I.
Defined.

(** X4.  After a [broadcast] or [broadcast_audio] that completed, undisturbed
    by other tasks, and in which the send to a registered connection failed,
    the [finally] clause of that connection's [register_client] raises
    [KeyError]: the fan-out has already removed it and [set.remove] does not
    tolerate that. *)
Theorem lifecycle_exit_raises_after_failed_send
    (clients : gset conn) (w : wire) (websocket : conn) :
  websocket ∈ clients → delivered w websocket = false →
  (Registry.raised (Registry.broadcast clients w []) = None →
   Registry.register_client_exit
     (Registry.clients_after (Registry.broadcast clients w [])) websocket
     = Raise KeyError) ∧
  (Registry.raised (Registry.broadcast_audio clients w []) = None →
   Registry.register_client_exit
     (Registry.clients_after (Registry.broadcast_audio clients w [])) websocket
     = Raise KeyError).
Proof.
  intros Hin Hd. split; intros Hr; unfold Registry.register_client_exit;
    (destruct (decide _) as [Hyes|_]; [|done]);
    exfalso; revert Hyes; by apply fan_out_dropped.
Qed.

Lemma lifecycle_exit_raises_after_failed_send_witness :
  Registry.register_client_exit
    (Registry.clients_after (Registry.broadcast Samples.three Samples.second_gone []))
    2%positive = Raise KeyError.
Proof.
  destruct (lifecycle_exit_raises_after_failed_send
              Samples.three Samples.second_gone 2%positive) as [H _].
  - apply (bool_decide_unpack _). vm_compute. exact I.
  - reflexivity.
  - apply H. vm_compute. reflexivity.
Defined.

(** ** Starting, running and stopping the loop *)

Section LifecycleFacts.
Import Registry Detector Wake WakeMain.

Lemma interleave_stays_stopped s ev :
  running s = false → running (interleave s ev) = false.
Proof.
  intros Hs. destruct ev as [c|c|w j|]; simpl; try done.
  by destruct (register_client_exit _ _).
Qed.

Lemma interleaved_stays_stopped evs :
  ∀ s, running s = false → running (foldl interleave s evs) = false.
Proof.
  induction evs as [|ev evs IH]; intros s Hs; simpl; [done|].
  by apply IH, interleave_stays_stopped.
Qed.

Lemma interleaved_stops evs :
  ∀ s, Stops ∈ evs → running (foldl interleave s evs) = false.
Proof.
  induction evs as [|ev evs IH]; intros s Hin; [by apply not_elem_of_nil in Hin|].
  simpl. apply elem_of_cons in Hin as [<- | Hin]; [|by apply IH].
  by apply interleaved_stays_stopped.
Qed.

Lemma sleeps_app (xs ys : list effect) : sleeps (xs ++ ys) = sleeps xs ++ sleeps ys.
Proof. unfold sleeps. apply omap_app. Qed.

Lemma forwarded_app (xs ys : list effect) :
  forwarded (xs ++ ys) = forwarded xs ++ forwarded ys.
Proof. unfold forwarded. apply omap_app. Qed.

Lemma sleeps_prints (ls : list log_line) : sleeps (map Print ls) = [].
Proof. induction ls as [|l ls IH]; [reflexivity | exact IH]. Qed.

Lemma forwarded_prints (ls : list log_line) : forwarded (map Print ls) = [].
Proof. induction ls as [|l ls IH]; [reflexivity | exact IH]. Qed.

(** Every pass through the body ends in one sleep, of 0.01 s or of 0.1 s. *)
Lemma loop_body_sleeps s last t :
  sleeps (effects (loop_body s last t)) = [1 # 100] ∨
  sleeps (effects (loop_body s last t)) = [1 # 10].
Proof.
  unfold loop_body, effects.
  destruct (stream s); [|by left].
  destruct (read t) as [audio_data|e]; [|by right].
  destruct (detect_wake_word _ _ _) as [persona printed].
  assert (Hpre : ∀ tail,
            sleeps (((if decide (clients s = ∅) then []
                      else [SpawnForward audio_data]) ++ map Print printed) ++ tail)
            = sleeps tail).
  { intros tail. rewrite !sleeps_app, sleeps_prints.
    by destruct (decide (clients s = ∅)). }
  destruct persona as [p|]; [|left; simpl; by rewrite Hpre].
  destruct (truthy p); [|left; simpl; by rewrite Hpre].
  destruct (cooled_down _ _); [|left; simpl; by rewrite Hpre].
  destruct (raised _); simpl; rewrite Hpre; [by right | by left].
Qed.

Lemma detected_known s t p : detected s t = Some p → p ∈ PERSONAS.
Proof.
  unfold detected. destruct (stream s); [|discriminate].
  destruct (read t) as [audio_data|]; [|discriminate].
  destruct (fst (detect_wake_word _ _ _)) as [q|] eqn:Hd; [|discriminate].
  destruct (truthy q); [|discriminate]. intros [= ->].
  destruct (detect_some _ _ _ _ Hd) as (pr & _ & Hs).
  destruct (scan_wake_phrases pr) as [[Hn _] | (k & q & Hs' & Hk & _)];
    [congruence|].
  assert (q = p) by congruence. subst q. apply list_elem_of_lookup. eauto.
Qed.

(** A trigger broadcast by the body is the detection of that tick. *)
Lemma loop_body_trigger s last t at_time p :
  (at_time, p) ∈ triggers (effects (loop_body s last t)) →
  clock t = at_time ∧ detected s t = Some p.
Proof.
  destruct (detected s t) as [q|] eqn:Hd.
  - pose proof (loop_body_detected s last t q Hd) as H.
    destruct (cooled_down (clock t) last); destruct H as [-> _].
    + intros Hin. apply list_elem_of_singleton in Hin. by injection Hin as <- <-.
    + intros Hin. by apply not_elem_of_nil in Hin.
  - destruct (loop_body_quiet s last t Hd) as [-> _].
    intros Hin. by apply not_elem_of_nil in Hin.
Qed.

Lemma while_running_trigger ticks :
  ∀ s s' last at_time p,
    same_detector s s' →
    (at_time, p) ∈ triggers (effects (while_running s' last ticks)) →
    ∃ t, t ∈ ticks ∧ clock t = at_time ∧ detected s t = Some p.
Proof.
  induction ticks as [|t rest IH]; intros s s' last at_time p Hsame Hin.
  - by apply not_elem_of_nil in Hin.
  - destruct (running s') eqn:Hrun.
    + rewrite (while_running_cons_effects s' last t rest Hrun) in Hin.
      rewrite triggers_app, iteration_effects in Hin.
      apply elem_of_app in Hin as [Hin | Hin].
      * destruct (loop_body_trigger _ _ _ _ _ Hin) as [Hc Hd].
        exists t. split_and!; [left | done |].
        by rewrite <- (detected_same s s' t Hsame).
      * destruct (IH s _ _ at_time p
                    (same_detector_trans _ _ _ Hsame (iteration_same s' last t)) Hin)
          as (t' & Ht' & Hc & Hd).
        exists t'. split_and!; [by right | done | done].
    + rewrite while_running_stopped in Hin by done.
      by apply not_elem_of_nil in Hin.
Qed.

Lemma while_running_sleeps ticks :
  ∀ s last,
    Forall (fun d => d = 1 # 100 ∨ d = 1 # 10)
           (sleeps (effects (while_running s last ticks))) ∧
    (running s = true → Forall (fun t => Stops ∉ meanwhile t) ticks →
     length (sleeps (effects (while_running s last ticks))) = length ticks).
Proof.
  induction ticks as [|t rest IH]; intros s last.
  - split; [constructor | done].
  - destruct (running s) eqn:Hrun.
    + rewrite (while_running_cons_effects s last t rest Hrun).
      rewrite sleeps_app, iteration_effects.
      destruct (IH (final (iteration s last t)) (last_trigger (iteration s last t)))
        as [Hall Hcount].
      split.
      * apply Forall_app. split; [|done].
        destruct (loop_body_sleeps s last t) as [-> | ->];
          constructor; auto.
      * intros _ Hno. inversion Hno as [|? ? Ht Hrest]; subst.
        rewrite length_app, Hcount; [| |done].
        -- by destruct (loop_body_sleeps s last t) as [-> | ->].
        -- rewrite iteration_eq. unfold final at 1. simpl.
           rewrite interleaved_running by done.
           destruct (loop_body_service s last t) as [_ ->]. done.
    + rewrite while_running_stopped by done. split; [constructor | discriminate].
Qed.

Lemma reachable_invariant s :
  reachable s →
  (running s = true → stream s = true) ∧
  (stream s = true → oww_available s = true) ∧
  (oww_available s = true ↔ is_Some (model s)).
Proof.
  induction 1 as [imported loaded | s opened _ IH | s ev _ IH | s last t _ IH].
  - unfold init. destruct imported; [destruct loaded as [m|e]|]; simpl.
    + split_and!; [discriminate | done | split; [by eexists | done]].
    + split_and!; [discriminate | discriminate |].
      split; [discriminate | by intros [? [=]]].
    + split_and!; [discriminate | discriminate |].
      split; [discriminate | by intros [? [=]]].
  - destruct IH as (Hrs & Hso & Hom). unfold start_audio_listening.
    destruct (oww_available s) eqn:Ho; [|by rewrite Ho].
    destruct opened; simpl; rewrite ?Ho; split_and!; try done.
  - destruct IH as (Hrs & Hso & Hom).
    destruct (interleave_same s ev) as (<- & <- & <-).
    split_and!; try done. intros Hr. apply Hrs.
    destruct (running s) eqn:E; [done|].
    by rewrite interleave_stays_stopped in Hr.
  - destruct IH as (Hrs & Hso & Hom).
    destruct (loop_body_service s last t) as [(<- & <- & <-) ->]. done.
Qed.

End LifecycleFacts.

(** X5.  When [stop()] runs while the loop is suspended at the end of an
    iteration, that iteration is the last one: whatever frames are still to
    come, the loop does nothing more, and afterwards the service is not
    running. *)
Theorem stop_ends_the_loop
    (s : Wake.service) (last : Q) (t : Wake.tick) (rest : list Wake.tick) :
  Wake.running s = true →
  Wake.Stops ∈ Wake.meanwhile t →
  Wake.while_running s last (t :: rest) = Wake.iteration s last t ∧
  Wake.effects (Wake.while_running s last (t :: rest))
    = Wake.effects (Wake.loop_body s last t) ∧
  Wake.running (Wake.final (Wake.while_running s last (t :: rest))) = false.
Proof.
  intros Hrun Hstop.
  assert (Hoff : Wake.running (Wake.final (Wake.iteration s last t)) = false).
  { rewrite iteration_eq. unfold Wake.final at 1. simpl.
    by apply interleaved_stops. }
  assert (Heq : Wake.while_running s last (t :: rest) = Wake.iteration s last t).
  { rewrite while_running_cons by done. cbv zeta.
    rewrite while_running_stopped by done.
    unfold Wake.final, Wake.last_trigger, Wake.effects. simpl.
    rewrite app_nil_r. by destruct (Wake.iteration s last t) as [[? ?] ?]. }
  rewrite Heq. split_and!; [done | apply iteration_effects | done].
Qed.

Lemma stop_ends_the_loop_witness :
  Wake.triggers
    (Wake.effects
       (Wake.while_running Samples.listening 0
          (MoreSamples.last_call :: [Samples.virgo_later])))
    = [(1700000000, "Leo")].
Proof.
  destruct (stop_ends_the_loop Samples.listening 0 MoreSamples.last_call
              [Samples.virgo_later]) as (_ & -> & _).
  - reflexivity.
  - left.
  - vm_compute. reflexivity.
Defined.

(** X6.  In every service object the program can reach (built by
    [__init__], then any sequence of [start_audio_listening], [stop],
    registrations, forwarding tasks and loop iterations), a running loop has
    a stream to read from, a stream exists only when the library is
    available, and the library is marked available exactly when a model is
    loaded. *)
Theorem running_service_has_stream_and_model (s : Wake.service) :
  WakeMain.reachable s →
  (Wake.running s = true → Wake.stream s = true) ∧
  (Wake.stream s = true → Wake.oww_available s = true) ∧
  (Wake.oww_available s = true ↔ is_Some (Wake.model s)).
Proof. apply reachable_invariant. Qed.

Lemma running_service_has_stream_and_model_witness :
  (Wake.running MoreSamples.started = true → Wake.stream MoreSamples.started = true) ∧
  (Wake.stream MoreSamples.started = true →
   Wake.oww_available MoreSamples.started = true) ∧
  (Wake.oww_available MoreSamples.started = true ↔
   is_Some (Wake.model MoreSamples.started)).
Proof.
  apply (running_service_has_stream_and_model MoreSamples.started).
  apply WakeMain.reach_start, WakeMain.reach_init.
Defined.

(** X7.  Every trigger broadcast of a run comes from a positive detection of
    that run: it carries the time and the persona of one of the iterations,
    and the persona is one of the twelve of [PERSONAS]. *)
Theorem trigger_comes_from_a_detection
    (s : Wake.service) (ticks : list Wake.tick) (at_time : Q) (persona : string) :
  (at_time, persona) ∈ Wake.triggers (Wake.effects (Wake.audio_loop s ticks)) →
  persona ∈ Detector.PERSONAS ∧
  ∃ t, t ∈ ticks ∧ Wake.clock t = at_time ∧ Wake.detected s t = Some persona.
Proof.
  rewrite audio_loop_while. intros Hin.
  destruct (while_running_trigger ticks s s 0 at_time persona
              (same_detector_refl s) Hin) as (t & Ht & Hc & Hd).
  split; [by apply (detected_known s t) | by exists t].
Qed.

Lemma trigger_comes_from_a_detection_witness :
  "Virgo" ∈ Detector.PERSONAS ∧
  ∃ t, t ∈ Samples.scenario ∧ Wake.clock t = 1700000004 ∧
       Wake.detected Samples.listening t = Some "Virgo".
Proof.
  apply (trigger_comes_from_a_detection Samples.listening Samples.scenario).
  apply list_elem_of_In. vm_compute. tauto.
Defined.

(** X8.  The loop sleeps once in every iteration and nowhere else: each sleep
    is of 0.01 s or 0.1 s, and as long as nobody stops the service a run of n
    iterations contains exactly n sleeps. *)
Theorem loop_sleeps_once_per_iteration
    (s : Wake.service) (last : Q) (ticks : list Wake.tick) :
  Forall (fun d => d = 1 # 100 ∨ d = 1 # 10)
         (WakeMain.sleeps (Wake.effects (Wake.while_running s last ticks))) ∧
  (Wake.running s = true →
   Forall (fun t => Wake.Stops ∉ Wake.meanwhile t) ticks →
   length (WakeMain.sleeps (Wake.effects (Wake.while_running s last ticks)))
     = length ticks).
Proof. apply while_running_sleeps. Qed.

Lemma loop_sleeps_once_per_iteration_witness :
  length (WakeMain.sleeps
            (Wake.effects (Wake.while_running Samples.listening 0 Samples.scenario)))
    = 3%nat.
Proof.
  destruct (loop_sleeps_once_per_iteration Samples.listening 0 Samples.scenario)
    as [_ H].
  apply H; [reflexivity|].
  repeat (constructor; [apply not_elem_of_nil|]). constructor.
Defined.

(** X9.  When the library cannot be imported, the model fails to load or the
    capture device cannot be opened, [main] starts no capture loop: whatever
    frames and clients come, the loop reads nothing, forwards nothing,
    prints nothing and broadcasts no trigger. *)
Theorem main_without_capture_does_nothing
    (imported : bool) (loaded : outcome Detector.Model) (opened : outcome unit)
    (early : list Wake.interleaved) (ticks : list Wake.tick) :
  imported = false ∨ (∃ e, loaded = Raise e) ∨ (∃ e, opened = Raise e) →
  Wake.effects (WakeMain.main imported loaded opened early ticks) = [].
Proof.
  intros Hfail. unfold WakeMain.main.
  destruct (Wake.oww_available (Wake.init imported loaded)) eqn:Ho; [|done].
  destruct Hfail as [-> | [[e ->] | [e ->]]].
  - discriminate.
  - destruct imported; discriminate.
  - unfold Wake.audio_loop.
    rewrite interleaved_stays_stopped; [done|].
    unfold Wake.start_audio_listening. by rewrite Ho.
Qed.

Lemma main_without_capture_does_nothing_witness :
  Wake.effects
    (WakeMain.main true (Return Samples.toy_model) (Raise OSError)
       [Wake.Joins 1%positive] Samples.scenario) = [].
Proof.
  apply main_without_capture_does_nothing. right. right. by exists OSError.
Defined.



(** ** Decoding a frame *)

Section DecodingFacts.
Import Detector.

Lemma int16_range (lo hi : Byte.byte) : (-32768 <= int16 lo hi < 32768)%Z.
Proof.
  unfold int16.
  pose proof (Byte.to_N_bounded lo). pose proof (Byte.to_N_bounded hi).
  destruct (Z.ltb_spec (Z.of_N (Byte.to_N lo) + 256 * Z.of_N (Byte.to_N hi)) 32768);
    lia.
Qed.

(** [frombuffer] by pairs of bytes. *)
Lemma frombuffer_spec (n : nat) :
  ∀ audio_data, (length audio_data < n)%nat →
    match frombuffer audio_data with
    | Return samples =>
        Nat.even (length audio_data) = true ∧
        (2 * length samples = length audio_data)%nat ∧
        Forall (fun z => (-32768 <= z < 32768)%Z) samples
    | Raise e => e = ValueError ∧ Nat.even (length audio_data) = false
    end.
Proof.
  induction n as [|n IH]; intros audio_data Hlen; [lia|].
  destruct audio_data as [|lo [|hi rest]]; simpl.
  - split_and!; [done | done | constructor].
  - done.
  - specialize (IH rest). simpl in Hlen.
    destruct (frombuffer rest) as [samples|e].
    + destruct IH as (Heven & Hl & Hall); [lia|]. split_and!.
      * done.
      * simpl. lia.
      * constructor; [apply int16_range | done].
    + destruct IH as [-> Hodd]; [lia|]. done.
Qed.

Lemma normalise_range (samples : list Z) :
  Forall (fun z => (-32768 <= z < 32768)%Z) samples →
  Forall (fun q => -1 <= q ∧ q < 1) (normalise samples).
Proof.
  unfold normalise. intros H. apply Forall_map.
  eapply Forall_impl; [exact H|]. intros z [Hlo Hhi]. simpl.
  unfold Qdiv, Qle, Qlt. simpl. lia.
Qed.

End DecodingFacts.

(** X11.  Decoding a frame for the model.  A frame with an even number of
    bytes gives one sample per pair of bytes, each in the interval
    [-1, 1).  A frame with an odd number of bytes cannot be decoded: the
    detection step prints the [ValueError] and returns no match, whatever
    the model is. *)
Theorem frame_decoding (audio_data : bytes) :
  (Nat.even (length audio_data) = true →
   ∃ samples,
     Detector.frombuffer audio_data = Return samples ∧
     (2 * length (Detector.normalise samples) = length audio_data)%nat ∧
     Forall (fun q => -1 <= q ∧ q < 1) (Detector.normalise samples)) ∧
  (Nat.even (length audio_data) = false →
   ∀ m, Detector.detect_wake_word (Some m) true audio_data
        = (None, [Detector.DetectionError ValueError])).
Proof.
  pose proof (frombuffer_spec (S (length audio_data)) audio_data
                (Nat.lt_succ_diag_r _)) as H.
  split; intros Hpar.
  - destruct (Detector.frombuffer audio_data) as [samples|e].
    + destruct H as (_ & Hlen & Hall). exists samples. split_and!; [done| |].
      * unfold Detector.normalise. by rewrite length_map.
      * by apply normalise_range.
    + destruct H as [_ Hodd]. congruence.
  - intros m. unfold Detector.detect_wake_word, Detector.classify.
    destruct (Detector.frombuffer audio_data) as [samples|e].
    + destruct H as (Heven & _). congruence.
    + by destruct H as [-> _].
Qed.

Lemma frame_decoding_witness :
  (∃ samples,
     Detector.frombuffer Samples.leo_frame = Return samples ∧
     (2 * length (Detector.normalise samples) = length Samples.leo_frame)%nat ∧
     Forall (fun q => -1 <= q ∧ q < 1) (Detector.normalise samples)) ∧
  Detector.detect_wake_word (Some Samples.toy_model) true Samples.torn_frame
    = (None, [Detector.DetectionError ValueError]).
Proof.
  split.
  - apply (frame_decoding Samples.leo_frame). reflexivity.
  - apply (frame_decoding Samples.torn_frame). reflexivity.
Defined.

(** ** The request/reply handler, message by message *)

Section HandlerMore.
Import Hubert.
Variable json_loads : string -> outcome json.

(** The [try] block either raises before anything is sent, or sends one
    reply and ends with that send. *)
Lemma attempt_message_cases (m : inbound) :
  (∃ e, attempt_message json_loads m = ([], Raise e)) ∨
  (∃ r, attempt_message json_loads m = send m r).
Proof.
  unfold attempt_message.
  destruct (json_loads (text m)) as [data|e]; [|left; by exists e].
  unfold dispatch.
  destruct (dict_get data "type") as [msg_type|e]; [|left; by exists e].
  destruct (is_str msg_type "ping"); [right; by eexists|].
  destruct (is_str msg_type "transcribe").
  - destruct (dict_get data "audio_path") as [audio_path|e]; [|left; by exists e].
    destruct (negb (truth audio_path)); [right; by eexists|].
    destruct (path_exists m) as [[|]|e]; [|right; by eexists|left; by exists e].
    destruct (understood m) as [result|e]; [right; by eexists|left; by exists e].
  - destruct (is_str msg_type "load_models"); right; by eexists.
Qed.

(** On a live connection every message gets exactly one reply. *)
Lemma on_message_live (m : inbound) :
  link m = Sent → ∃ r, on_message json_loads m = ([(r, Sent)], Return tt).
Proof.
  intros Hlive. unfold on_message.
  destruct (attempt_message_cases m) as [[e ->] | [r ->]].
  - unfold send. rewrite Hlive. destruct e; by eexists.
  - unfold send. rewrite Hlive. by exists r.
Qed.

(** On a connection where sends raise [e], handling a message makes one or
    two attempts, all failing, and ends with [e]. *)
Lemma on_message_dead (m : inbound) (e : exn) :
  link m = Raised e →
  ∃ attempts,
    on_message json_loads m = (attempts, Raise e) ∧
    (1 <= length attempts <= 2)%nat ∧
    Forall (fun a => snd a = Raised e) attempts.
Proof.
  intros Hdead. unfold on_message.
  destruct (attempt_message_cases m) as [[e0 ->] | [r ->]];
    unfold send; rewrite Hdead.
  - destruct e0; eexists; (split_and!; [reflexivity | simpl; lia | simpl; lia |]);
      repeat constructor.
  - destruct e; eexists; (split_and!; [reflexivity | simpl; lia | simpl; lia |]);
      repeat constructor.
Qed.

Lemma serve_live (ms : list inbound) :
  Forall (fun m => link m = Sent) ms →
  length (fst (serve json_loads ms)) = length ms ∧
  snd (serve json_loads ms) = Exhausted ∧
  Forall (fun a => snd a = Sent) (fst (serve json_loads ms)).
Proof.
  induction 1 as [|m rest Hm _ IH]; [by split_and!|].
  destruct (on_message_live m Hm) as [r Hr].
  rewrite (serve_cons_replied json_loads m rest _ Hr). simpl.
  destruct IH as (-> & -> & Hall). split_and!; try done. by constructor.
Qed.

Lemma serve_dead (m : inbound) (rest : list inbound) (e : exn) :
  link m = Raised e →
  serve json_loads (m :: rest) =
    (fst (on_message json_loads m),
     match e with ConnectionClosed => PeerGone | _ => Escaped e end).
Proof.
  intros Hdead. destruct (on_message_dead m e Hdead) as (attempts & Hon & _).
  simpl. rewrite Hon. by destruct e.
Qed.

(** A result reply is only ever produced by the transcribe branch, for a
    path that is given and exists. *)
Lemma attempt_message_result (m : inbound) (fields : json) (r : send_result) :
  (Result fields, r) ∈ fst (attempt_message json_loads m) →
  path_exists m = Return true ∧ understood m = Return fields ∧
  ∃ data audio_path,
    json_loads (text m) = Return data ∧
    is_str (match dict_get data "type" with Return x => x | Raise _ => None end)
           "transcribe" = true ∧
    dict_get data "audio_path" = Return audio_path ∧
    truth audio_path = true.
Proof.
  unfold attempt_message.
  destruct (json_loads (text m)) as [data|e];
    [|intros H; by apply not_elem_of_nil in H].
  unfold dispatch.
  destruct (dict_get data "type") as [msg_type|e] eqn:Ht;
    [|intros H; by apply not_elem_of_nil in H].
  assert (Hone : ∀ x, (Result fields, r) ∈ fst (send m x) → x = Result fields).
  { intros x Hin. simpl in Hin. apply list_elem_of_singleton in Hin. congruence. }
  destruct (is_str msg_type "ping") eqn:Hping;
    [intros H; by apply Hone in H|].
  destruct (is_str msg_type "transcribe") eqn:Htr.
  - destruct (dict_get data "audio_path") as [audio_path|e] eqn:Hp;
      [|intros H; by apply not_elem_of_nil in H].
    destruct (truth audio_path) eqn:Htruth; simpl;
      [|intros H; apply list_elem_of_singleton in H; congruence].
    destruct (path_exists m) as [[|]|e];
      [ |intros H; apply list_elem_of_singleton in H; congruence
        |intros H; by apply not_elem_of_nil in H].
    destruct (understood m) as [result|e];
      [|intros H; by apply not_elem_of_nil in H].
    intros H. apply Hone in H. injection H as ->.
    split_and!; try done. exists data, audio_path. rewrite Ht. by split_and!.
  - destruct (is_str msg_type "load_models"); intros H; by apply Hone in H.
Qed.

End HandlerMore.

Section ConversationFacts.
Import Hubert.
Variable json_loads : string -> outcome json.

Lemma on_message_attempts (m : inbound) (a : attempt) :
  a ∈ fst (on_message json_loads m) →
  a ∈ fst (attempt_message json_loads m) ∨ ∃ d, a = (Error d, link m).
Proof.
  unfold on_message.
  destruct (attempt_message json_loads m) as [made [u|e]]; [by left|].
  destruct e; simpl; intros Hin; apply elem_of_app in Hin as [Hin|Hin];
    try (by left); right; apply list_elem_of_singleton in Hin; by eexists.
Qed.

Lemma serve_attempts (ms : list inbound) (a : attempt) :
  a ∈ fst (serve json_loads ms) →
  ∃ m, m ∈ ms ∧ a ∈ fst (on_message json_loads m).
Proof.
  induction ms as [|m rest IH]; simpl.
  - intros Hin. by apply not_elem_of_nil in Hin.
  - destruct (on_message json_loads m) as [made [u|e]] eqn:Hon.
    + destruct (serve json_loads rest) as [more ending]. simpl in *.
      intros Hin. apply elem_of_app in Hin as [Hin|Hin].
      * exists m. rewrite Hon. split; [left | done].
      * destruct (IH Hin) as (m' & Hm' & Ha). exists m'. split; [by right | done].
    + intros Hin. exists m. rewrite Hon. split; [left|]. by destruct e.
Qed.

End ConversationFacts.

(** X12.  On a connection whose sends go through, [handle_client] answers
    every message with exactly one reply: a conversation of n messages gets n
    replies, all delivered, and the handler leaves its loop only when the
    messages end. *)
Theorem every_message_gets_one_reply
    (json_loads : string -> outcome Hubert.json) (ms : list Hubert.inbound) :
  Forall (fun m => Hubert.link m = Sent) ms →
  length (fst (Hubert.serve json_loads ms)) = length ms ∧
  snd (Hubert.serve json_loads ms) = Hubert.Exhausted ∧
  Forall (fun a => snd a = Sent) (fst (Hubert.serve json_loads ms)).
Proof. apply serve_live. Qed.

Lemma every_message_gets_one_reply_witness :
  length (fst (Hubert.serve MoreSamples.desk_loads
                 [MoreSamples.request "ping" Sent;
                  MoreSamples.request "{not json" Sent;
                  MoreSamples.request "list" Sent;
                  MoreSamples.request "transcribe" Sent])) = 4%nat.
Proof.
  destruct (every_message_gets_one_reply MoreSamples.desk_loads
              [MoreSamples.request "ping" Sent;
               MoreSamples.request "{not json" Sent;
               MoreSamples.request "list" Sent;
               MoreSamples.request "transcribe" Sent]) as [H _].
  - repeat constructor.
  - exact H.
Defined.

(** X13.  When the sends on the connection raise, [handle_client] stops at
    that message: it makes one or two attempts for it (the reply, then the
    error reply of its [except Exception] clause), all failing, handles no
    later message, swallows [ConnectionClosed] and lets any other exception
    out, and in both cases the connection is taken out of the registry. *)
Theorem dead_connection_ends_the_handler
    (json_loads : string -> outcome Hubert.json) (m : Hubert.inbound)
    (rest : list Hubert.inbound) (e : exn) (clients : gset conn) (websocket : conn) :
  Hubert.link m = Raised e →
  let '(attempts, ending, registry) :=
    Hubert.handle_client json_loads clients websocket (m :: rest) in
  attempts = fst (Hubert.on_message json_loads m) ∧
  (1 <= length attempts <= 2)%nat ∧
  Forall (fun a => snd a = Raised e) attempts ∧
  ending = match e with
           | ConnectionClosed => Hubert.PeerGone
           | _ => Hubert.Escaped e
           end ∧
  (websocket ∉ registry) ∧
  ∀ c, c ≠ websocket → (c ∈ registry ↔ c ∈ clients).
Proof.
  intros Hdead. unfold Hubert.handle_client.
  rewrite (serve_dead json_loads m rest e Hdead).
  destruct (on_message_dead json_loads m e Hdead) as (attempts & -> & Hlen & Hall).
  simpl. split_and!; try done; try lia; set_solver.
Qed.

Lemma dead_connection_ends_the_handler_witness :
  Hubert.handle_client MoreSamples.desk_loads Samples.three 9%positive
    [MoreSamples.request "ping" (Raised ConnectionClosed);
     MoreSamples.request "ping" Sent]
  = ([(Hubert.Pong, Raised ConnectionClosed);
      (Hubert.Error (Hubert.ExceptionText ConnectionClosed), Raised ConnectionClosed)],
     Hubert.PeerGone, Samples.three).
Proof.
  pose proof (dead_connection_ends_the_handler MoreSamples.desk_loads
                (MoreSamples.request "ping" (Raised ConnectionClosed))
                [MoreSamples.request "ping" Sent] ConnectionClosed
                Samples.three 9%positive eq_refl) as H.
  destruct (Hubert.handle_client _ _ _ _) as [[attempts ending] registry] eqn:E.
  destruct H as (-> & _ & _ & -> & _). revert E. vm_compute.
  intros [= <-]. reflexivity.
Defined.

(** X14.  A result reply is sent only for a transcribe request whose
    [audio_path] is given and exists on disk, and it carries what
    [transcribe_and_understand] returned for it. *)
Theorem result_only_for_existing_audio
    (json_loads : string -> outcome Hubert.json) (ms : list Hubert.inbound)
    (fields : Hubert.json) (r : send_result) :
  (Hubert.Result fields, r) ∈ fst (Hubert.serve json_loads ms) →
  ∃ m data audio_path,
    m ∈ ms ∧
    json_loads (Hubert.text m) = Return data ∧
    Hubert.dict_get data "type" = Return (Some (Hubert.JString "transcribe")) ∧
    Hubert.dict_get data "audio_path" = Return audio_path ∧
    Hubert.truth audio_path = true ∧
    Hubert.path_exists m = Return true ∧
    Hubert.understood m = Return fields.
Proof.
  intros Hin. destruct (serve_attempts json_loads ms _ Hin) as (m & Hm & Ha).
  destruct (on_message_attempts json_loads m _ Ha) as [Hatt | [d [=]]].
  destruct (attempt_message_result json_loads m fields r Hatt)
    as (Hex & Hund & data & audio_path & Hj & Htype & Hp & Htruth).
  exists m, data, audio_path. split_and!; try done.
  destruct (Hubert.dict_get data "type") as [[[| | |s| |]|]|]; try discriminate.
  simpl in Htype. apply String.eqb_eq in Htype. by subst s.
Qed.

Lemma result_only_for_existing_audio_witness :
  ∃ m data audio_path,
    m ∈ [MoreSamples.request "ping" Sent; MoreSamples.request "transcribe" Sent] ∧
    MoreSamples.desk_loads (Hubert.text m) = Return data ∧
    Hubert.dict_get data "type" = Return (Some (Hubert.JString "transcribe")) ∧
    Hubert.dict_get data "audio_path" = Return audio_path ∧
    Hubert.truth audio_path = true ∧
    Hubert.path_exists m = Return true ∧
    Hubert.understood m = Return MoreSamples.said.
Proof.
  apply (result_only_for_existing_audio MoreSamples.desk_loads _ _ Sent).
  apply list_elem_of_In. vm_compute. tauto.
Defined.

(** X15.  Well-formed JSON that lacks what the handler needs.  A value that
    is not an object is answered with the text of the [AttributeError] that
    [data.get] raises; an object without a ["type"] is answered as an
    unknown message type [None]; a transcribe request whose [audio_path] is
    missing or empty is answered "Audio file not found" without the file
    system or the models being consulted. *)
Theorem incomplete_requests_get_error_replies
    (json_loads : string -> outcome Hubert.json) (m : Hubert.inbound)
    (data : Hubert.json) :
  json_loads (Hubert.text m) = Return data →
  ((∀ fields, data ≠ Hubert.JObject fields) →
   fst (Hubert.on_message json_loads m)
     = [(Hubert.Error (Hubert.ExceptionText AttributeError), Hubert.link m)]) ∧
  (∀ fields, data = Hubert.JObject fields →
     Hubert.assoc "type" fields = None →
     Hubert.attempt_message json_loads m
       = Hubert.send m (Hubert.Error (Hubert.UnknownMessageType None))) ∧
  (∀ fields, data = Hubert.JObject fields →
     Hubert.assoc "type" fields = Some (Hubert.JString "transcribe") →
     Hubert.truth (Hubert.assoc "audio_path" fields) = false →
     Hubert.attempt_message json_loads m
       = Hubert.send m (Hubert.Error
                          (Hubert.AudioFileNotFound
                             (Hubert.assoc "audio_path" fields)))).
Proof.
  intros Hj. split_and!.
  - intros Hno. unfold Hubert.on_message, Hubert.attempt_message, Hubert.dispatch.
    rewrite Hj. destruct data; try reflexivity. by destruct (Hno fields).
  - intros fields -> Hnone.
    unfold Hubert.attempt_message, Hubert.dispatch. rewrite Hj. simpl.
    by rewrite Hnone.
  - intros fields -> Htype Hfalse.
    unfold Hubert.attempt_message, Hubert.dispatch. rewrite Hj. simpl.
    rewrite Htype. simpl. by rewrite Hfalse.
Qed.

Lemma incomplete_requests_get_error_replies_witness :
  fst (Hubert.on_message MoreSamples.desk_loads (MoreSamples.request "list" Sent))
    = [(Hubert.Error (Hubert.ExceptionText AttributeError), Sent)] ∧
  Hubert.attempt_message MoreSamples.desk_loads
    (MoreSamples.request "untyped" Sent)
    = Hubert.send (MoreSamples.request "untyped" Sent)
        (Hubert.Error (Hubert.UnknownMessageType None)) ∧
  Hubert.attempt_message MoreSamples.desk_loads
    (MoreSamples.request "transcribe nothing" Sent)
    = Hubert.send (MoreSamples.request "transcribe nothing" Sent)
        (Hubert.Error (Hubert.AudioFileNotFound None)).
Proof.
  split_and!.
  - destruct (incomplete_requests_get_error_replies MoreSamples.desk_loads
                (MoreSamples.request "list" Sent)
                (Hubert.JArray [Hubert.JNull]) eq_refl) as (H & _ & _).
    apply H. discriminate.
  - destruct (incomplete_requests_get_error_replies MoreSamples.desk_loads
                (MoreSamples.request "untyped" Sent) _ eq_refl) as (_ & H & _).
    by apply (H _ eq_refl).
  - destruct (incomplete_requests_get_error_replies MoreSamples.desk_loads
                (MoreSamples.request "transcribe nothing" Sent) _ eq_refl)
      as (_ & _ & H).
    by apply (H _ eq_refl).
Defined.

(** ** The speech-understanding pipeline *)

Section PaddingFacts.
Import Speech.

Lemma target_length_value : Z.of_nat target_length = 480000%Z.
Proof.
  unfold target_length. rewrite Z2Nat.id; [reflexivity|]. by vm_compute.
Qed.

Lemma pad_or_trim_length (audio : list Q) :
  length (pad_or_trim audio) = target_length.
Proof.
  unfold pad_or_trim.
  destruct (Nat.ltb_spec target_length (length audio)).
  - rewrite length_take. lia.
  - rewrite length_app, length_replicate. lia.
Qed.

Lemma pad_or_trim_lookup (audio : list Q) (i : nat) :
  (i < target_length)%nat →
  pad_or_trim audio !! i = Some (default 0 (audio !! i)).
Proof.
  intros Hi. unfold pad_or_trim.
  destruct (Nat.ltb_spec target_length (length audio)) as [Hlong|Hshort].
  - rewrite lookup_take_lt by done.
    destruct (audio !! i) eqn:E; [done|].
    apply lookup_ge_None in E. lia.
  - destruct (decide (i < length audio)%nat) as [Hin|Hout].
    + rewrite lookup_app_l by done.
      destruct (audio !! i) eqn:E; [done|].
      apply lookup_ge_None in E. lia.
    + rewrite lookup_app_r by lia.
      rewrite (lookup_ge_None_2 audio i) by lia. simpl.
      apply lookup_replicate_2. lia.
Qed.

Lemma pad_or_trim_fixed (audio : list Q) :
  length audio = target_length → pad_or_trim audio = audio.
Proof.
  intros Hlen. unfold pad_or_trim. rewrite Hlen, Nat.ltb_irrefl, Nat.sub_diag.
  simpl. apply app_nil_r.
Qed.

End PaddingFacts.

(** X16.  "Pad or trim to 30 seconds": whatever the length of the audio, the
    result has exactly 480000 samples (30 s at 16 kHz); sample i of the
    result is sample i of the audio where the audio has one, and 0 beyond
    its end; audio that already has 480000 samples is left as it is. *)
Theorem pad_or_trim_gives_thirty_seconds (audio : list Q) :
  Z.of_nat (length (Speech.pad_or_trim audio)) = 480000%Z ∧
  (∀ i, (Z.of_nat i < 480000)%Z →
        Speech.pad_or_trim audio !! i = Some (default 0 (audio !! i))) ∧
  Speech.pad_or_trim (Speech.pad_or_trim audio) = Speech.pad_or_trim audio.
Proof.
  pose proof target_length_value as Ht. split_and!.
  - by rewrite pad_or_trim_length.
  - intros i Hi. apply pad_or_trim_lookup. lia.
  - apply pad_or_trim_fixed, pad_or_trim_length.
Qed.

Lemma pad_or_trim_gives_thirty_seconds_witness :
  Speech.pad_or_trim [1 # 2; 1 # 4] !! 1%nat = Some (1 # 4) ∧
  Speech.pad_or_trim [1 # 2; 1 # 4] !! 5%nat = Some 0.
Proof.
  destruct (pad_or_trim_gives_thirty_seconds [1 # 2; 1 # 4]) as (_ & H & _).
  split; apply H; lia.
Defined.

Section StripFacts.
Import Speech.
Open Scope string_scope.

Lemma rstrip_app (u v : string) : ∃ rest, rstrip (u ++ v) = rstrip u ++ rest.
Proof.
  induction u as [|c u IH]; simpl.
  - by exists (rstrip v).
  - destruct IH as [rest ->].
    destruct (rstrip u) as [|d k]; simpl.
    + destruct (is_space c).
      * by eexists.
      * destruct rest; [by exists EmptyString | by eexists].
    + by exists rest.
Qed.

Lemma lstrip_app (u v : string) :
  lstrip u = EmptyString ∨ lstrip (u ++ v) = lstrip u ++ v.
Proof.
  induction u as [|c u IH]; simpl; [by left|].
  destruct (is_space c); [exact IH | by right].
Qed.

Lemma strip_app (u v : string) : ∃ rest, strip (u ++ v) = strip u ++ rest.
Proof.
  unfold strip. destruct (lstrip_app u v) as [-> | ->].
  - by eexists.
  - apply rstrip_app.
Qed.

Lemma first_line_app (s : string) : ∃ rest, s = first_line s ++ rest.
Proof.
  induction s as [|c s IH]; simpl; [by exists EmptyString|].
  destruct (Ascii.eqb c newline); [by eexists|].
  destruct IH as [rest Hrest]. exists rest. rewrite Hrest at 1. reflexivity.
Qed.

Lemma transcript_of_app (s : string) : ∃ rest, s = transcript_of s ++ rest.
Proof.
  unfold transcript_of. destruct (has_newline s); [apply first_line_app|].
  exists EmptyString. clear. induction s as [|c s IH]; [done|].
  rewrite IH at 1. reflexivity.
Qed.

Lemma first_line_no_newline (s : string) : has_newline (first_line s) = false.
Proof.
  induction s as [|c s IH]; simpl; [done|].
  destruct (Ascii.eqb c newline) eqn:E; simpl; [done | by rewrite E].
Qed.

Lemma lstrip_no_newline (s : string) :
  has_newline s = false → has_newline (lstrip s) = false.
Proof.
  induction s as [|c s IH]; simpl; [done|].
  intros H. apply orb_false_iff in H as [Hc Hs].
  destruct (is_space c); [by apply IH | simpl; by rewrite Hc, Hs].
Qed.

Lemma rstrip_no_newline (s : string) :
  has_newline s = false → has_newline (rstrip s) = false.
Proof.
  induction s as [|c s IH]; simpl; [done|].
  intros H. apply orb_false_iff in H as [Hc Hs]. specialize (IH Hs).
  destruct (rstrip s) as [|d k]; simpl in *.
  - destruct (is_space c); simpl; [done | by rewrite Hc].
  - by rewrite Hc, IH.
Qed.

Lemma transcript_no_newline (s : string) :
  has_newline (strip (transcript_of s)) = false.
Proof.
  unfold strip. apply rstrip_no_newline, lstrip_no_newline.
  unfold transcript_of. destruct (has_newline s) eqn:E;
    [apply first_line_no_newline | done].
Qed.

Lemma transcript_prefix (s : string) :
  ∃ rest, strip s = strip (transcript_of s) ++ rest.
Proof.
  destruct (transcript_of_app s) as [tail Htail].
  destruct (strip_app (transcript_of s) tail) as [rest H].
  exists rest. by rewrite <- H, <- Htail.
Qed.

End StripFacts.

Section ModelFacts.
Import Speech.
Variable tensor : Type.
Variable pool : tensor -> tensor.
Variable count : tensor -> nat.
Variable shape : tensor -> list nat.

Lemma load_models_spec (st : state tensor) (h : hub tensor) :
  snd (load_models tensor st h) = models_loaded tensor (fst (load_models tensor st h)) ∧
  (models_loaded tensor st = true → load_models tensor st h = (st, true)) ∧
  (models_loaded tensor st = false →
   snd (load_models tensor st h) = true →
   is_Some (huber_processor tensor (fst (load_models tensor st h))) ∧
   is_Some (huber_model tensor (fst (load_models tensor st h))) ∧
   is_Some (llama_tokenizer tensor (fst (load_models tensor st h))) ∧
   is_Some (llama_model tensor (fst (load_models tensor st h)))) ∧
  ((is_Some (huber_processor tensor st) →
    is_Some (huber_processor tensor (fst (load_models tensor st h)))) ∧
   (is_Some (huber_model tensor st) →
    is_Some (huber_model tensor (fst (load_models tensor st h)))) ∧
   (is_Some (llama_tokenizer tensor st) →
    is_Some (llama_tokenizer tensor (fst (load_models tensor st h)))) ∧
   (is_Some (llama_model tensor st) →
    is_Some (llama_model tensor (fst (load_models tensor st h))))).
Proof.
  unfold load_models.
  destruct (models_loaded tensor st) eqn:Hl; [by split_and!|].
  destruct (processor_from_pretrained tensor h); [|by split_and!].
  destruct (encoder_from_pretrained tensor h); [|by split_and!; simpl; eauto].
  destruct (encoder_placed tensor h); [|by split_and!; simpl; eauto].
  destruct (quantization tensor h); [|by split_and!; simpl; eauto].
  destruct (tokenizer_from_pretrained tensor h); [|by split_and!; simpl; eauto].
  destruct (llama_from_pretrained tensor h); [|by split_and!; simpl; eauto].
  destruct (llama_placed tensor h); by split_and!; simpl; eauto.
Qed.

End ModelFacts.

(** X17.  [load_models] returns [True] exactly when [models_loaded] is set
    afterwards.  Once the models are loaded a further call changes nothing
    and returns [True] without fetching anything.  A call that returns
    [True] from an unloaded state leaves all four model attributes set, and
    no call ever clears an attribute that was set (a failed load keeps what
    it had fetched before the failure). *)
Theorem load_models_outcome
    (tensor : Type) (st : Speech.state tensor) (h : Speech.hub tensor) :
  let st' := fst (Speech.load_models tensor st h) in
  let ok := snd (Speech.load_models tensor st h) in
  ok = Speech.models_loaded tensor st' ∧
  (Speech.models_loaded tensor st = true → st' = st ∧ ok = true) ∧
  (Speech.models_loaded tensor st = false → ok = true →
   is_Some (Speech.huber_processor tensor st') ∧
   is_Some (Speech.huber_model tensor st') ∧
   is_Some (Speech.llama_tokenizer tensor st') ∧
   is_Some (Speech.llama_model tensor st')) ∧
  ((is_Some (Speech.huber_processor tensor st) →
    is_Some (Speech.huber_processor tensor st')) ∧
   (is_Some (Speech.huber_model tensor st) →
    is_Some (Speech.huber_model tensor st')) ∧
   (is_Some (Speech.llama_tokenizer tensor st) →
    is_Some (Speech.llama_tokenizer tensor st')) ∧
   (is_Some (Speech.llama_model tensor st) →
    is_Some (Speech.llama_model tensor st'))).
Proof.
  cbv zeta. destruct (load_models_spec tensor st h) as (H1 & H2 & H3 & H4).
  split_and!; try done; try apply H4;
    try (intros Hl; by rewrite (H2 Hl));
    intros Hl Hok; by destruct (H3 Hl Hok) as (? & ? & ? & ?).
Qed.

Lemma load_models_outcome_witness :
  (let st' := fst (Speech.load_models MoreSamples.tensor
                     (Speech.init MoreSamples.tensor) MoreSamples.good_hub) in
   is_Some (Speech.llama_model MoreSamples.tensor st') ∧
   fst (Speech.load_models MoreSamples.tensor st' MoreSamples.no_hub) = st') ∧
  is_Some (Speech.huber_model MoreSamples.tensor
             (fst (Speech.load_models MoreSamples.tensor
                     (fst (Speech.load_models MoreSamples.tensor
                             (Speech.init MoreSamples.tensor)
                             MoreSamples.bad_hub))
                     MoreSamples.no_hub))).
Proof.
  split.
  - cbv zeta. split.
    + destruct (load_models_outcome MoreSamples.tensor
                  (Speech.init MoreSamples.tensor) MoreSamples.good_hub)
        as (_ & _ & H & _).
      by destruct (H eq_refl eq_refl) as (_ & _ & _ & ?).
    + destruct (load_models_outcome MoreSamples.tensor
                  (fst (Speech.load_models MoreSamples.tensor
                          (Speech.init MoreSamples.tensor) MoreSamples.good_hub))
                  MoreSamples.no_hub) as (_ & H & _).
      by destruct (H eq_refl).
  - destruct (load_models_outcome MoreSamples.tensor
                (fst (Speech.load_models MoreSamples.tensor
                        (Speech.init MoreSamples.tensor) MoreSamples.bad_hub))
                MoreSamples.no_hub) as (_ & _ & _ & _ & H & _).
    apply H. by eexists.
Defined.

Section UnderstandFacts.
Import Speech.
Variable tensor : Type.
Variable pool : tensor -> tensor.
Variable count : tensor -> nat.
Variable shape : tensor -> list nat.

Lemma understand_success (st : state tensor) loaded_audio context t r sh :
  understand tensor pool count shape st loaded_audio context
    = Return (Understood t r sh) →
  (is_Some (huber_processor tensor st) ∧ is_Some (huber_model tensor st) ∧
   is_Some (llama_tokenizer tensor st) ∧ is_Some (llama_model tensor st)) ∧
  (∃ audio p inputs,
     loaded_audio = Return audio ∧ huber_processor tensor st = Some p ∧
     p (pad_or_trim audio) = Return inputs) ∧
  ∃ response_text,
    t = strip (transcript_of response_text) ∧ r = strip response_text.
Proof.
  unfold understand, encode_audio_hubert, call.
  destruct loaded_audio as [audio|]; [|discriminate].
  destruct (huber_processor tensor st) as [p|]; [|discriminate].
  destruct (p (pad_or_trim audio)) as [inputs|] eqn:Hp; [|discriminate].
  destruct (huber_model tensor st) as [enc|]; [|discriminate].
  destruct (enc inputs) as [features|]; [|discriminate].
  destruct (llama_tokenizer tensor st) as [tk|]; [|discriminate].
  destruct (tokenize tensor tk _) as [ins|]; [|discriminate].
  destruct (llama_model tensor st) as [g|]; [|discriminate].
  destruct (g ins) as [outs|]; [|discriminate].
  destruct (decode tensor tk ins outs) as [response_text|]; [|discriminate].
  intros [= <- <- <-].
  split_and!; [by eexists | by eexists | by eexists | by eexists | |].
  - by exists audio, p, inputs.
  - by exists response_text.
Qed.

Lemma transcribe_success (st : state tensor) h loaded_audio context t r sh :
  snd (transcribe_and_understand tensor pool count shape st h loaded_audio context)
    = Understood t r sh →
  understand tensor pool count shape
    (fst (transcribe_and_understand tensor pool count shape st h loaded_audio context))
    loaded_audio context = Return (Understood t r sh).
Proof.
  unfold transcribe_and_understand.
  set (st' := if models_loaded tensor st then st else fst (load_models tensor st h)).
  destruct (understand tensor pool count shape st' loaded_audio context)
    as [result|e] eqn:Hu; simpl; [by intros -> | discriminate].
Qed.

End UnderstandFacts.

(** X18.  [transcribe_and_understand] reports success only when, after its
    attempt to load them, all four models are in place and the audio file
    could be read; the speech processor has then been applied to the audio
    padded or trimmed to exactly 480000 samples. *)
Theorem understanding_needs_models_and_audio
    (tensor : Type) (pool : tensor -> tensor) (count : tensor -> nat)
    (shape : tensor -> list nat) (st : Speech.state tensor) (h : Speech.hub tensor)
    (loaded_audio : outcome (list Q)) (context transcript response : string)
    (sh : list nat) :
  let run := Speech.transcribe_and_understand tensor pool count shape
               st h loaded_audio context in
  snd run = Speech.Understood transcript response sh →
  (is_Some (Speech.huber_processor tensor (fst run)) ∧
   is_Some (Speech.huber_model tensor (fst run)) ∧
   is_Some (Speech.llama_tokenizer tensor (fst run)) ∧
   is_Some (Speech.llama_model tensor (fst run))) ∧
  ∃ audio processor inputs,
    loaded_audio = Return audio ∧
    Speech.huber_processor tensor (fst run) = Some processor ∧
    processor (Speech.pad_or_trim audio) = Return inputs ∧
    Z.of_nat (length (Speech.pad_or_trim audio)) = 480000%Z.
Proof.
  cbv zeta. intros Hok.
  destruct (understand_success tensor pool count shape _ _ _ _ _ _
              (transcribe_success tensor pool count shape _ _ _ _ _ _ _ Hok))
    as (Hall & (audio & p & inputs & Ha & Hp & Hin) & _).
  split; [done|]. exists audio, p, inputs. split_and!; try done.
  by rewrite pad_or_trim_length, target_length_value.
Qed.

(** X19.  In a successful result the transcript is the beginning of the
    response: it is the first line of the model's text with the surrounding
    white space removed, so it contains no line break and the response
    starts with it. *)
Theorem transcript_is_first_line_of_response
    (tensor : Type) (pool : tensor -> tensor) (count : tensor -> nat)
    (shape : tensor -> list nat) (st : Speech.state tensor) (h : Speech.hub tensor)
    (loaded_audio : outcome (list Q)) (context transcript response : string)
    (sh : list nat) :
  snd (Speech.transcribe_and_understand tensor pool count shape
         st h loaded_audio context) = Speech.Understood transcript response sh →
  Speech.has_newline transcript = false ∧
  ∃ rest, response = (transcript ++ rest)%string.
Proof.
  intros Hok.
  destruct (understand_success tensor pool count shape _ _ _ _ _ _
              (transcribe_success tensor pool count shape _ _ _ _ _ _ _ Hok))
    as (_ & _ & response_text & -> & ->).
  split; [apply transcript_no_newline | apply transcript_prefix].
Qed.

Lemma understanding_needs_models_and_audio_witness :
  is_Some
    (Speech.llama_model MoreSamples.tensor
       (fst (Speech.transcribe_and_understand MoreSamples.tensor
               MoreSamples.pool MoreSamples.count MoreSamples.shape
               (Speech.init MoreSamples.tensor) MoreSamples.good_hub
               (Return [1 # 2; 1 # 4]) "algebra"))).
Proof.
  destruct (understanding_needs_models_and_audio MoreSamples.tensor
              MoreSamples.pool MoreSamples.count MoreSamples.shape
              (Speech.init MoreSamples.tensor) MoreSamples.good_hub
              (Return [1 # 2; 1 # 4]) "algebra"
              "Hello there" ("Hello there " ++ String Speech.newline "How can I help?")
              [3%nat])
    as [(_ & _ & _ & H) _].
  - vm_compute. reflexivity.
  - exact H.
Defined.

Lemma transcript_is_first_line_of_response_witness :
  Speech.has_newline "Hello there" = false ∧
  ∃ rest,
    ("Hello there " ++ String Speech.newline "How can I help?")%string
      = ("Hello there" ++ rest)%string.
Proof.
  apply (transcript_is_first_line_of_response MoreSamples.tensor
           MoreSamples.pool MoreSamples.count MoreSamples.shape
           (Speech.init MoreSamples.tensor) MoreSamples.good_hub
           (Return [1 # 2; 1 # 4]) "algebra" _ _ [3%nat]).
  vm_compute. reflexivity.
Defined.

(** X20.  A request that arrives while the models are not loaded and cannot
    be loaded is answered with a failure, not with an exception: when the
    speech processor cannot be fetched, the result is the error of reading
    the audio file if that fails, and otherwise the [TypeError] of calling
    the missing processor; the service state is unchanged. *)
Theorem unloadable_models_give_failure
    (tensor : Type) (pool : tensor -> tensor) (count : tensor -> nat)
    (shape : tensor -> list nat) (st : Speech.state tensor) (h : Speech.hub tensor)
    (loaded_audio : outcome (list Q)) (context : string) (e : exn) :
  Speech.models_loaded tensor st = false →
  Speech.huber_processor tensor st = None →
  Speech.processor_from_pretrained tensor h = Raise e →
  Speech.transcribe_and_understand tensor pool count shape st h loaded_audio context
    = (st, Speech.Failed
             (match loaded_audio with
              | Raise read_error => read_error
              | Return _ => TypeError
              end)).
Proof.
  intros Hl Hp He.
  unfold Speech.transcribe_and_understand, Speech.load_models.
  rewrite Hl, He. simpl.
  unfold Speech.understand, Speech.encode_audio_hubert, Speech.call.
  rewrite Hp. by destruct loaded_audio.
Qed.

Lemma unloadable_models_give_failure_witness :
  Speech.transcribe_and_understand MoreSamples.tensor
    MoreSamples.pool MoreSamples.count MoreSamples.shape
    (Speech.init MoreSamples.tensor) MoreSamples.no_hub
    (Return [1 # 2; 1 # 4]) "algebra"
    = (Speech.init MoreSamples.tensor, Speech.Failed TypeError).
Proof.
  apply (unloadable_models_give_failure MoreSamples.tensor
           MoreSamples.pool MoreSamples.count MoreSamples.shape
           (Speech.init MoreSamples.tensor) MoreSamples.no_hub
           (Return [1 # 2; 1 # 4]) "algebra" OSError); reflexivity.
Defined.

(** ** The text-to-speech endpoint *)

Section SopranoFacts.
Import Soprano.

Lemma generate_return (p : pipeline) save input content :
  generate p save input = Return content →
  ∃ r a,
    p input = Return r ∧ audio r = Some (Array a) ∧
    save (with_channel a) (default 22050%Z (sampling_rate r)) = Return content ∧
    ∀ samples, with_channel a ≠ Dim1 samples.
Proof.
  unfold generate. destruct (p input) as [r|]; [|discriminate].
  destruct (audio r) as [[a|]|] eqn:Ha; [|discriminate|discriminate].
  simpl. intros Hs. exists r, a. split_and!; try done. by destruct a.
Qed.

End SopranoFacts.

(** X21.  [text_to_speech] answers with one of three statuses.  It is 503
    exactly when no model is loaded.  It is 200 only when the pipeline
    returned a dict whose audio entry is an array and the encoder accepted it; the
    body is then the WAV encoding of that audio, with a channel dimension
    added to one-dimensional audio and at the rate of the dict, 22050 when
    the dict names none.  Every failure in between is a 500 carrying the
    exception. *)
Theorem text_to_speech_statuses
    (pipe : option Soprano.pipeline)
    (save : Soprano.ndarray -> Z -> outcome bytes) (input : string) :
  let answer := Soprano.text_to_speech pipe save input in
  (Soprano.status answer = 200%Z ∨ Soprano.status answer = 503%Z ∨
   Soprano.status answer = 500%Z) ∧
  (Soprano.status answer = 503%Z ↔ pipe = None) ∧
  (∀ content media_type,
     answer = Soprano.Wav content media_type →
     media_type = "audio/wav" ∧
     ∃ p r a,
       pipe = Some p ∧ p input = Return r ∧
       Soprano.audio r = Some (Soprano.Array a) ∧
       save (Soprano.with_channel a)
            (default 22050%Z (Soprano.sampling_rate r)) = Return content ∧
       ∀ samples, Soprano.with_channel a ≠ Soprano.Dim1 samples) ∧
  (∀ p e, pipe = Some p → Soprano.generate p save input = Raise e →
          answer = Soprano.HTTPException 500 (Soprano.GenerationFailed e)).
Proof.
  cbv zeta. unfold Soprano.text_to_speech.
  destruct pipe as [p|].
  - destruct (Soprano.generate p save input) as [content|e] eqn:Hg; simpl.
    + split_and!; [by left | split; discriminate | | ].
      * intros c mt [= <- <-]. split; [done|].
        destruct (generate_return p save input content Hg) as (r & a & H).
        by exists p, r, a.
      * intros p' e' [= <-]. rewrite Hg. discriminate.
    + split_and!; [by right; right | split; discriminate | discriminate |].
      intros p' e' [= <-]. rewrite Hg. by intros [= ->].
  - simpl. split_and!; [by right; left | done | discriminate | discriminate].
Qed.

Lemma text_to_speech_statuses_witness :
  Soprano.text_to_speech (Some MoreSamples.mono_pipeline) MoreSamples.strict_save
    "hello" = Soprano.Wav [Byte.x52] "audio/wav".
Proof.
  destruct (text_to_speech_statuses (Some MoreSamples.mono_pipeline)
              MoreSamples.strict_save "hello") as (_ & _ & H & _).
  destruct (Soprano.text_to_speech _ _ _) as [content mt|code d] eqn:E.
  - destruct (H content mt eq_refl) as [-> _]. revert E. vm_compute.
    by intros [= <-].
  - revert E. vm_compute. discriminate.
Defined.

(** X22.  What the server does after start-up follows what [load_model]
    returned: when it returned [False] the server still runs, [health]
    reports no model and every speech request is answered 503; when it
    returned [True], [health] reports the model and no request is answered
    503. *)
Theorem failed_load_means_unavailable
    (built : outcome Soprano.pipeline)
    (save : Soprano.ndarray -> Z -> outcome bytes) :
  let pipe := Soprano.lifespan built in
  let loaded := snd (Soprano.load_model None built) in
  Soprano.health pipe = loaded ∧
  (loaded = false ↔ ∃ e, built = Raise e) ∧
  ∀ input,
    Soprano.status (Soprano.text_to_speech pipe save input) = 503%Z ↔ loaded = false.
Proof.
  cbv zeta. unfold Soprano.lifespan, Soprano.load_model.
  destruct built as [p|e]; simpl.
  - split_and!; [done | split; [discriminate | by intros [? [=]]] |].
    intros input. destruct (Soprano.generate p save input); simpl; split; discriminate.
  - split_and!; [done | split; [by eexists | done] | done].
Qed.

(** ** Sibling paths that differ *)

(** X23.  A [TypeError] from a send is treated differently by the two
    fan-outs.  In [broadcast_audio] it counts as a disconnect: the call
    completes and the connection is dropped.  In [broadcast] it is not
    handled: the same failure ends the call with [TypeError] and nothing is
    removed.  (Both calls taken without interference from other tasks.) *)
Theorem type_error_drops_in_audio_but_aborts_text
    (clients : gset conn) (w : wire) (c : conn) :
  c ∈ clients → w c = Raised TypeError →
  (∀ c' e, c' ∈ clients → w c' = Raised e → e = ConnectionClosed ∨ e = TypeError) →
  (Registry.raised (Registry.broadcast clients w []) = Some TypeError ∧
   Registry.clients_after (Registry.broadcast clients w []) = clients) ∧
  (Registry.raised (Registry.broadcast_audio clients w []) = None ∧
   c ∉ Registry.clients_after (Registry.broadcast_audio clients w [])).
Proof.
  intros Hin Hw Hall. split.
  - destruct (Registry.raised (Registry.broadcast clients w [])) as [e|] eqn:Hr.
    + destruct (fan_out_raised _ _ _ _ Hr) as (Hh & Hafter & tried & c' & rest & Hel & Hw' & _).
      split; [|done]. f_equal.
      assert (Hc' : c' ∈ clients).
      { apply elem_of_elements. rewrite Hel. set_solver. }
      destruct (Hall c' e Hc' Hw') as [-> | ->]; [discriminate | done].
    + exfalso. pose proof (fan_out_completed _ _ _ Hr) as Hc.
      unfold Registry.contained in Hc. rewrite Forall_forall in Hc.
      specialize (Hc c (proj2 (elem_of_elements _ _) Hin) TypeError Hw).
      discriminate.
  - assert (Hc : Registry.contained Registry.broadcast_audio_handles w (elements clients)).
    { apply Forall_forall. intros c' Hc' e He. apply elem_of_elements in Hc'.
      by destruct (Hall c' e Hc' He) as [-> | ->]. }
    destruct (fan_out_tolerant _ clients w Hc) as (Hr & _).
    split; [done|]. apply fan_out_dropped; [done | done |].
    unfold delivered. by rewrite Hw.
Qed.

Lemma type_error_drops_in_audio_but_aborts_text_witness :
  Registry.raised
    (Registry.broadcast Samples.three
       (fun c => if Pos.eqb c 2 then Raised TypeError else Sent) [])
    = Some TypeError ∧
  Registry.raised
    (Registry.broadcast_audio Samples.three
       (fun c => if Pos.eqb c 2 then Raised TypeError else Sent) []) = None.
Proof.
  destruct (type_error_drops_in_audio_but_aborts_text Samples.three
              (fun c => if Pos.eqb c 2 then Raised TypeError else Sent) 2%positive)
    as [[H1 _] [H2 _]].
  - apply (bool_decide_unpack _). vm_compute. exact I.
  - reflexivity.
  - intros c' e _. destruct (Pos.eqb c' 2); intros [=]; subst; auto.
  - by split.
Defined.

(** X24.  The cooldown starts when a trigger is accepted, not when its
    broadcast succeeds: if the broadcast of an accepted trigger is cut short
    by an exception (one a send raised and [broadcast] does not handle, or
    the [RuntimeError] of the [for] when another task has changed the
    registry), the last-trigger timestamp has already moved to the time of
    the detection, the error is printed in place of the detection message,
    and the loop sleeps 0.1 s.  The broadcast has removed nothing: the
    registry is as the other tasks left it, and unchanged when none of them
    touched it. *)
Theorem cut_short_trigger_still_starts_cooldown
    (s : Wake.service) (last : Q) (t : Wake.tick) (p : string) (e : exn) :
  Wake.detected s t = Some p →
  3 < Wake.clock t - last →
  Registry.raised
    (Registry.broadcast (Wake.clients s) (Wake.link t) (Wake.jam t)) = Some e →
  Wake.last_trigger (Wake.loop_body s last t) = Wake.clock t ∧
  Wake.final (Wake.loop_body s last t) =
    Wake.with_clients s
      (Registry.clients_after
         (Registry.broadcast (Wake.clients s) (Wake.link t) (Wake.jam t))) ∧
  (Registry.quiet (Wake.jam t) → Wake.final (Wake.loop_body s last t) = s) ∧
  ∃ before,
    Wake.triggers before = [] ∧
    Wake.effects (Wake.loop_body s last t) =
      before ++ [Wake.Trigger (Wake.clock t) p
                   (Registry.trace
                      (Registry.broadcast (Wake.clients s) (Wake.link t)
                                          (Wake.jam t)));
                 Wake.Print (Detector.AudioLoopError e); Wake.Sleep (1 # 10)].
Proof.
  intros Hd Hcool Hr. apply cooled_down_true in Hcool.
  revert Hd. unfold Wake.detected, Wake.loop_body, Wake.last_trigger, Wake.final, Wake.effects.
  destruct (Wake.stream s); [|discriminate].
  destruct (Wake.read t) as [audio_data|]; [|discriminate].
  destruct (Detector.detect_wake_word _ _ _) as [[q|] printed]; [|discriminate].
  simpl. destruct (Wake.truthy q); [|discriminate]. intros [= ->].
  rewrite Hcool, Hr. simpl.
  split_and!; [done | done | |].
  - intros Hq. revert Hr. unfold Registry.broadcast.
    rewrite (fan_out_quiet _ _ _ _ Hq). intros Hr.
    destruct (fan_out_raised _ _ _ _ Hr) as (_ & -> & _). by destruct s.
  - eexists. split; [|reflexivity]. apply triggers_detect.
Qed.

Lemma cut_short_trigger_still_starts_cooldown_witness :
  Wake.last_trigger (Wake.loop_body Samples.listening 0 MoreSamples.leo_breaks)
    = 1700000000.
Proof.
  destruct (cut_short_trigger_still_starts_cooldown Samples.listening 0
              MoreSamples.leo_breaks "Leo" RuntimeError) as (H & _).
  - vm_compute. reflexivity.
  - vm_compute. reflexivity.
  - vm_compute. reflexivity.
  - exact H.
Defined.

Lemma fan_out_never_adds_nor_drops_the_reached_witness :
  3%positive ∈ Registry.clients_after
                 (Registry.broadcast Samples.three Samples.second_breaks []).
Proof.
  destruct (fan_out_never_adds_nor_drops_the_reached Samples.three
              Samples.second_breaks) as [[_ H] _].
  apply H; [|reflexivity].
  apply (bool_decide_unpack _). vm_compute. exact I.
Defined.

Lemma failed_load_means_unavailable_witness :
  Soprano.status
    (Soprano.text_to_speech (Soprano.lifespan (Raise OSError))
       MoreSamples.strict_save "hello") = 503%Z.
Proof.
  destruct (failed_load_means_unavailable (Raise OSError) MoreSamples.strict_save)
    as (_ & _ & H).
  by apply H.
Defined.

(** ** Fan-out among other tasks *)

Section Interference.
Import Registry.

Variable handled : exn -> bool.
Variable w : wire.

(** A call that gets through has put every connection whose send failed
    into [disconnected], whatever the other tasks did meanwhile. *)
Lemma send_each_among_completed (used : nat) (jam : interference) :
  ∀ live cs d tr d' l,
    send_each_among handled w used live cs d jam = (tr, Return d', l) →
    d ⊆ d' ∧ ∀ c e, Send c (Raised e) ∈ tr → c ∈ d'.
Proof.
  induction jam as [|x later IH]; intros live cs d tr d' l.
  - simpl. pose proof (send_each_cases handled w cs d) as H.
    destruct (send_each handled w cs d) as [tr0 [d0|e0]]; [|discriminate].
    intros [= <- <- _]. destruct H as (-> & -> & _). split; [set_solver|].
    intros c e Hin. apply list_elem_of_fmap in Hin as (c0 & [= <- Hw] & Hc0).
    apply elem_of_union_l. unfold failing.
    apply elem_of_list_to_set, list_elem_of_filter. split; [|done].
    unfold delivered. by rewrite <- Hw.
  - destruct cs as [|c0 rest]; simpl.
    { intros [= <- <- _]. split; [done|]. by intros c e ?%elem_of_nil. }
    destruct (w c0) as [|e0] eqn:Hw0.
    + destruct (decide _) as [Hused|]; [|discriminate].
      destruct (send_each_among _ _ _ _ _ _ later) as [[tr1 r1] l1] eqn:Hrec.
      intros [= <- -> <-]. destruct (IH _ _ _ _ _ _ Hrec) as [Hsub Hin].
      split; [done|]. intros c e [[=]|Hc]%elem_of_cons. eauto.
    + destruct (handled e0); [|discriminate].
      destruct (decide _) as [Hused|]; [|discriminate].
      destruct (send_each_among _ _ _ _ _ _ later) as [[tr1 r1] l1] eqn:Hrec.
      intros [= <- -> <-]. destruct (IH _ _ _ _ _ _ Hrec) as [Hsub Hin].
      split; [set_solver|]. intros c e [[= -> _]|Hc]%elem_of_cons.
      * set_solver.
      * eauto.
Qed.

Lemma fan_out_drops_the_failed (clients : gset conn) (jam : interference)
      (c : conn) (e : exn) :
  raised (fan_out handled clients w jam) = None →
  Send c (Raised e) ∈ trace (fan_out handled clients w jam) →
  c ∉ clients_after (fan_out handled clients w jam).
Proof.
  unfold fan_out. destruct (decide (clients = ∅)) as [Hempty|Hne].
  { simpl. by intros _ ?%elem_of_nil. }
  destruct (send_each_among _ _ _ _ _ _ jam) as [[tr [d'|e']] l] eqn:Hrun;
    [|discriminate].
  simpl. intros _ [Hin|Hin]%elem_of_app;
    [|by apply list_elem_of_singleton in Hin].
  destruct (send_each_among_completed _ _ _ _ _ _ _ _ Hrun) as [_ Hd].
  specialize (Hd c e Hin). set_solver.
Qed.


End Interference.



(** X26.  In the machine of interleaved tasks a fan-out that starts and runs
    through its sends with nothing happening in between does exactly what
    [broadcast] (or [broadcast_audio]) does without interference: the same
    sends and removal in the same order, and the same registry at the end;
    the sockets and the other calls under way are left as they were. *)
Theorem undisturbed_call_is_the_fan_out
    (w : World.world) (wr : wire) (n : nat) :
  (size (World.registry w) ≤ n)%nat →
  World.run w (World.Broadcast ::
                 replicate n (World.Resume (length (World.calls w)) wr None)) =
    (World.MkWorld (World.open w)
       (Registry.clients_after (Registry.broadcast (World.registry w) wr []))
       (World.calls w),
     Registry.trace (Registry.broadcast (World.registry w) wr [])) ∧
  World.run w (World.ForwardAudio ::
                 replicate n (World.Resume (length (World.calls w)) wr None)) =
    (World.MkWorld (World.open w)
       (Registry.clients_after (Registry.broadcast_audio (World.registry w) wr []))
       (World.calls w),
     Registry.trace (Registry.broadcast_audio (World.registry w) wr [])).
Proof.
  intros Hn. split; rewrite run_cons; cbn [World.step fst snd];
    rewrite (begin_alone _ w wr n Hn); reflexivity.
Qed.

Lemma undisturbed_call_is_the_fan_out_witness :
  World.run (World.MkWorld {[1%positive]} {[1%positive; 2%positive]} [])
            [World.Broadcast; World.Resume 0 Samples.second_gone None;
             World.Resume 0 Samples.second_gone None] =
    (World.MkWorld {[1%positive]} {[1%positive]} [],
     [Registry.Send 2%positive (Raised ConnectionClosed);
      Registry.Send 1%positive Sent; Registry.Discard {[2%positive]}]).
Proof.
  destruct (undisturbed_call_is_the_fan_out
              (World.MkWorld {[1%positive]} {[1%positive; 2%positive]} [])
              Samples.second_gone 2) as [H _].
  - vm_compute. lia.
  - etransitivity; [exact H|]. vm_compute. reflexivity.
Defined.

(** X27.  Whatever the other tasks do to the registry during a fan-out, a
    call that runs to its end has removed every connection whose send failed
    in it: such a connection is not in the registry when the call returns,
    and the [finally] clause of its [register_client] then raises
    [KeyError]. *)
Theorem completed_call_drops_the_failed
    (handled : exn -> bool) (clients : gset conn) (w : wire)
    (jam : Registry.interference) (c : conn) (e : exn) :
  Registry.raised (Registry.fan_out handled clients w jam) = None →
  Registry.Send c (Raised e) ∈ Registry.trace (Registry.fan_out handled clients w jam) →
  (c ∉ Registry.clients_after (Registry.fan_out handled clients w jam)) ∧
  Registry.register_client_exit
    (Registry.clients_after (Registry.fan_out handled clients w jam)) c =
    Raise KeyError.
Proof.
  intros Hr Hin.
  pose proof (fan_out_drops_the_failed handled w clients jam c e Hr Hin) as Hout.
  split; [done|]. unfold Registry.register_client_exit. by rewrite decide_False.
Qed.

Lemma completed_call_drops_the_failed_witness :
  Registry.broadcast Samples.three Samples.second_gone Samples.swap =
    Registry.MkFanout
      [Registry.Send 3%positive Sent;
       Registry.Send 2%positive (Raised ConnectionClosed);
       Registry.Send 4%positive Sent; Registry.Discard {[2%positive]}]
      {[1%positive; 4%positive]} None ∧
  Registry.register_client_exit
    (Registry.clients_after
       (Registry.broadcast Samples.three Samples.second_gone Samples.swap))
    2%positive = Raise KeyError.
Proof.
  split; [vm_compute; reflexivity|].
  apply (completed_call_drops_the_failed Registry.broadcast_handles Samples.three
           Samples.second_gone Samples.swap 2%positive ConnectionClosed).
  - vm_compute. reflexivity.
  - vm_compute. right. left.
Defined.
